(** * QwenChat2Api: credential pool, stream transformer and request translation

  A shallow embedding of the gateway's core:
  - [lib/transformers.js]   the upstream-to-outward stream transformer and
                            the collector of the non-streaming branch,
  - [lib/sse.js]            the keep-alive / guarded terminal writer,
  - [lib/identity-pool.js]  the identity (credential) pool,
  - [lib/config.js], [lib/config-loader.js], [lib/token-refresh.js]
                            token lifetimes and the cookies of the pool,
  - [main.js]               aspect-ratio mapping, model names, client
                            credentials and [executeQwenRequest], with the
                            settling of [http.post] by lib/http.js.

  JavaScript strings are sequences of UTF-16 code units; a code unit is a
  number [N].  [Date.now()] is an explicit argument [now] (milliseconds). *)

From Stdlib Require Import ZArith NArith List Bool Lia String Ascii.
From Stdlib Require Import DecimalPos DecimalN.
From stdpp Require Import base decidable option list gmap.
From Equations Require Import Equations.
Import ListNotations.

Set Default Proof Using "Type".

(* ===================================================================== *)
(** ** JavaScript strings *)
(* ===================================================================== *)

Module JsString.

Definition jschar := N.
Definition jsstring := list N.

(** A literal: every character of the Rocq string is one code unit. *)
Fixpoint js (s : string) : jsstring :=
  match s with
  | EmptyString => []
  | String a s' => N_of_ascii a :: js s'
  end.

(** [s.length] *)
Definition jslength (s : jsstring) : N :=
  fold_left (fun n _ => N.succ n) s 0%N.

Fixpoint eqb (s t : jsstring) : bool :=
  match s, t with
  | [], [] => true
  | a :: s', b :: t' => N.eqb a b && eqb s' t'
  | _, _ => false
  end.

(** [s.startsWith(p)] *)
Fixpoint startsWith (s p : jsstring) {struct p} : bool :=
  match p, s with
  | [], _ => true
  | a :: p', b :: s' => N.eqb a b && startsWith s' p'
  | _ :: _, [] => false
  end.

(** [s.includes(p)] *)
Fixpoint includes (s p : jsstring) : bool :=
  startsWith s p ||
  match s with
  | [] => false
  | _ :: s' => includes s' p
  end.

(** [s.split(sep)] for a non-empty separator: cut at every occurrence found
    scanning left to right, occurrences do not overlap.  [skip] counts the
    code units of a matched separator still to be consumed, [cur] is the
    piece being read (reversed). *)
Fixpoint split_from (sep s : jsstring) (skip : nat) (cur : jsstring)
  : list jsstring :=
  match s with
  | [] => [rev cur]
  | c :: s' =>
      match skip with
      | S k => split_from sep s' k cur
      | O =>
          if startsWith s sep
          then rev cur :: split_from sep s' (Nat.pred (length sep)) []
          else split_from sep s' O (c :: cur)
      end
  end.

Definition split (s sep : jsstring) : list jsstring :=
  split_from sep s O [].

(** White space and line terminators: what [trim] strips and what the
    regular-expression class [\s] matches. *)
Definition isSpace (c : jschar) : bool :=
  existsb (N.eqb c)
    [9; 10; 11; 12; 13; 32; 160; 5760; 8232; 8233; 8239; 8287; 12288; 65279]%N
  || (N.leb 8192 c && N.leb c 8202).

Fixpoint trimStart (s : jsstring) : jsstring :=
  match s with
  | c :: s' => if isSpace c then trimStart s' else s
  | [] => []
  end.

Definition trimEnd (s : jsstring) : jsstring := rev (trimStart (rev s)).

(** [s.trim()] *)
Definition trim (s : jsstring) : jsstring := trimEnd (trimStart s).

(** [line.replace(/^data:\s?/, '')] *)
Definition strip_data_prefix (line : jsstring) : jsstring :=
  if startsWith line (js "data:") then
    match drop 5 line with
    | c :: rest => if isSpace c then rest else c :: rest
    | [] => []
    end
  else line.

(** A string is truthy when it is not empty. *)
Definition nonempty (s : jsstring) : bool :=
  match s with [] => false | _ => true end.

(** [arr.pop()] on a list of strings: the array without its last element,
    and that element ([None] for [undefined] on an empty array). *)
Definition pop (l : list jsstring) : list jsstring * option jsstring :=
  (removelast l, last l).

(** *** Decoding a chunk

    A chunk is a [Buffer], a sequence of bytes. [chunk.toString('utf-8')]
    decodes it as UTF-8, each ill-formed sequence (up to its maximal well-formed
    prefix) becoming U+FFFD, and gives the UTF-16 code units of the result. *)

Definition REPLACEMENT : N := 65533.

(** The code points of a byte sequence. A multi-byte sequence in progress
    still needs [needed] continuation bytes, has gathered [cp], and accepts as
    its next byte one between [lower] and [upper]. *)
Fixpoint utf8_code_points (bytes : list N) (needed : nat) (cp lower upper : N)
  : list N :=
  match bytes with
  | [] => match needed with O => [] | S _ => [REPLACEMENT] end
  | b :: rest =>
      let start :=
        if N.ltb b 128 then b :: utf8_code_points rest 0 0 128 191
        else if N.leb 194 b && N.leb b 223
        then utf8_code_points rest 1 (b - 192) 128 191
        else if N.leb 224 b && N.leb b 239
        then utf8_code_points rest 2 (b - 224)
               (if N.eqb b 224 then 160 else 128)
               (if N.eqb b 237 then 159 else 191)
        else if N.leb 240 b && N.leb b 244
        then utf8_code_points rest 3 (b - 240)
               (if N.eqb b 240 then 144 else 128)
               (if N.eqb b 244 then 143 else 191)
        else REPLACEMENT :: utf8_code_points rest 0 0 128 191 in
      match needed with
      | O => start
      | S k =>
          if N.leb lower b && N.leb b upper then
            let cp' := (cp * 64 + (b - 128))%N in
            match k with
            | O => cp' :: utf8_code_points rest 0 0 128 191
            | S _ => utf8_code_points rest k cp' 128 191
            end
          else REPLACEMENT :: start
      end
  end.

(** The UTF-16 code units of a code point. *)
Definition utf16_units (cp : N) : list jschar :=
  if N.ltb cp 65536 then [cp]
  else [(55296 + (cp - 65536) / 1024)%N; (56320 + (cp - 65536) mod 1024)%N].

(** [chunk.toString('utf-8')] *)
Definition toString_utf8 (chunk : list N) : jsstring :=
  concat (map utf16_units (utf8_code_points chunk 0 0 128 191)).

End JsString.

Import JsString.

(* ===================================================================== *)
(** ** JSON values and [JSON.parse] *)
(* ===================================================================== *)

Module Json.

(** A number literal [(-1)^neg * mant * 10^expo]; the JavaScript value is the
    double nearest to it. *)
Record jsnumber := mkNumber { neg : bool; mant : N; expo : Z }.

(** Values of the language that the transformer handles: what [JSON.parse]
    can return, and [undefined]. Object members are kept in source order;
    when a key is repeated the last member is the property's value. *)
#[warnings="-register-all"]
Inductive json :=
| JUndefined
| JNull
| JBool (b : bool)
| JNum (n : jsnumber)
| JStr (s : jsstring)
| JArr (items : list json)
| JObj (members : list (jsstring * json)).

Inductive presult (A : Type) :=
| POk (a : A) (rest : jsstring)
| PError
| PFuel.
Arguments POk {A} a rest.
Arguments PError {A}.
Arguments PFuel {A}.

Definition isJsonSpace (c : jschar) : bool :=
  existsb (N.eqb c) [32; 9; 10; 13]%N.

Fixpoint skip_ws (s : jsstring) : jsstring :=
  match s with
  | c :: s' => if isJsonSpace c then skip_ws s' else s
  | [] => []
  end.

Definition isDigit (c : jschar) : bool := N.leb 48 c && N.leb c 57.

(** Leading decimal digits of [s], folded into [acc]; how many were read;
    the rest. *)
Fixpoint read_digits (s : jsstring) (acc : N) (count : nat)
  : N * nat * jsstring :=
  match s with
  | c :: s' =>
      if isDigit c then read_digits s' (acc * 10 + (c - 48))%N (S count)
      else (acc, count, s)
  | [] => (acc, count, [])
  end.

Definition hexval (c : jschar) : option N :=
  if isDigit c then Some (c - 48)%N
  else if N.leb 97 c && N.leb c 102 then Some (c - 87)%N
  else if N.leb 65 c && N.leb c 70 then Some (c - 55)%N
  else None.

(** The single-character escapes: quote, backslash, slash, b, f, n, r, t. *)
Definition escape (e : jschar) : option jschar :=
  match e with
  | 34 => Some 34
  | 92 => Some 92
  | 47 => Some 47
  | 98 => Some 8
  | 102 => Some 12
  | 110 => Some 10
  | 114 => Some 13
  | 116 => Some 9
  | _ => None
  end%N.

Definition hex4 (a b c d : jschar) : option jschar :=
  match hexval a, hexval b, hexval c, hexval d with
  | Some x, Some y, Some z, Some w => Some (((x * 16 + y) * 16 + z) * 16 + w)%N
  | _, _, _, _ => None
  end.

(** The characters of a string literal after its opening quote. *)
Fixpoint parse_string_body (s : jsstring) (acc : jsstring)
  : presult jsstring :=
  match s with
  | [] => PError
  | c :: rest =>
      if N.eqb c 34 then POk (rev acc) rest
      else if N.eqb c 92 then
        match rest with
        | e :: rest1 =>
            if N.eqb e 117 then
              match rest1 with
              | a :: b :: c' :: d :: rest2 =>
                  match hex4 a b c' d with
                  | Some u => parse_string_body rest2 (u :: acc)
                  | None => PError
                  end
              | _ => PError
              end
            else
              match escape e with
              | Some u => parse_string_body rest1 (u :: acc)
              | None => PError
              end
        | [] => PError
        end
      else if N.ltb c 32 then PError
      else parse_string_body rest (c :: acc)
  end.

(** An optional minus sign. *)
Definition read_minus (s : jsstring) : bool * jsstring :=
  match s with
  | c :: r => if N.eqb c 45 then (true, r) else (false, s)
  | [] => (false, s)
  end.

(** The integer part of a JSON number: a single 0, or digits that start
    with a non-zero digit. *)
Definition read_int (s : jsstring) : option (N * jsstring) :=
  match s with
  | c :: r =>
      if N.eqb c 48 then Some (0%N, r)
      else match read_digits s 0 0 with
           | (_, O, _) => None
           | (m, S _, r') => Some (m, r')
           end
  | [] => None
  end.

(** An optional fraction, a dot and at least one digit: the digits are
    appended to [m] and counted. *)
Definition read_fraction (m : N) (s : jsstring) : option (N * Z * jsstring) :=
  match s with
  | c :: r =>
      if N.eqb c 46 then
        match read_digits r m 0 with
        | (_, O, _) => None
        | (m', S k, r') => Some (m', Z.of_nat (S k), r')
        end
      else Some (m, 0%Z, s)
  | [] => Some (m, 0%Z, s)
  end.

(** An optional sign, plus or minus. *)
Definition read_sign (s : jsstring) : bool * jsstring :=
  match s with
  | c :: r =>
      if N.eqb c 45 then (true, r)
      else if N.eqb c 43 then (false, r)
      else (false, s)
  | [] => (false, s)
  end.

(** An optional exponent: e or E, an optional sign, at least one digit. *)
Definition read_exponent (s : jsstring) : option (Z * jsstring) :=
  match s with
  | c :: r =>
      if N.eqb c 101 || N.eqb c 69 then
        let '(negative, r1) := read_sign r in
        match read_digits r1 0 0 with
        | (_, O, _) => None
        | (e, S _, r2) =>
            Some (if negative : bool then (- Z.of_N e)%Z else Z.of_N e, r2)
        end
      else Some (0%Z, s)
  | [] => Some (0%Z, s)
  end.

(** A number literal of JSON. *)
Definition parse_number (s : jsstring) : presult jsnumber :=
  let '(sign, s1) := read_minus s in
  match read_int s1 with
  | None => PError
  | Some (m, s2) =>
      match read_fraction m s2 with
      | None => PError
      | Some (m', fdigits, s3) =>
          match read_exponent s3 with
          | None => PError
          | Some (e, s4) => POk (mkNumber sign m' (e - fdigits)) s4
          end
      end
  end.

Definition expect_word (w : string) (v : json) (s : jsstring)
  : presult json :=
  if startsWith s (js w) then POk v (drop (String.length w) s) else PError.

(** The rest of [s] after its first code unit, when that is [c]. *)
Definition expect (c : jschar) (s : jsstring) : option jsstring :=
  match s with
  | x :: r => if N.eqb x c then Some r else None
  | [] => None
  end.

(** One value starting at the first code unit of [s] (white space already
    skipped). [parse_members] and [parse_elements] read the rest of an
    object or array whose first member or element starts at [s]. The code
    units tested are the braces 123 and 125, the brackets 91 and 93, the
    quotation mark 34, the colon 58 and the comma 44. *)
Fixpoint parse_value (fuel : nat) (s : jsstring) : presult json :=
  match fuel with
  | O => PFuel
  | S n =>
      match s with
      | [] => PError
      | c :: r =>
          if N.eqb c 123 then
            match expect 125%N (skip_ws r) with
            | Some r' => POk (JObj []) r'
            | None => parse_members n (skip_ws r) []
            end
          else if N.eqb c 91 then
            match expect 93%N (skip_ws r) with
            | Some r' => POk (JArr []) r'
            | None => parse_elements n (skip_ws r) []
            end
          else if N.eqb c 34 then
            match parse_string_body r [] with
            | POk str r' => POk (JStr str) r'
            | PError => PError
            | PFuel => PFuel
            end
          else if N.eqb c 116 then expect_word "true" (JBool true) s
          else if N.eqb c 102 then expect_word "false" (JBool false) s
          else if N.eqb c 110 then expect_word "null" JNull s
          else
            match parse_number s with
            | POk num r' => POk (JNum num) r'
            | PError => PError
            | PFuel => PFuel
            end
      end
  end
with parse_members (fuel : nat) (s : jsstring) (acc : list (jsstring * json))
  : presult json :=
  match fuel with
  | O => PFuel
  | S n =>
      match expect 34%N s with
      | None => PError
      | Some r =>
          match parse_string_body r [] with
          | POk key r1 =>
              match expect 58%N (skip_ws r1) with
              | None => PError
              | Some r2 =>
                  match parse_value n (skip_ws r2) with
                  | POk v r3 =>
                      match expect 44%N (skip_ws r3) with
                      | Some r4 =>
                          parse_members n (skip_ws r4) ((key, v) :: acc)
                      | None =>
                          match expect 125%N (skip_ws r3) with
                          | Some r4 => POk (JObj (rev ((key, v) :: acc))) r4
                          | None => PError
                          end
                      end
                  | PError => PError
                  | PFuel => PFuel
                  end
              end
          | PError => PError
          | PFuel => PFuel
          end
      end
  end
with parse_elements (fuel : nat) (s : jsstring) (acc : list json)
  : presult json :=
  match fuel with
  | O => PFuel
  | S n =>
      match parse_value n s with
      | POk v r1 =>
          match expect 44%N (skip_ws r1) with
          | Some r2 => parse_elements n (skip_ws r2) (v :: acc)
          | None =>
              match expect 93%N (skip_ws r1) with
              | Some r2 => POk (JArr (rev (v :: acc))) r2
              | None => PError
              end
          end
      | PError => PError
      | PFuel => PFuel
      end
  end.

(** Enough fuel for any text: every nested call is preceded by one of at
    most two calls that consume no input. *)
Definition fuel_for (s : jsstring) : nat := 2 * length s + 2.

(** [JSON.parse(text)]: [None] when it throws a [SyntaxError]. *)
Definition JSON_parse (text : jsstring) : option json :=
  match parse_value (fuel_for text) (skip_ws text) with
  | POk v rest => match skip_ws rest with
                  | [] => Some v
                  | _ :: _ => None
                  end
  | PError | PFuel => None
  end.

End Json.

Import Json.

(* ===================================================================== *)
(** ** The fragment of JavaScript the transformer relies on *)
(* ===================================================================== *)

Module Js.

(** Results of [Number(text)]. *)
Inductive number :=
| NaN
| Infinite (negative : bool)
| Finite (n : jsnumber).

(** The double nearest to the literal is [0] or [-0]: the literal is zero,
    or it is at most [2^-1075], half the smallest positive double (round to
    nearest, ties to even). *)
Definition rounds_to_zero (n : jsnumber) : bool :=
  N.eqb (mant n) 0
  || (Z.ltb (expo n) 0
      && N.leb (mant n * 2 ^ 1075) (10 ^ Z.to_N (- expo n))).

Definition positive (x : number) : bool :=
  match x with
  | NaN => false
  | Infinite negative => negb negative
  | Finite n => negb (neg n) && negb (rounds_to_zero n)
  end.

(** Digits of a literal in base [radix] (2, 8 or 16), all of [s]. *)
Fixpoint read_radix (radix : N) (s : jsstring) (acc : N) : option N :=
  match s with
  | [] => Some acc
  | c :: s' =>
      match hexval c with
      | Some d => if N.ltb d radix then read_radix radix s' (acc * radix + d) else None
      | None => None
      end
  end.

Definition radix_of (c : jschar) : option N :=
  if N.eqb c 120 || N.eqb c 88 then Some 16%N
  else if N.eqb c 111 || N.eqb c 79 then Some 8%N
  else if N.eqb c 98 || N.eqb c 66 then Some 2%N
  else None.

(** A decimal literal of the string-to-number grammar: an optional sign,
    then digits with an optional dot and more digits, or a dot and digits;
    then an optional exponent; nothing may follow. *)
Definition decimal_literal (s : jsstring) : number :=
  let '(sign, s1) := read_sign s in
  let '(m, k1, s2) := read_digits s1 0 0 in
  let '(m', k2, s3) :=
    match s2 with
    | c :: r => if N.eqb c 46 then read_digits r m 0 else (m, O, s2)
    | [] => (m, O, s2)
    end in
  match k1, k2 with
  | O, O => NaN
  | _, _ =>
      match read_exponent s3 with
      | Some (e, []) => Finite (mkNumber sign m' (e - Z.of_nat k2))
      | _ => NaN
      end
  end.

(** [Number(text)] for a string. *)
Definition StringToNumber (text : jsstring) : number :=
  let t := trim text in
  match t with
  | [] => Finite (mkNumber false 0 0)
  | _ =>
      if eqb t (js "Infinity") || eqb t (js "+Infinity") then Infinite false
      else if eqb t (js "-Infinity") then Infinite true
      else
        match t with
        | zero :: x :: (_ :: _) as digits =>
            match (if N.eqb zero 48 then radix_of x else None) with
            | Some radix =>
                match read_radix radix digits 0 with
                | Some v => Finite (mkNumber false v 0)
                | None => NaN
                end
            | None => decimal_literal t
            end
        | _ => decimal_literal t
        end
  end.

(** The property names the gateway reads. *)
Inductive prop :=
| Psuccess | Pdata | Pdetails | Pcode | Pchoices | Plength | P0
| Pdelta | Pmessage | Pcontent | Pphase | Pchat_type | Pstatus
| Pfinish_reason | Presult.

Definition prop_name (p : prop) : jsstring :=
  js match p with
     | Psuccess => "success" | Pdata => "data" | Pdetails => "details"
     | Pcode => "code" | Pchoices => "choices" | Plength => "length"
     | P0 => "0" | Pdelta => "delta" | Pmessage => "message"
     | Pcontent => "content" | Pphase => "phase"
     | Pchat_type => "chat_type" | Pstatus => "status"
     | Pfinish_reason => "finish_reason" | Presult => "result"
     end.

(** Own property of an object: the last member with that key. *)
Fixpoint lookup_member (key : jsstring) (members : list (jsstring * json))
  : option json :=
  match members with
  | [] => None
  | (k, v) :: rest =>
      match lookup_member key rest with
      | Some v' => Some v'
      | None => if eqb k key then Some v else None
      end
  end.

Definition number_of_N (n : N) : json := JNum (mkNumber false n 0).

(** [v.p] or [v[0]]: [None] is the [TypeError] raised on [null] and
    [undefined]. None of the names in [prop] is inherited from a prototype. *)
Definition get (v : json) (p : prop) : option json :=
  match v with
  | JUndefined | JNull => None
  | JBool _ | JNum _ => Some JUndefined
  | JStr s =>
      Some match p with
           | Plength => number_of_N (jslength s)
           | P0 => match s with c :: _ => JStr [c] | [] => JUndefined end
           | _ => JUndefined
           end
  | JArr items =>
      Some match p with
           | Plength => number_of_N (N.of_nat (length items))
           | P0 => match items with x :: _ => x | [] => JUndefined end
           | _ => JUndefined
           end
  | JObj members =>
      Some (default JUndefined (lookup_member (prop_name p) members))
  end.

(** [v?.p] *)
Definition get_optional (v : json) (p : prop) : json :=
  default JUndefined (get v p).

(** Truthiness, as tested by [if], [!], [||] and [&&]. *)
Definition truthy (v : json) : bool :=
  match v with
  | JUndefined | JNull => false
  | JBool b => b
  | JNum n => negb (rounds_to_zero n)
  | JStr s => nonempty s
  | JArr _ | JObj _ => true
  end.

(** [a || b] *)
Definition or_else (a b : json) : json := if truthy a then a else b.

(** [v === false] *)
Definition is_false (v : json) : bool :=
  match v with JBool false => true | _ => false end.

(** [v === 'text'] *)
Definition is_string (v : json) (text : string) : bool :=
  match v with JStr s => eqb s (js text) | _ => false end.

(** Converting a parsed value to a primitive raises a [TypeError] when an
    object has an own (hence not callable) [toString] member; an array
    converts its elements. *)
Fixpoint to_primitive_throws (v : json) : bool :=
  match v with
  | JObj members =>
      match lookup_member (js "toString") members with
      | Some _ => true
      | None => false
      end
  | JArr items =>
      (fix any (l : list json) : bool :=
         match l with
         | [] => false
         | JUndefined :: l' | JNull :: l' => any l'
         | x :: l' => to_primitive_throws x || any l'
         end) items
  | _ => false
  end.

(** [v > 0] when no exception is raised: [v] is converted to a number. An
    array converts through the text of its elements joined by commas, so only
    a one-element array can be a number other than zero. *)
Fixpoint gt_zero (v : json) : bool :=
  match v with
  | JUndefined | JNull => false
  | JBool b => b
  | JNum n => positive (Finite n)
  | JStr s => positive (StringToNumber s)
  | JObj _ => false
  | JArr [x] =>
      match x with
      | JBool _ => false
      | _ => gt_zero x
      end
  | JArr _ => false
  end.

(** The decimal digits of a numeral, as code units. *)
Fixpoint digits_of_uint (d : Decimal.uint) : jsstring :=
  match d with
  | Decimal.Nil => []
  | Decimal.D0 d' => 48%N :: digits_of_uint d'
  | Decimal.D1 d' => 49%N :: digits_of_uint d'
  | Decimal.D2 d' => 50%N :: digits_of_uint d'
  | Decimal.D3 d' => 51%N :: digits_of_uint d'
  | Decimal.D4 d' => 52%N :: digits_of_uint d'
  | Decimal.D5 d' => 53%N :: digits_of_uint d'
  | Decimal.D6 d' => 54%N :: digits_of_uint d'
  | Decimal.D7 d' => 55%N :: digits_of_uint d'
  | Decimal.D8 d' => 56%N :: digits_of_uint d'
  | Decimal.D9 d' => 57%N :: digits_of_uint d'
  end.

(** [String(n)] for a natural number below [10^21]: its decimal digits. *)
Definition decimal (n : N) : jsstring := digits_of_uint (N.to_uint n).

(** [String(z)] for an integer of magnitude below [10^21]. *)
Definition decimalZ (z : Z) : jsstring :=
  if (z <? 0)%Z then 45%N :: decimal (Z.abs_N z) else decimal (Z.abs_N z).

End Js.

Import Js.

(* ===================================================================== *)
(** ** lib/transformers.js: [createQwenToOpenAIStreamTransformer] *)
(* ===================================================================== *)

Module Transformer.

(** What the transformer pushes. [Done] is the text [data: [DONE]] followed
    by a blank line. [Chunk content stop] is [data: <json>] and a blank line
    for the chunk object whose [choices[0].delta.content] is [content] and
    whose [finish_reason] is ['stop'] when [stop] holds and [null] otherwise.
    [ErrorChunk m] is the chunk whose content is the template text
    [Error: ${m}], with [finish_reason] ['stop']. The chunk's [id], [created]
    and [model] fields are the same for a whole stream or irrelevant here. *)
Inductive frame :=
| Done
| Chunk (content : json) (stop : bool)
| ErrorChunk (errorMessage : json).

(** The closure's variables that outlive a call of [transform]. *)
Record state := mkState {
  buffer : jsstring;
  sentImageUrls : gset jsstring
}.

Definition MAX_BUFFER_SIZE : N := 100000.

Definition initial : state := mkState [] ∅.

(** *** The [try] block of one record

    The variables the block assigns ([content], [isFinished]), the set it
    updates and the frames it pushes; an exception keeps what was assigned
    before it was raised. *)
Record locals := mkLocals {
  content : json;
  isFinished : bool;
  sent : gset jsstring;
  pushed : list frame
}.

Inductive outcome (A : Type) :=
| Ret (a : A)        (* normal completion *)
| Throw              (* an exception, caught by the [catch] clause *)
| Continue.          (* the [continue] statement *)
Arguments Ret {A} a.
Arguments Throw {A}.
Arguments Continue {A}.

Definition M (A : Type) : Type := locals -> outcome A * locals.

Definition ret {A} (a : A) : M A := fun l => (Ret a, l).
Definition throw {A} : M A := fun l => (Throw, l).
Definition continue {A} : M A := fun l => (Continue, l).
Definition bind {A B} (m : M A) (k : A -> M B) : M B :=
  fun l => match m l with
           | (Ret a, l') => k a l'
           | (Throw, l') => (Throw, l')
           | (Continue, l') => (Continue, l')
           end.

#[local] Instance M_ret : MRet M := @ret.
#[local] Instance M_bind : MBind M := fun A B k m => bind m k.

Definition lift {A} (o : option A) : M A :=
  match o with Some a => ret a | None => throw end.

Definition read_content : M json := fun l => (Ret (content l), l).
Definition read_isFinished : M bool := fun l => (Ret (isFinished l), l).
Definition set_content (c : json) : M unit :=
  fun l => (Ret tt, mkLocals c (isFinished l) (sent l) (pushed l)).
Definition set_isFinished (b : bool) : M unit :=
  fun l => (Ret tt, mkLocals (content l) b (sent l) (pushed l)).
Definition push (f : frame) : M unit :=
  fun l => (Ret tt, mkLocals (content l) (isFinished l) (sent l) (pushed l ++ [f])).
Definition when (b : bool) (m : M unit) : M unit := if b then m else ret tt.

(** [`![Image](${url})`] *)
Definition image_markdown (url : jsstring) : jsstring :=
  js "![Image](" ++ url ++ js ")".

(** [if (!sentImageUrls.has(content)) { sentImageUrls.add(content);
    content = `![Image](${content})`; } else { content = ''; }] *)
Definition dedup (url : jsstring) : M unit :=
  fun l =>
    if bool_decide (url ∈ sent l)
    then (Ret tt, mkLocals (JStr []) (isFinished l) (sent l) (pushed l))
    else (Ret tt, mkLocals (JStr (image_markdown url)) (isFinished l)
                           ({[url]} ∪ sent l) (pushed l)).

Definition https : jsstring := js "https://".

(** [q.data?.details || q.data?.code || 'Unknown Qwen API error'] *)
Definition error_message (data : json) : json :=
  or_else (get_optional data Pdetails)
    (or_else (get_optional data Pcode) (JStr (js "Unknown Qwen API error"))).

(** The branch [q.choices && q.choices.length > 0]. *)
Definition choices_branch (choices : json) : M unit :=
  choice ← lift (get choices P0);
  d ← lift (get choice Pdelta);
  delta ← (if truthy d then ret d else lift (get choice Pmessage));
  when (truthy delta)
    (c ← lift (get delta Pcontent);
     set_content (or_else c (JStr []));;
     phase ← lift (get delta Pphase);
     (if is_string phase "image_gen" then
        cur ← read_content;
        when (truthy cur)
          match cur with
          | JStr s => when (startsWith s https) (dedup s)
          | _ => throw       (* [content.startsWith] is not a function *)
          end
      else
        chat_type ← lift (get delta Pchat_type);
        cur ← read_content;
        match cur with
        | JStr s =>
            when ((is_string chat_type "t2i" || is_string chat_type "image_edit")
                  && startsWith s https)
              (dedup s)
        | _ => ret tt
        end);;
     status ← lift (get delta Pstatus);
     when (is_string status "finished") (set_isFinished true);;
     fin ← read_isFinished;
     reason ← lift (get choice Pfinish_reason);
     set_isFinished (fin || is_string reason "stop")).

(** The branch [q.content]. *)
Definition content_branch (q c : json) : M unit :=
  set_content c;;
  match c with
  | JStr s =>
      when (startsWith s https && includes s (js "cdn.qwenlm.ai")) (dedup s)
  | _ => ret tt
  end;;
  status ← lift (get q Pstatus);
  reason ← lift (get q Pfinish_reason);
  set_isFinished (is_string status "finished" || is_string reason "stop").

(** The branch [q.result || q.data]. *)
Definition result_branch (data : json) : M unit :=
  match data with
  | JStr _ => set_content data
  | _ =>
      c ← lift (get data Pcontent);
      when (truthy c) (set_content c)
  end.

(** The body of [try { const q = JSON.parse(dataStr); ... }]. *)
Definition try_block (dataStr : jsstring) : M unit :=
  q ← lift (JSON_parse dataStr);
  success ← lift (get q Psuccess);
  if is_false success then
    data ← lift (get q Pdata);
    let errorMessage := error_message data in
    (if to_primitive_throws errorMessage then throw else ret tt);;
    push (ErrorChunk errorMessage);;
    push Done;;
    continue
  else
    choices ← lift (get q Pchoices);
    nonempty_choices ←
      (if truthy choices then
         len ← lift (get choices Plength);
         if to_primitive_throws len then throw else ret (gt_zero len)
       else ret false);
    if nonempty_choices : bool then choices_branch choices
    else
      c ← lift (get q Pcontent);
      if truthy c then content_branch q c
      else
        r ← lift (get q Presult);
        d ← lift (get q Pdata);
        when (truthy r || truthy d) (result_branch (or_else r d)).

(** The frames of a record once its [try] statement has completed: the
    [catch] clause, then [if (content || isFinished) this.push(...)]. *)
Definition finish_record (dataStr : jsstring) (completion : outcome unit)
           (l : locals) : gset jsstring * list frame :=
  match completion with
  | Continue => (sent l, pushed l)
  | _ =>
      let c :=
        match completion with
        | Throw => if negb (startsWith dataStr (js "{"))
                   then JStr dataStr else content l
        | _ => content l
        end in
      (sent l,
       pushed l ++
       if truthy c || isFinished l then [Chunk c (isFinished l)] else [])
  end.

(** The loop body from [let content = ''] on, for the record [dataStr]. *)
Definition process_record (urls : gset jsstring) (dataStr : jsstring)
  : gset jsstring * list frame :=
  let '(completion, l) := try_block dataStr (mkLocals (JStr []) false urls []) in
  finish_record dataStr completion l.

(** [dataStr] for a line of the buffer; [None] when the line is skipped. *)
Definition dataStr_of (line : jsstring) : option jsstring :=
  if negb (nonempty line) || negb (nonempty (trim line)) then None
  else
    let dataStr :=
      if startsWith line (js "data:") then trim (strip_data_prefix line)
      else trim line in
    if nonempty dataStr then Some dataStr else None.

(** One iteration of [for (const line of lines)]: the updated set and the
    frames pushed. *)
Definition process_line (urls : gset jsstring) (line : jsstring)
  : gset jsstring * list frame :=
  match dataStr_of line with
  | None => (urls, [])
  | Some dataStr =>
      if eqb dataStr (js "[DONE]") then (urls, [Done])
      else process_record urls dataStr
  end.

Fixpoint process_lines (urls : gset jsstring) (lines : list jsstring)
  : gset jsstring * list frame :=
  match lines with
  | [] => (urls, [])
  | line :: rest =>
      let '(urls1, out1) := process_line urls line in
      let '(urls2, out2) := process_lines urls1 rest in
      (urls2, out1 ++ out2)
  end.

(** The complete records of the buffer and what stays buffered. *)
Definition take_lines (buf : jsstring) : list jsstring * jsstring :=
  if includes buf (js (String "010" (String "010" ""))) then
    let '(lines, lastLine) := pop (split buf (js (String "010" (String "010" "")))) in
    (lines, default [] lastLine)
  else if includes buf (js (String "010" "")) then
    let lines := split buf (js (String "010" "")) in
    let lastLine := default [] (last lines) in
    if nonempty lastLine && negb (startsWith lastLine (js "data:"))
    then (fst (pop lines), lastLine)
    else (lines, [])
  else ([], buf).

(** The body of [transform] from [buffer += raw] on: the next state and the
    frames pushed, in order. *)
Definition transform_raw (st : state) (raw : jsstring) : state * list frame :=
  let buf := buffer st ++ raw in
  if N.ltb MAX_BUFFER_SIZE (jslength buf) then
    (mkState [] (sentImageUrls st), [])
  else if includes buf (js "[DONE]") then
    (mkState [] (sentImageUrls st), [Done])
  else
    let '(lines, rest) := take_lines buf in
    let '(urls, out) := process_lines (sentImageUrls st) lines in
    (mkState rest urls, out).

(** [transform(chunk, _enc, callback)] for a chunk of bytes; it always
    returns through [callback()]. *)
Definition transform (st : state) (chunk : list N) : state * list frame :=
  transform_raw st (toString_utf8 chunk).

(** A whole upstream stream, chunk by chunk. *)
Fixpoint run (st : state) (chunks : list (list N)) : state * list frame :=
  match chunks with
  | [] => (st, [])
  | chunk :: rest =>
      let '(st1, out1) := transform st chunk in
      let '(st2, out2) := run st1 rest in
      (st2, out1 ++ out2)
  end.

End Transformer.

(* ===================================================================== *)
(** ** lib/identity-pool.js *)
(* ===================================================================== *)

Module IdentityPool.

Inductive IDENTITY_STATUS := HEALTHY | DEGRADED | DOWN.

Definition status_eqb (a b : IDENTITY_STATUS) : bool :=
  match a, b with
  | HEALTHY, HEALTHY | DEGRADED, DEGRADED | DOWN, DOWN => true
  | _, _ => false
  end.

(** The fields of [class Identity]; [None] is [null]. Times are
    milliseconds since the epoch. *)
Record Identity := mkIdentity {
  id : jsstring;
  cookie : jsstring;
  token : option jsstring;
  tokenExp : option Z;
  status : IDENTITY_STATUS;
  failCount : Z;
  lastUsedAt : option Z;
  nextRetryAt : option Z;
  lastError : option jsstring
}.

(** [new Identity(id, cookie)] *)
Definition new_Identity (id cookie : jsstring) : Identity :=
  mkIdentity id cookie None None HEALTHY 0 None None None.

(** [class IdentityPool]. An identity is an object shared between the pool
    and its callers: a reference to it is its position in [identities]. *)
Record Pool := mkPool {
  identities : list Identity;
  currentIndex : nat;
  initialized : bool
}.

(** [new IdentityPool()] *)
Definition new_Pool : Pool := mkPool [] 0 false.

(** A nullable number is truthy when it is neither [null] nor [0]. *)
Definition truthy_time (t : option Z) : bool :=
  match t with
  | Some v => negb (v =? 0)%Z
  | None => false
  end.

(** A nullable string is truthy when it is neither [null] nor empty. *)
Definition truthy_token (t : option jsstring) : bool :=
  match t with
  | Some s => nonempty s
  | None => false
  end.

Section WithJwt.

(** The [exp] claim (seconds since the epoch) that [jwt.decode] of the
    package [jsonwebtoken] finds in a token's payload; [None] when the
    token does not decode or its payload has no [exp]. *)
Variable jwt_exp : jsstring -> option Z.

(** lib/config.js, [isTokenExpired]; [Math.floor(Date.now() / 1000)] is
    [now / 1000]. *)
Definition isTokenExpired (tok : jsstring) (now : Z) : bool :=
  match jwt_exp tok with
  | None => true
  | Some exp => (exp =? 0)%Z || (exp <? now / 1000)%Z
  end.

(** lib/config.js, [getTokenExpiryTime] *)
Definition getTokenExpiryTime (tok : jsstring) : option Z :=
  match jwt_exp tok with
  | None => None
  | Some exp => if (exp =? 0)%Z then None else Some (exp * 1000)%Z
  end.

(** [Identity.isAvailable()] *)
Definition isAvailable (i : Identity) (now : Z) : bool :=
  if status_eqb (status i) DOWN then false
  else if truthy_time (nextRetryAt i)
          && (now <? default 0%Z (nextRetryAt i))%Z then false
  else if negb (truthy_token (token i))
          || isTokenExpired (default [] (token i)) now then false
  else true.

(** [Identity.markFailure(error)] *)
Definition markFailure (error : option jsstring) (now : Z) (i : Identity)
  : Identity :=
  let n := (failCount i + 1)%Z in
  let '(st, retry) :=
    if (5 <=? n)%Z then (DOWN, Some (now + 5 * 60 * 1000)%Z)
    else if (3 <=? n)%Z then (DEGRADED, Some (now + 2 * 60 * 1000)%Z)
    else (status i, nextRetryAt i) in
  mkIdentity (id i) (cookie i) (token i) (tokenExp i) st n
             (lastUsedAt i) retry error.

(** [Identity.markSuccess()] *)
Definition markSuccess (now : Z) (i : Identity) : Identity :=
  let n := if (0 <? failCount i)%Z then Z.max 0 (failCount i - 1)
           else failCount i in
  let i1 := mkIdentity (id i) (cookie i) (token i) (tokenExp i) (status i) n
                       (lastUsedAt i) (nextRetryAt i) (lastError i) in
  let '(st, retry) :=
    if negb (status_eqb (status i1) HEALTHY) && isAvailable i1 now
    then (HEALTHY, None)
    else (status i1, nextRetryAt i1) in
  mkIdentity (id i) (cookie i) (token i) (tokenExp i) st n
             (Some now) retry (lastError i).

(** [Identity.updateToken(token)] *)
Definition updateToken (tok : jsstring) (i : Identity) : Identity :=
  mkIdentity (id i) (cookie i) (Some tok) (getTokenExpiryTime tok)
             (status i) (failCount i) (lastUsedAt i) (nextRetryAt i)
             (lastError i).

(** [identity.status = IDENTITY_STATUS.DEGRADED], the assignment made by
    [initialize] when the first token exchange fails. *)
Definition set_status (st : IDENTITY_STATUS) (i : Identity) : Identity :=
  mkIdentity (id i) (cookie i) (token i) (tokenExp i) st (failCount i)
             (lastUsedAt i) (nextRetryAt i) (lastError i).

(** [identities.filter(p)], as references: the positions, from [first]
    on, of the identities that satisfy [p]. *)
Fixpoint refs_where (p : Identity -> bool) (first : nat)
         (ids : list Identity) : list nat :=
  match ids with
  | [] => []
  | i :: rest =>
      if p i then first :: refs_where p (S first) rest
      else refs_where p (S first) rest
  end.

(** [IdentityPool.getAvailableIdentity()]: the reference returned
    ([None] for [null]) and the pool afterwards. *)
Definition getAvailableIdentity (p : Pool) (now : Z) : option nat * Pool :=
  match identities p with
  | [] => (None, p)
  | _ :: _ =>
      let availableIdentities :=
        refs_where (fun i => isAvailable i now) 0 (identities p) in
      match availableIdentities with
      | [] =>
          let allIdentities :=
            refs_where (fun i => truthy_token (token i)) 0 (identities p) in
          match allIdentities with
          | [] => (None, p)
          | _ :: _ =>
              (allIdentities !! (currentIndex p mod length allIdentities), p)
          end
      | _ :: _ =>
          let n := length availableIdentities in
          (availableIdentities !! (currentIndex p mod n),
           mkPool (identities p) ((currentIndex p + 1) mod n) (initialized p))
      end
  end.

(** Applying a method to the identity a reference points to. *)
Definition update (f : Identity -> Identity) (r : nat) (p : Pool) : Pool :=
  mkPool (alter f r (identities p)) (currentIndex p) (initialized p).

(** [IdentityPool.markIdentityFailure(identity, error)] *)
Definition markIdentityFailure (r : option nat) (error : option jsstring)
           (now : Z) (p : Pool) : Pool :=
  match r with
  | Some i => update (markFailure error now) i p
  | None => p
  end.

(** [IdentityPool.markIdentitySuccess(identity)] *)
Definition markIdentitySuccess (r : option nat) (now : Z) (p : Pool) : Pool :=
  match r with
  | Some i => update (markSuccess now) i p
  | None => p
  end.

(** The outcome of [getTokenFromCookie(cookie)]: a new token, or an error
    message. *)
Inductive exchange :=
| Exchanged (newToken : jsstring)
| ExchangeFailed (error : option jsstring).

(** The body of [initialize]'s map for one cookie; a result that reports
    success with an empty token takes the failure branch. *)
Definition init_identity (name cookie : jsstring) (result : exchange)
           (now : Z) : Identity :=
  let identity := new_Identity name cookie in
  match result with
  | Exchanged newToken =>
      if nonempty newToken then updateToken newToken identity
      else markFailure (Some (js "Token acquisition failed")) now
             (set_status DEGRADED identity)
  | ExchangeFailed error =>
      markFailure
        (Some (default (js "Token acquisition failed") error)) now
        (set_status DEGRADED identity)
  end.

(** [IdentityPool.initialize()], given the cookies that [getCookies()]
    returns, each with the outcome of its token exchange. *)
Definition initialize (cookies : list (jsstring * exchange)) (now : Z)
           (p : Pool) : Pool :=
  if initialized p then p
  else
    match cookies with
    | [] => mkPool (identities p) (currentIndex p) true
    | _ :: _ =>
        mkPool
          (imap (fun index '(cookie, result) =>
                   init_identity
                     (js "identity-" ++ decimal (N.of_nat (index + 1)))
                     cookie result now)
                cookies)
          (currentIndex p) true
    end.

(** [IdentityPool.refreshIdentityToken(identity)], given the outcome of
    the exchange. *)
Definition refreshIdentityToken (result : exchange) (now : Z)
           (i : Identity) : Identity :=
  match result with
  | Exchanged newToken =>
      if nonempty newToken then markSuccess now (updateToken newToken i)
      else markFailure (Some (js "Token refresh failed")) now i
  | ExchangeFailed error =>
      markFailure (Some (default (js "Token refresh failed") error)) now i
  end.

(** The methods of [Identity], as operations on an existing identity. *)
Inductive op :=
| MarkFailure (error : option jsstring)
| MarkSuccess
| UpdateToken (tok : jsstring)
| IsAvailable.

Definition apply_op (o : op) (now : Z) (i : Identity) : Identity :=
  match o with
  | MarkFailure error => markFailure error now i
  | MarkSuccess => markSuccess now i
  | UpdateToken tok => updateToken tok i
  | IsAvailable => i
  end.

(** A history: operations with the time each one ran at. *)
Fixpoint apply_ops (h : list (op * Z)) (i : Identity) : Identity :=
  match h with
  | [] => i
  | (o, now) :: rest => apply_ops rest (apply_op o now i)
  end.

End WithJwt.

End IdentityPool.

(* ===================================================================== *)
(** ** lib/sse.js: [createKeepAlive] *)
(* ===================================================================== *)

Module Sse.

(** What is written to the outward response: a frame, the comment line
    [: keepalive] followed by a blank line, or the JSON document that
    [res.status(status).json(body)] sends, given by its status and by the
    text its body carries. *)
Inductive wire :=
| Frame (f : Transformer.frame)
| KeepAlive
| Document (status : Z) (text : jsstring).

(** The outward response [res]. *)
Record response := mkResponse {
  written : list wire;
  writableEnded : bool;
  headersSent : bool
}.

(** [res.write(w)]; after [res.end()] nothing is written any more. *)
Definition write (w : wire) (res : response) : response :=
  if writableEnded res then res
  else mkResponse (written res ++ [w]) false (headersSent res).

(** [res.end()] *)
Definition end_ (res : response) : response :=
  mkResponse (written res) true (headersSent res).

(** [res.status(status).json(body)] on a response whose headers were not
    sent yet: the document is the whole body, and the response is ended. *)
Definition res_json (status : Z) (text : jsstring) (res : response)
  : response :=
  mkResponse (written res ++ [Document status text]) true true.

(** [setSseHeaders(res, requestId)]: the headers are flushed. *)
Definition setSseHeaders (res : response) : response :=
  mkResponse (written res) (writableEnded res) true.

(** The closure of [createKeepAlive]: the flag and whether the interval
    timer is still set. *)
Record keepAlive := mkKeepAlive {
  respondedDone : bool;
  keepalive : bool
}.

Definition createKeepAlive : keepAlive := mkKeepAlive false true.

Definition sentinel : wire := Frame Transformer.Done.

(** [safeWriteDone()] *)
Definition safeWriteDone (k : keepAlive) (res : response)
  : keepAlive * response :=
  if respondedDone k then (k, res)
  else
    let k' := mkKeepAlive true (keepalive k) in
    let res1 := if negb (writableEnded res) then write sentinel res else res in
    let res2 := if negb (writableEnded res1) then end_ res1 else res1 in
    (k', res2).

(** [cleanup()] *)
Definition cleanup (k : keepAlive) : keepAlive := mkKeepAlive true false.

(** One firing of the interval timer. *)
Definition tick (k : keepAlive) (res : response) : response :=
  if keepalive k && negb (writableEnded res) then write KeepAlive res else res.

End Sse.

(* ===================================================================== *)
(** ** main.js *)
(* ===================================================================== *)

Module Main.

Import Transformer Sse.

(** *** Aspect ratio of a requested image size *)

(** [!x] for a number. *)
Definition falsy (x : number) : bool :=
  match x with
  | NaN => true
  | Infinite _ => false
  | Finite n => rounds_to_zero n
  end.

(** The value of a number that is an integer of magnitude at most [2^53];
    sums, remainders and exact quotients of such numbers are computed
    without rounding. [None] for every other number. *)
Definition integer_value (x : number) : option Z :=
  match x with
  | Finite n =>
      let magnitude :=
        if (0 <=? expo n)%Z then Some (mant n * 10 ^ Z.to_N (expo n))%N
        else
          let scale := (10 ^ Z.to_N (- expo n))%N in
          if (mant n mod scale =? 0)%N then Some (mant n / scale)%N else None in
      match magnitude with
      | Some m =>
          if (m <=? 2 ^ 53)%N
          then Some (if neg n then (- Z.of_N m)%Z else Z.of_N m)
          else None
      | None => None
      end
  | NaN | Infinite _ => None
  end.

(** [const gcd = (a,b)=> b===0?a:gcd(b,a%b)] on integers; [%] takes the
    sign of the dividend. *)
Equations? gcd (a b : Z) : Z by wf (Z.abs_nat b) lt :=
  gcd a b with Z.eq_dec b 0%Z := {
    | left _ => a
    | right _ => gcd b (Z.rem a b)
  }.
Proof.
  pose proof (Z.rem_bound_abs a b). lia.
Qed.

(** [calculateAspectRatio(size)] for a string [size]. The result is [None]
    when both numbers are truthy and one of them is not an integer of
    magnitude at most [2^53]: the arithmetic is then on rounded or
    non-finite doubles, which this development does not describe. *)
Definition calculateAspectRatio (size : jsstring) : option jsstring :=
  let parts := map StringToNumber (split size (js "x")) in
  let w := default NaN (parts !! 0%nat) in
  let h := default NaN (parts !! 1%nat) in    (* [undefined] is falsy too *)
  if falsy w || falsy h then Some (js "1:1")
  else
    match integer_value w, integer_value h with
    | Some a, Some b =>
        let d := gcd a b in
        Some (decimalZ (Z.quot a d) ++ js ":" ++ decimalZ (Z.quot b d))
    | _, _ => None
    end.

Definition sizeMap : list (jsstring * jsstring) :=
  [ (js "256x256", js "1:1"); (js "512x512", js "1:1");
    (js "1024x1024", js "1:1"); (js "1792x1024", js "16:9");
    (js "1024x1792", js "9:16"); (js "2048x2048", js "1:1");
    (js "1152x768", js "3:2"); (js "768x1152", js "2:3") ].

(** Own property [sizeMap[key]]. *)
Fixpoint table_lookup (key : jsstring) (table : list (jsstring * jsstring))
  : option jsstring :=
  match table with
  | [] => None
  | (k, v) :: rest => if eqb k key then Some v else table_lookup key rest
  end.

(** The property names an object literal inherits from [Object.prototype];
    looked up in [sizeMap] they give a function or an object. *)
Definition inherited_names : list jsstring :=
  map js [ "constructor"; "hasOwnProperty"; "isPrototypeOf";
           "propertyIsEnumerable"; "toLocaleString"; "toString"; "valueOf";
           "__defineGetter__"; "__defineSetter__"; "__lookupGetter__";
           "__lookupSetter__"; "__proto__" ]%string.

Inductive qwen_size :=
| Ratio (token : jsstring)        (* an aspect-ratio token *)
| Inherited (name : jsstring).    (* a member of [Object.prototype] *)

(** The [size] that [transformOpenAIRequestToQwen] sends in text-to-image
    mode, for a request whose [size] is absent ([None]) or a string:
    [const openAISize = openAIRequest.size || '1024x1024';
     const qwenSize = sizeMap[openAISize] || calculateAspectRatio(openAISize);] *)
Definition qwenSize (size : option jsstring) : option qwen_size :=
  let openAISize :=
    match size with
    | Some s => if nonempty s then s else js "1024x1024"
    | None => js "1024x1024"
    end in
  match table_lookup openAISize sizeMap with
  | Some r => Some (Ratio r)
  | None =>
      if existsb (eqb openAISize) inherited_names
      then Some (Inherited openAISize)
      else Ratio <$> calculateAspectRatio openAISize
  end.

(** *** [executeQwenRequest]: the streaming branch *)

(** What lives as long as one streamed response: the transformer, the
    response, the keep-alive closure, and whether the upstream stream was
    destroyed. *)
Record streaming := mkStreaming {
  transformer : Transformer.state;
  res : response;
  alive : keepAlive;
  destroyed : bool
}.

(** The events the handlers of the streaming branch are registered for,
    and the keep-alive timer. *)
Inductive event :=
| UpstreamData (chunk : list N)   (* a chunk, piped through the transformer *)
| UpstreamError                   (* [upstream.data.on('error')] *)
| UpstreamEnd                     (* [upstream.data.on('end')] *)
| UpstreamClose                   (* [upstream.data.on('close')] *)
| TransformerEnd                  (* [transformer.on('end')] *)
| RequestClose                    (* [req.on('close')] *)
| ResponseClose                   (* [res.on('close')] *)
| ResponseFinish                  (* [res.on('finish')] *)
| Tick.                           (* the interval of [createKeepAlive] *)

Definition write_frames (fs : list frame) (r : response) : response :=
  fold_left (fun r f => write (Frame f) r) fs r.

(** The handler of one event. Frames pushed by the transformer are written
    to the response by [pipe(res, { end: false })]. The pool updates made by
    the handlers do not touch the response and are left out. *)
Definition handle (s : streaming) (e : event) : streaming :=
  match e with
  | UpstreamData chunk =>
      if destroyed s then s
      else
        let '(t, out) := transform (transformer s) chunk in
        mkStreaming t (write_frames out (res s)) (alive s) (destroyed s)
  | UpstreamError => s
  | UpstreamEnd | UpstreamClose | TransformerEnd =>
      let '(k, r) := safeWriteDone (alive s) (res s) in
      mkStreaming (transformer s) r k (destroyed s)
  | RequestClose =>
      let '(k, r) := safeWriteDone (alive s) (res s) in
      mkStreaming (transformer s) r k true
  | ResponseClose | ResponseFinish =>
      mkStreaming (transformer s) (res s) (cleanup (alive s)) (destroyed s)
  | Tick =>
      mkStreaming (transformer s) (tick (alive s) (res s)) (alive s) (destroyed s)
  end.

Definition handle_all (s : streaming) (events : list event) : streaming :=
  fold_left handle events s.

(** What becomes of the upstream call at the server: it answers with a
    status (the last one, once redirects were followed) and a body whose
    events follow, or no answer arrives and the call fails with a message.
    [waited] counts the timer firings while the call was awaited. *)
Inductive dispatch :=
| Responded (waited : nat) (status : Z) (events : list event)
| Rejected (waited : nat) (message : jsstring).

Definition waited_of (d : dispatch) : nat :=
  match d with
  | Responded waited _ _ => waited
  | Rejected waited _ => waited
  end.

(** How the promise of [http.post] settles: fulfilled with a response, or
    rejected with an error. *)
Inductive settled (A : Type) :=
| Fulfilled (status : Z) (data : A)
| Thrown (message : jsstring).
Arguments Fulfilled {A} status data.
Arguments Thrown {A} message.

(** The instance of lib/http.js sets no [validateStatus], so axios keeps
    its default, [status >= 200 && status < 300]. *)
Definition validateStatus (status : Z) : bool :=
  (200 <=? status)%Z && (status <? 300)%Z.

(** The message of the error with which axios rejects the promise for a
    status that [validateStatus] refuses. *)
Definition status_error (status : Z) : jsstring :=
  js "Request failed with status code " ++ decimalZ status.

(** [await http.post(apiUrl, qwenRequest, { headers, responseType:
    'stream' })] of the streaming branch. *)
Definition http_post (d : dispatch) : settled (list event) :=
  match d with
  | Responded _ status events =>
      if validateStatus status then Fulfilled status events
      else Thrown (status_error status)
  | Rejected _ message => Thrown message
  end.

(** What the [catch] clause of the streaming branch does with the
    response. *)
Definition stream_failure (message : jsstring) (k : keepAlive) (r : response)
  : keepAlive * response :=
  if headersSent r then
    let errorChunk :=
      Chunk (JStr (js "Upstream API request failed: " ++ message)) true in
    let r1 := write (Frame errorChunk) r in
    let r2 := write sentinel r1 in
    (cleanup k, end_ r2)
  else (k, r).

Definition is_sentinel (w : wire) : bool :=
  match w with
  | Frame Done => true
  | _ => false
  end.

(** How many times the terminal frame occurs. *)
Definition sentinels (ws : list wire) : nat :=
  length (List.filter is_sentinel ws).

End Main.

(* ===================================================================== *)
(** ** lib/config.js and lib/token-refresh.js: how long a token lasts *)
(* ===================================================================== *)

Module Config.

Import IdentityPool.

Section WithJwt.

Variable jwt_exp : jsstring -> option Z.

(** [getTokenRemainingTime(token)], in milliseconds. Times are integers of
    magnitude below [2^53], on which the arithmetic of doubles is exact. *)
Definition getTokenRemainingTime (tok : jsstring) (now : Z) : Z :=
  let expiryTime := getTokenExpiryTime jwt_exp tok in
  if negb (truthy_time expiryTime) then 0%Z
  else Z.max 0 (default 0%Z expiryTime - now).

(** [formatRemainingTime(remainingMs)] for a whole number of
    milliseconds. *)
Definition formatRemainingTime (remainingMs : Z) : jsstring :=
  if (remainingMs <=? 0)%Z then js "Expired"
  else
    let days := (remainingMs / (1000 * 60 * 60 * 24))%Z in
    let hours :=
      ((remainingMs mod (1000 * 60 * 60 * 24)) / (1000 * 60 * 60))%Z in
    let minutes := ((remainingMs mod (1000 * 60 * 60)) / (1000 * 60))%Z in
    if (0 <? days)%Z then decimalZ days ++ js "d " ++ decimalZ hours ++ js "h"
    else if (0 <? hours)%Z
    then decimalZ hours ++ js "h " ++ decimalZ minutes ++ js "m"
    else decimalZ minutes ++ js "m".

(** lib/config.js, [shouldRefreshToken()]; [QWEN_TOKEN] is the configured
    token, the empty string when there is none. *)
Definition shouldRefreshToken (QWEN_TOKEN : jsstring) (now : Z) : bool :=
  if negb (nonempty QWEN_TOKEN) then true
  else if isTokenExpired jwt_exp QWEN_TOKEN now then true
  else (getTokenRemainingTime QWEN_TOKEN now <? 24 * 60 * 60 * 1000)%Z.

(** The object that [getTokenRefreshInfo()] returns. *)
Record refreshInfo := mkRefreshInfo {
  needsRefresh : bool;
  isExpired : bool;
  remainingTime : Z;
  formattedTime : jsstring;
  valid : bool;
  reason : jsstring
}.

(** lib/config.js, [getTokenRefreshInfo()] *)
Definition getTokenRefreshInfo (QWEN_TOKEN : jsstring) (now : Z) : refreshInfo :=
  if negb (nonempty QWEN_TOKEN) then
    mkRefreshInfo true true 0 (js "N/A") false (js "No token found")
  else
    let expired := isTokenExpired jwt_exp QWEN_TOKEN now in
    let remaining := getTokenRemainingTime QWEN_TOKEN now in
    let formatted := formatRemainingTime remaining in
    let needs := shouldRefreshToken QWEN_TOKEN now in
    mkRefreshInfo needs expired remaining formatted (negb expired)
      (if needs
       then (if expired then js "Token is expired"
             else js "Token will expire within 24 hours")
       else js "Token is still valid").

(** lib/token-refresh.js, [shouldRefreshToken(token)]: the check the
    refresh scheduler makes, in seconds. *)
Definition scheduler_shouldRefreshToken (tok : jsstring) (now : Z) : bool :=
  match jwt_exp tok with
  | None => true
  | Some exp =>
      if (exp =? 0)%Z then true
      else
        let currentTime := (now / 1000)%Z in
        let timeUntilExpiry := (exp - currentTime)%Z in
        (timeUntilExpiry <? 24 * 60 * 60)%Z
  end.

End WithJwt.

End Config.

(* ===================================================================== *)
(** ** lib/identity-pool.js: pool status and the periodic refresh *)
(* ===================================================================== *)

Module PoolMaintenance.

Import IdentityPool Config.

Section WithJwt.

Variable jwt_exp : jsstring -> option Z.

(** The object that [getPoolStatus()] returns. *)
Record poolStatus := mkPoolStatus {
  total : nat;
  healthy : nat;
  degraded : nat;
  down : nat;
  reported_initialized : bool
}.

(** [IdentityPool.getPoolStatus()] *)
Definition getPoolStatus (p : Pool) (now : Z) : poolStatus :=
  mkPoolStatus
    (length (identities p))
    (length (List.filter
               (fun i => status_eqb (status i) HEALTHY && isAvailable jwt_exp i now)
               (identities p)))
    (length (List.filter (fun i => status_eqb (status i) DEGRADED) (identities p)))
    (length (List.filter (fun i => status_eqb (status i) DOWN) (identities p)))
    (initialized p).

(** Whether [refreshIdentityToken] returns [true] for this outcome of the
    exchange. *)
Definition refreshed (result : exchange) : bool :=
  match result with
  | Exchanged newToken => nonempty newToken
  | ExchangeFailed _ => false
  end.

(** The body of the map of [refreshExpiredTokens] for one identity: the
    checks run at [now]; when the token is exchanged, the exchange completes
    with [result] at the time [finished]. *)
Definition refresh_one (result : exchange) (finished : Z) (now : Z)
           (i : Identity) : bool * Identity :=
  let tok := default [] (token i) in
  if negb (truthy_token (token i)) || isTokenExpired jwt_exp tok now then
    (refreshed result, refreshIdentityToken jwt_exp result finished i)
  else if (getTokenRemainingTime jwt_exp tok now <? 24 * 60 * 60 * 1000)%Z then
    (refreshed result, refreshIdentityToken jwt_exp result finished i)
  else (false, i).

(** [IdentityPool.refreshExpiredTokens()]: the number of identities
    refreshed and the pool afterwards. [outcomes k] is the outcome of the
    exchange for the identity at position [k] and the time it completes. *)
Definition refreshExpiredTokens (outcomes : nat -> exchange * Z) (now : Z)
           (p : Pool) : nat * Pool :=
  let results :=
    imap (fun k i => refresh_one (fst (outcomes k)) (snd (outcomes k)) now i)
         (identities p) in
  (length (List.filter fst results),
   mkPool (map snd results) (currentIndex p) (initialized p)).

(** Consecutive calls of [getAvailableIdentity]: each call finds the
    identities of the pool in the state [fst call] at the time [snd call];
    the cursor is carried from one call to the next. *)
Fixpoint select_each (cursor : nat) (init : bool)
         (calls : list (list Identity * Z)) : list (option nat) :=
  match calls with
  | [] => []
  | (ids, now) :: rest =>
      let '(r, p) := getAvailableIdentity jwt_exp (mkPool ids cursor init) now in
      r :: select_each (currentIndex p) init rest
  end.

End WithJwt.

End PoolMaintenance.

(* ===================================================================== *)
(** ** Conversion of a value to a string *)
(* ===================================================================== *)

Module JsText.

Section WithNumbers.

(** [Number::toString] of the language, applied to the double nearest to a
    number literal. *)
Variable Number_toString : jsnumber -> jsstring.

(** [String(v)], the conversion made by a template literal and by [+] with
    a string: [None] is the [TypeError] raised for an object whose own
    [toString] member hides the method (see [to_primitive_throws]). An array
    joins the texts of its elements with commas, [null] and [undefined]
    giving the empty text. *)
Fixpoint ToString (v : json) : option jsstring :=
  match v with
  | JUndefined => Some (js "undefined")
  | JNull => Some (js "null")
  | JBool b => Some (if b then js "true" else js "false")
  | JNum n => Some (Number_toString n)
  | JStr s => Some s
  | JArr items =>
      (fix join (l : list json) (first : bool) : option jsstring :=
         match l with
         | [] => Some []
         | x :: l' =>
             let piece :=
               match x with
               | JUndefined | JNull => Some []
               | _ => ToString x
               end in
             match piece, join l' false with
             | Some p, Some rest =>
                 Some ((if first then [] else js ",") ++ p ++ rest)
             | _, _ => None
             end
         end) items true
  | JObj members =>
      match lookup_member (js "toString") members with
      | Some _ => None
      | None => Some (js "[object Object]")
      end
  end.

End WithNumbers.

End JsText.

(* ===================================================================== *)
(** ** lib/transformers.js: [collectOpenAICompletionFromSSE] *)
(* ===================================================================== *)

Module Collector.

Import JsText.

Section WithNumbers.

Variable Number_toString : jsnumber -> jsstring.

(** The variables of the promise's closure, and the value the promise was
    resolved with ([None] while it is pending). *)
Record state := mkState {
  remainder : jsstring;
  content : jsstring;
  sentImageUrls : gset jsstring;
  resolved : option jsstring
}.

Definition initial : state := mkState [] [] ∅ None.

(** *** [pickContentFromQwen]

    The body of its [try] block is a computation on the set of URLs that may
    raise an exception ([None]); what was added to the set before the
    exception stays. *)
Definition P (A : Type) : Type := gset jsstring -> option A * gset jsstring.

Definition ret {A} (a : A) : P A := fun urls => (Some a, urls).
Definition throw {A} : P A := fun urls => (None, urls).
Definition bind {A B} (m : P A) (k : A -> P B) : P B :=
  fun urls => match m urls with
              | (Some a, urls') => k a urls'
              | (None, urls') => (None, urls')
              end.

#[local] Instance P_ret : MRet P := @ret.
#[local] Instance P_bind : MBind P := fun A B k m => bind m k.

Definition lift {A} (o : option A) : P A :=
  match o with Some a => ret a | None => throw end.

(** [if (!sentImageUrls.has(c)) { sentImageUrls.add(c); c = `![Image](${c})`; }
    else { c = ''; }] *)
Definition dedup (url : jsstring) : P json :=
  fun urls =>
    if bool_decide (url ∈ urls) then (Some (JStr []), urls)
    else (Some (JStr (Transformer.image_markdown url)), {[url]} ∪ urls).

(** [typeof c === 'string' && c.startsWith('https://')] *)
Definition is_https (c : json) : bool :=
  match c with
  | JStr s => startsWith s Transformer.https
  | _ => false
  end.

(** The text of a value known to be a string. *)
Definition text_of (c : json) : jsstring :=
  match c with
  | JStr s => s
  | _ => []
  end.

(** The branch [q.choices && q.choices.length > 0]. *)
Definition choices_branch (choices : json) : P json :=
  choice ← lift (get choices P0);
  d ← lift (get choice Pdelta);
  m ← (if truthy d then ret d else lift (get choice Pmessage));
  let delta := if truthy m then m else JObj [] in
  c0 ← lift (get delta Pcontent);
  let c := or_else c0 (JStr []) in
  phase ← lift (get delta Pphase);
  c' ← (if is_string phase "image_gen" && is_https c then dedup (text_of c)
        else
          chat_type ← lift (get delta Pchat_type);
          if (is_string chat_type "t2i" || is_string chat_type "image_edit")
             && is_https c
          then dedup (text_of c)
          else ret c);
  ret (or_else c' (JStr [])).

(** The branch [typeof q.content === 'string']. *)
Definition content_branch (c : jsstring) : P json :=
  if startsWith c Transformer.https && includes c (js "cdn.qwenlm.ai") then
    fun urls =>
      if bool_decide (c ∈ urls) then (Some (JStr []), urls)
      else (Some (JStr (Transformer.image_markdown c)), {[c]} ∪ urls)
  else ret (JStr c).

(** The branch [q.result || q.data]; without a content the function falls
    through to [return '']. *)
Definition result_branch (data : json) : P json :=
  match data with
  | JStr _ => ret data
  | _ =>
      c ← lift (get data Pcontent);
      if truthy c then ret c else ret (JStr [])
  end.

(** The body of the [try] block of [pickContentFromQwen]. *)
Definition pick_body (q : json) : P json :=
  success ← lift (get q Psuccess);
  if is_false success then
    data ← lift (get q Pdata);
    text ← lift (ToString Number_toString (Transformer.error_message data));
    ret (JStr (js "Error: " ++ text))
  else
    choices ← lift (get q Pchoices);
    nonempty_choices ←
      (if truthy choices then
         len ← lift (get choices Plength);
         if to_primitive_throws len then throw else ret (gt_zero len)
       else ret false);
    if nonempty_choices : bool then choices_branch choices
    else
      c ← lift (get q Pcontent);
      match c with
      | JStr s => content_branch s
      | _ =>
          r ← lift (get q Presult);
          d ← (if truthy r then ret r else lift (get q Pdata));
          if truthy d then result_branch d else ret (JStr [])
      end.

(** [pickContentFromQwen(q)]: an exception is caught and gives [''] . *)
Definition pickContentFromQwen (q : json) (urls : gset jsstring)
  : json * gset jsstring :=
  match pick_body q urls with
  | (Some piece, urls') => (piece, urls')
  | (None, urls') => (JStr [], urls')
  end.

(** *** [onData] *)

(** [resolve(content)]: a promise is resolved once. *)
Definition resolve (st : state) : state :=
  match resolved st with
  | Some _ => st
  | None => mkState (remainder st) (content st) (sentImageUrls st)
                    (Some (content st))
  end.

(** The [catch] clause after [JSON.parse] and [content += piece]. *)
Definition append_raw (payload : jsstring) (st : state) : state :=
  if nonempty payload && negb (startsWith payload (js "{"))
  then mkState (remainder st) (content st ++ payload) (sentImageUrls st)
               (resolved st)
  else st.

(** The body of the [while] loop for a line already cut off [remainder]:
    the state afterwards and whether [onData] returns. *)
Definition on_line (st : state) (line : jsstring) : state * bool :=
  let trimmed := trim line in
  if negb (nonempty trimmed) then (st, false)
  else if eqb trimmed (js "data: [DONE]") then (resolve st, true)
  else if startsWith trimmed (js "data: ") then
    let payload := drop 6 trimmed in
    match JSON_parse payload with
    | Some q =>
        let '(piece, urls) := pickContentFromQwen q (sentImageUrls st) in
        let st1 := mkState (remainder st) (content st) urls (resolved st) in
        if truthy piece then
          match ToString Number_toString piece with
          | Some text =>
              (mkState (remainder st1) (content st1 ++ text)
                       (sentImageUrls st1) (resolved st1), false)
          | None => (append_raw payload st1, false)
          end
        else (st1, false)
    | None => (append_raw payload st, false)
    end
  else (st, false).

(** [s.indexOf(c)] for one code unit: [None] is [-1]. *)
Fixpoint indexOf (s : jsstring) (c : jschar) : option nat :=
  match s with
  | [] => None
  | x :: s' => if N.eqb x c then Some 0 else S <$> indexOf s' c
  end.

(** [while ((idx = remainder.indexOf('\n')) >= 0) { ... }]; every turn
    shortens [remainder], so [fuel] above its length is enough. *)
Fixpoint drain (fuel : nat) (st : state) : state :=
  match fuel with
  | O => st
  | S n =>
      match indexOf (remainder st) 10%N with
      | None => st
      | Some idx =>
          let line := take idx (remainder st) in
          let st1 := mkState (drop (S idx) (remainder st)) (content st)
                             (sentImageUrls st) (resolved st) in
          let '(st2, returned) := on_line st1 line in
          if returned : bool then st2 else drain n st2
      end
  end.

(** [onData(buf)] from [remainder += raw] on. *)
Definition onData_raw (st : state) (raw : jsstring) : state :=
  let st0 := mkState (remainder st ++ raw) (content st) (sentImageUrls st)
                     (resolved st) in
  drain (S (length (remainder st0))) st0.

(** [onData(buf)] for a chunk of bytes. *)
Definition onData (st : state) (buf : list N) : state :=
  onData_raw st (toString_utf8 buf).

(** The events of the upstream stream. *)
Inductive event :=
| Data (buf : list N)
| End
| Close
| Error.

(** The listener of one event. At the terminal marker [onData] destroys the
    stream, which then emits no further chunk. *)
Definition handle (st : state) (e : event) : state :=
  match e with
  | Data buf =>
      match resolved st with
      | Some _ => st
      | None => onData st buf
      end
  | End | Close | Error => resolve st
  end.

(** The value of the promise after a sequence of events; [None] while it
    is pending. *)
Definition collect (events : list event) : option jsstring :=
  resolved (fold_left handle events initial).

End WithNumbers.

End Collector.

(* ===================================================================== *)
(** ** main.js: [executeQwenRequest] with the identity it is given *)
(* ===================================================================== *)

Module Handler.

Import IdentityPool Transformer Sse Main.

(** The identity of a request: an identity of the pool, or the object
    [{ token, cookie, id: 'legacy' }] that the route builds when the pool
    gave none. That object has no methods. *)
Inductive who :=
| FromPool (r : nat)
| Legacy.

(** How a call of [executeQwenRequest] ends: it returns a result, or it
    raises an exception (its promise is rejected). *)
Inductive execution :=
| Returned (success retryable : bool)
| Raised.

Section WithJwt.

Variable jwt_exp : jsstring -> option Z.

(** [identityPool.markIdentitySuccess(identity)]: [None] is the
    [TypeError] raised by [identity.markSuccess()] on an object without that
    method. *)
Definition mark_success (identity : who) (now : Z) (p : Pool) : option Pool :=
  match identity with
  | FromPool r => Some (markIdentitySuccess jwt_exp (Some r) now p)
  | Legacy => None
  end.

(** [identityPool.markIdentityFailure(identity, error)] *)
Definition mark_failure (identity : who) (error : jsstring) (now : Z)
           (p : Pool) : option Pool :=
  match identity with
  | FromPool r => Some (markIdentityFailure (Some r) (Some error) now p)
  | Legacy => None
  end.

(** The message of the [TypeError] for a missing method. *)
Definition not_a_function (method : string) : jsstring :=
  js "identity." ++ js method ++ js " is not a function".

(** The [catch] clause of the streaming branch, for the exception with
    the message [message] raised after [waited] firings of the timer. An
    exception raised inside the clause leaves the response as it is. *)
Definition stream_catch (identity : who) (message : jsstring) (waited : nat)
           (now : Z) (p : Pool) : execution * Pool * streaming :=
  let r0 := setSseHeaders (mkResponse [] false false) in
  let r := Nat.iter waited (tick createKeepAlive) r0 in
  match mark_failure identity message now p with
  | None => (Raised, p, mkStreaming initial r createKeepAlive false)
  | Some p1 =>
      let '(k, r') := stream_failure message createKeepAlive r in
      (Returned false (negb (headersSent r)), p1, mkStreaming initial r' k false)
  end.

(** The streaming branch of [executeQwenRequest]: how the call ends, the
    pool when it ends, and the streamed response once the events of a
    successful call have been handled. All of it runs at the time [now]. *)
Definition executeQwenRequest_streaming (identity : who) (d : dispatch)
           (now : Z) (p : Pool) : execution * Pool * streaming :=
  let r0 := setSseHeaders (mkResponse [] false false) in
  let waited := waited_of d in
  match http_post d with
  | Fulfilled status events =>
      if (400 <=? status)%Z then
        match mark_failure identity (js "HTTP " ++ decimalZ status) now p with
        | None => stream_catch identity (not_a_function "markFailure") waited now p
        | Some p1 =>
            stream_catch identity
              (js "Upstream API returned error: " ++ decimalZ status)
              waited now p1
        end
      else
        match mark_success identity now p with
        | None => stream_catch identity (not_a_function "markSuccess") waited now p
        | Some p1 =>
            (Returned true false, p1,
             handle_all
               (mkStreaming initial (Nat.iter waited (tick createKeepAlive) r0)
                            createKeepAlive false)
               events)
        end
  | Thrown message => stream_catch identity message waited now p
  end.

(** What becomes of the upstream call of the non-streaming branch at the
    server: an answer with a status, or no answer and a failure with its
    message. *)
Inductive upstream :=
| Answered (status : Z)
| Refused (message : jsstring).

(** [await http.post(apiUrl, { ...qwenRequest, stream: true,
    incremental_output: true }, { headers, responseType: 'stream' })] of
    the non-streaming branch. *)
Definition http_post_collecting (u : upstream) : settled unit :=
  match u with
  | Answered status =>
      if validateStatus status then Fulfilled status tt
      else Thrown (status_error status)
  | Refused message => Thrown message
  end.

(** The non-streaming branch of [executeQwenRequest] up to the collection
    of the answer: how the call ends if the collection completes, and the
    pool then. *)
Definition executeQwenRequest_collecting (identity : who) (u : upstream)
           (now : Z) (p : Pool) : execution * Pool :=
  let catch message p :=
    match mark_failure identity message now p with
    | None => (Raised, p)
    | Some p1 => (Returned false true, p1)
    end in
  match http_post_collecting u with
  | Fulfilled status _ =>
      if (400 <=? status)%Z then
        match mark_failure identity (js "HTTP " ++ decimalZ status) now p with
        | None => catch (not_a_function "markFailure") p
        | Some p1 =>
            catch (js "Upstream API returned error: " ++ decimalZ status) p1
        end
      else
        match mark_success identity now p with
        | None => catch (not_a_function "markSuccess") p
        | Some p1 => (Returned true false, p1)
        end
  | Thrown message => catch message p
  end.

(** The condition under which the route retries with another identity:
    [!result.success && result.retryable && identityPool.initialized
     && identity.id !== 'legacy']. An identity of the pool is never named
    [legacy]: its name starts with [identity-]. *)
Definition retries (e : execution) (initialized : bool) (identity : who)
  : bool :=
  match e with
  | Returned success retryable =>
      negb success && retryable && initialized
      && match identity with FromPool _ => true | Legacy => false end
  | Raised => false
  end.

(** A non-streaming request whose single call of [executeQwenRequest]
    succeeds: the outward response after the route's
    [res.json(result.data)], where [result.data] carries the text collected
    from the events of the upstream body. [None] when the call fails or
    raises, or when the collection never completes; those ends are not
    described here. *)
Definition chat_completion_json (Number_toString : jsnumber -> jsstring)
           (identity : who) (u : upstream) (body : list Collector.event)
           (now : Z) (p : Pool) : option response :=
  match executeQwenRequest_collecting identity u now p with
  | (Returned true _, _) =>
      match Collector.collect Number_toString body with
      | Some text => Some (res_json 200 text (mkResponse [] false false))
      | None => None
      end
  | _ => None
  end.

End WithJwt.

End Handler.

(* ===================================================================== *)
(** ** main.js: model names and their variants *)
(* ===================================================================== *)

Module Models.

(** [s.endsWith(suffix)] *)
Definition endsWith (s suffix : jsstring) : bool :=
  startsWith (rev s) (rev suffix).

(** The chat type that [transformOpenAIRequestToQwen] derives from the
    name of the model. *)
Definition chat_type_of (model : jsstring) : jsstring :=
  if endsWith model (js "-image") then js "t2i"
  else if endsWith model (js "-image_edit") then js "image_edit"
  else if endsWith model (js "-video") then js "t2v"
  else js "t2t".

(** The alternatives of the regular expression
    [/-(search|thinking|image|image_edit|video)$/], each with its hyphen. *)
Definition suffixes : list jsstring :=
  map js ["-search"; "-thinking"; "-image"; "-image_edit"; "-video"]%string.

(** [model.replace(/-(search|thinking|image|image_edit|video)$/, '')]: the
    match is looked for from the left, and at a position it succeeds when
    what is left of the string is one of the alternatives. *)
Fixpoint strip_suffix (model : jsstring) : jsstring :=
  if existsb (eqb model) suffixes then []
  else
    match model with
    | [] => []
    | c :: rest => c :: strip_suffix rest
    end.

(** [thinking_enabled: model.includes('-thinking')] *)
Definition thinking_enabled (model : jsstring) : bool :=
  includes model (js "-thinking").

(** The names that the route [/v1/models] pushes for one upstream model
    named [id], after the names in [processed]. The four tests of the loop
    body on the abilities of the model are [thinking], [search], [t2i] and
    [image_edit]. *)
Definition variant_ids (id : jsstring) (thinking search t2i image_edit : bool)
           (processed : list jsstring) : list jsstring :=
  let p0 := processed ++ [id] in
  let p1 := if thinking then p0 ++ [id ++ js "-thinking"] else p0 in
  let p2 := if search then p1 ++ [id ++ js "-search"] else p1 in
  let p3 := if t2i then p2 ++ [id ++ js "-image"; id ++ js "-image_edit"]
            else p2 in
  if image_edit then
    if existsb (eqb (id ++ js "-image_edit")) p3 then p3
    else p3 ++ [id ++ js "-image_edit"]
  else p3.

End Models.

(* ===================================================================== *)
(** ** lib/config-loader.js: the cookies of the pool *)
(* ===================================================================== *)

Module ConfigLoader.

(** [safeReadFile(filePath)]: the trimmed content of the file, the empty
    string when the file is missing or cannot be read ([None]). *)
Definition safeReadFile (file : option jsstring) : jsstring :=
  match file with
  | Some text => trim text
  | None => []
  end.

(** [loadCookies()], given the environment variable [COOKIE] (the empty
    string when it is not set) and the cookie file. *)
Definition loadCookies (COOKIE : jsstring) (file : option jsstring)
  : list jsstring :=
  if nonempty COOKIE then
    let cookieStr := trim COOKIE in
    if includes cookieStr (js "|||")
    then List.filter nonempty (map trim (split cookieStr (js "|||")))
    else [cookieStr]
  else
    let cookieContent := safeReadFile file in
    if nonempty cookieContent
    then List.filter (fun line => nonempty line && negb (startsWith line (js "#")))
                     (map trim (split cookieContent [10%N]))
    else [].

End ConfigLoader.

(* ===================================================================== *)
(** ** lib/chat-deletion.js: the cookie header *)
(* ===================================================================== *)

Module ChatDeletion.

(** [cookie.replace(/[\r\n]/g, '').trim()] *)
Definition cleanCookie (cookie : jsstring) : jsstring :=
  trim (List.filter (fun c => negb (N.eqb c 13 || N.eqb c 10)) cookie).

End ChatDeletion.

(* ===================================================================== *)
(** ** main.js: the credentials of a request in client mode *)
(* ===================================================================== *)

Module Auth.

(** What the middleware does with a request: it passes it on with
    [req.state], or it answers with status 401 and a message. *)
Inductive verdict :=
| Next (qwenToken ssxmodItna : jsstring)
| Unauthorized (message : jsstring).

(** The lower-case form of a Latin capital letter. *)
Definition lower (c : jschar) : jschar :=
  if N.leb 65 c && N.leb c 90 then (c + 32)%N else c.

(** [s.replace(/^Bearer\s+/i, '')] *)
Definition strip_bearer (s : jsstring) : jsstring :=
  if eqb (map lower (take 6 s)) (js "bearer") then
    match drop 6 s with
    | c :: rest => if isSpace c then trimStart rest else s
    | [] => s
    end
  else s.

(** The branch of the middleware for client mode: [apiKey] is the
    configured key (empty when there is none) and [authorization] the
    request header ([None] when it is absent). *)
Definition client_auth (apiKey : jsstring) (authorization : option jsstring)
  : verdict :=
  let clientToken := strip_bearer (default [] authorization) in
  if negb (nonempty clientToken)
  then Unauthorized (js "No authentication token provided")
  else
    let parts := split clientToken (js ";") in
    let part k := trim <$> parts !! k in
    let accept (qwenToken : option jsstring) (ssxmodItna : jsstring) :=
      match qwenToken with
      | Some t => if nonempty t then Next t ssxmodItna
                  else Unauthorized (js "Qwen token required")
      | None => Unauthorized (js "Qwen token required")
      end in
    if nonempty apiKey then
      match part 0%nat with
      | Some key =>
          if eqb key apiKey then accept (part 1%nat) (default [] (part 2%nat))
          else Unauthorized (js "Invalid API key")
      | None => Unauthorized (js "Invalid API key")
      end
    else accept (part 0%nat) (default [] (part 1%nat)).

End Auth.

(* ===================================================================== *)
(** ** Sample inputs and the vocabulary of the statements *)
(* ===================================================================== *)

Module Samples.

(** A text written with apostrophes where the JSON text has quotation
    marks. *)
Definition quoted (s : string) : jsstring :=
  map (fun c => if N.eqb c 39 then 34%N else c) (js s).

(** A line feed, and the blank line that ends a record. *)
Definition LF : jsstring := [10%N].
Definition blank : jsstring := [10%N; 10%N].

(** A decoder that finds [exp] = 4102444800 (1 January 2100) in every
    token. *)
Definition expires_2100 (tok : jsstring) : option Z := Some 4102444800%Z.

(** 14 November 2023, 22:13:20 UTC, in milliseconds. *)
Definition t0 : Z := 1700000000000.

End Samples.

Module PoolSpec.

Import IdentityPool Samples.

(** The statement that [status] is computed from [failCount] and the
    time of the read, for every identity the module can produce. *)
Definition status_is_function_of_counter_and_time : Prop :=
  exists f : Z -> Z -> IDENTITY_STATUS,
    forall (jwt_exp : jsstring -> option Z) (name cookie : jsstring)
           (history : list (op * Z)) (now : Z),
      let i := apply_ops jwt_exp history (new_Identity name cookie) in
      status i = f (failCount i) now.

Definition repeat_op (n : nat) (o : op) (now : Z) : list (op * Z) :=
  repeat (o, now) n.

(** Five failures in a row. *)
Definition five_failures : list (op * Z) :=
  repeat_op 5 (MarkFailure None) t0.

(** An identity that holds a token valid until 2100. *)
Definition holder : Identity :=
  updateToken expires_2100 (js "token-A") (new_Identity (js "identity-1") (js "cookie-A")).

(** Five failures, then two successes a minute later, then one more
    failure. *)
Definition recovery : list (op * Z) :=
  five_failures
  ++ repeat_op 2 MarkSuccess (t0 + 60000)
  ++ [(MarkFailure None, t0 + 61000)%Z].

(** The cool-down check of [isAvailable] does not exclude the identity. *)
Definition cooled_down (i : Identity) (now : Z) : Prop :=
  forall t, nextRetryAt i = Some t -> t <> 0%Z -> (t <= now)%Z.

(** The identity holds a token that has not expired. *)
Definition holds_valid_token (jwt_exp : jsstring -> option Z)
           (i : Identity) (now : Z) : Prop :=
  exists tok, token i = Some tok /\ tok <> []
              /\ isTokenExpired jwt_exp tok now = false.

End PoolSpec.

Module TransformerSpec.

Import Transformer Samples.

Create HintDb growing.

(** [choice.delta || choice.message] *)
Definition delta_of (choice : json) : option json :=
  match get choice Pdelta with
  | Some d => if truthy d then Some d else get choice Pmessage
  | None => None
  end.

(** The delta is tagged as image generation or image editing. *)
Definition image_phase (delta : json) : bool :=
  is_string (get_optional delta Pphase) "image_gen"
  || is_string (get_optional delta Pchat_type) "t2i"
  || is_string (get_optional delta Pchat_type) "image_edit".

(** The record carries a finish marker. *)
Definition finish_marked (choice delta : json) : bool :=
  is_string (get_optional delta Pstatus) "finished"
  || is_string (get_optional choice Pfinish_reason) "stop".

(** [q] is an image-phase record whose content is the URL [url]: it is not
    a failure record, its [choices] is a non-empty array, and the delta of
    the first choice is tagged as an image phase and has the content [url],
    which starts with [https://]. [finished] tells whether it carries a
    finish marker. *)
Definition image_record (q : json) (url : jsstring) (finished : bool) : Prop :=
  exists success choice others delta,
    get q Psuccess = Some success /\ is_false success = false
    /\ get q Pchoices = Some (JArr (choice :: others))
    /\ delta_of choice = Some delta /\ truthy delta = true
    /\ image_phase delta = true
    /\ get delta Pcontent = Some (JStr url)
    /\ startsWith url https = true
    /\ finished = finish_marked choice delta.

(** An action of the [try] block never removes a URL from the set. *)
Definition growing {A} (m : M A) : Prop := forall l, sent l ⊆ sent (snd (m l)).

(** Decompose an action along its binds, conditionals and matches, given the
    lemmas for [bind] and [when]; the leaves are closed from the hint
    database [growing]. *)
Ltac grow_with bind_lemma when_lemma :=
  repeat first
    [ apply bind_lemma; [| intros ?]
    | apply when_lemma
    | match goal with
      | |- growing (if ?b then _ else _) => destruct b
      | |- growing (match ?x with _ => _ end) => destruct x
      end
    | solve [auto with growing] ].

(** A failure record, and an ordinary content record after it. *)
Definition failure_record : jsstring :=
  quoted "data: {'success':false,'data':{'code':'RateLimited'}}" ++ blank.

Definition late_record : jsstring :=
  quoted "data: {'choices':[{'delta':{'content':'late'}}]}" ++ blank.

(** An image-phase record and its data string. *)
Definition image_data : jsstring :=
  quoted "{'choices':[{'delta':{'phase':'image_gen','content':'https://cdn.qwenlm.ai/a.png'}}]}".

Definition image_url : jsstring := js "https://cdn.qwenlm.ai/a.png".

(** 100001 ASCII bytes without a record delimiter. *)
Definition oversized : list N := N.iter 100001 (cons 97%N) [].

(** 50001 times the two bytes C3 A9 of the letter e with an acute accent. *)
Definition two_byte_chunk : list N :=
  N.iter 50001 (fun bytes => 195%N :: 169%N :: bytes) [].

End TransformerSpec.

Module MainSpec.

Import Main Samples.

(** The string holds decimal digits only. *)
Definition all_digits (s : jsstring) : Prop := Forall (fun c => isDigit c = true) s.

(** Case analysis on a code unit known to be a digit, given the lemma that
    lists the ten digits. *)
Ltac digit_cases_with cases_lemma H :=
  apply cases_lemma in H;
  destruct H as [-> | [-> | [-> | [-> | [-> | [-> | [-> | [-> | [-> | ->]]]]]]]]].

(** The number written by a string of digits, continuing from [acc]. *)
Definition digits_value (s : jsstring) (acc : N) : N :=
  fold_left (fun a c => a * 10 + (c - 48))%N s acc.

Import Transformer Sse.

(** The chunks that reach the transformer: those that arrive before the
    client closes the request. *)
Fixpoint delivered (closed : bool) (events : list event) : list jsstring :=
  match events with
  | [] => []
  | UpstreamData raw :: rest =>
      if closed then delivered closed rest else raw :: delivered closed rest
  | RequestClose :: rest => delivered true rest
  | _ :: rest => delivered closed rest
  end.

Definition is_done (f : frame) : bool :=
  match f with
  | Done => true
  | _ => false
  end.

(** How many terminal frames the transformer itself pushes for a sequence
    of chunks. *)
Definition forwarded (t : Transformer.state) (chunks : list jsstring) : nat :=
  length (List.filter is_done (snd (run t chunks))).

(** An ended response has the terminal frame as its last frame. *)
Definition closed_by_sentinel (r : response) : Prop :=
  writableEnded r = true -> last (written r) = Some sentinel.

(** The events whose handler calls [safeWriteDone]. *)
Definition finalizing (e : event) : bool :=
  match e with
  | UpstreamEnd | UpstreamClose | TransformerEnd | RequestClose => true
  | _ => false
  end.

(** The events whose handler calls [cleanup]. *)
Definition cleaning (e : event) : bool :=
  match e with
  | ResponseClose | ResponseFinish => true
  | _ => false
  end.

(** An upstream stream that ends without a terminal marker: one content
    record, then the events of an orderly end. *)
Definition unmarked_stream : list event :=
  [ UpstreamData TransformerSpec.late_record;
    UpstreamEnd; TransformerEnd; ResponseFinish; UpstreamClose ].

(** The upstream call failed: no answer came, or one with a status outside
    200 to 299. *)
Definition failed (d : dispatch) : Prop :=
  match d with
  | Rejected _ _ => True
  | Responded _ status _ => ~ (200 <= status < 300)%Z
  end.

(** The body of an upstream answer as the non-streaming branch reads it:
    one content record, the terminal marker, the end of the stream. *)
Definition collected_body : list Collector.event :=
  [ Collector.Data TransformerSpec.late_record;
    Collector.Data (js "data: [DONE]" ++ blank);
    Collector.End ].

(** A pool of one identity that holds a token valid until 2100. *)
Definition one_holder : IdentityPool.Pool :=
  IdentityPool.mkPool [PoolSpec.holder] 0 true.

End MainSpec.

(* ===================================================================== *)
(** ** More sample inputs *)
(* ===================================================================== *)

Module MoreSamples.

Import IdentityPool Samples.

(** A decoder that finds the given [exp] in every token. *)
Definition expires_at (exp : Z) (tok : jsstring) : option Z := Some exp.

End MoreSamples.

Module PoolMoreSpec.

Import IdentityPool Config.

(** The failure counter is not negative and [tokenExp] mirrors the token
    held. *)
Definition well_formed (jwt_exp : jsstring -> option Z) (i : Identity) : Prop :=
  (0 <= failCount i)%Z
  /\ tokenExp i = match token i with
                  | Some tok => getTokenExpiryTime jwt_exp tok
                  | None => None
                  end.

(** The identity holds a token that is valid for at least one more day. *)
Definition fresh (jwt_exp : jsstring -> option Z) (i : Identity) (now : Z)
  : Prop :=
  exists tok, token i = Some tok /\ tok <> []
              /\ isTokenExpired jwt_exp tok now = false
              /\ (24 * 60 * 60 * 1000 <= getTokenRemainingTime jwt_exp tok now)%Z.

End PoolMoreSpec.

Module TransformerMoreSpec.

Import Transformer Samples.

Create HintDb quiet.

(** A frame other than a content chunk. *)
Definition not_chunk (f : frame) : Prop :=
  match f with
  | Chunk _ _ => False
  | _ => True
  end.

(** An action of the [try] block pushes no content chunk. *)
Definition quiet {A} (m : M A) : Prop :=
  forall l, Forall not_chunk (pushed l) -> Forall not_chunk (pushed (snd (m l))).

(** Decompose an action along its binds, conditionals and matches, given the
    lemmas for [bind] and [when]; the leaves are closed from the hint
    database [quiet]. *)
Ltac quiet_with bind_lemma when_lemma :=
  repeat first
    [ apply bind_lemma; [| intros ?]
    | apply when_lemma
    | match goal with
      | |- quiet (if ?b then _ else _) => destruct b
      | |- quiet (match ?x with _ => _ end) => destruct x
      end
    | solve [auto with quiet] ].

(** A content chunk says something: its content is truthy or it is the
    finishing chunk. *)
Definition informative (f : frame) : Prop :=
  match f with
  | Chunk c stop => truthy c = true \/ stop = true
  | _ => True
  end.

(** The buffer is within the cap. *)
Definition within_cap (st : state) : Prop :=
  (jslength (buffer st) <= MAX_BUFFER_SIZE)%N.

(** A line that can travel as one chunk, followed by a blank line: it holds
    no line feed and not the text of the terminal marker, and with the blank
    line it fits the buffer. *)
Definition plain_record (line : jsstring) : Prop :=
  Forall (fun c => c <> 10%N) line
  /\ includes line (js "[DONE]") = false
  /\ (jslength (line ++ blank) <= MAX_BUFFER_SIZE)%N.

End TransformerMoreSpec.

Module CollectorSpec.

Import Collector.

Section WithNumbers.

Variable Number_toString : jsnumber -> jsstring.

(** The state with another [remainder]. *)
Definition with_remainder (r : jsstring) (st : state) : state :=
  mkState r (content st) (sentImageUrls st) (resolved st).

(** The loop of [onData] as one pass over the text: [cur] holds, reversed,
    the code units read since the last line feed. *)
Fixpoint scan (st : state) (cur : jsstring) (s : jsstring) : state :=
  match s with
  | [] => with_remainder (rev cur) st
  | c :: s' =>
      if N.eqb c 10 then
        let '(st2, returned) :=
          on_line Number_toString (with_remainder s' st) (rev cur) in
        if returned : bool then st2 else scan st2 [] s'
      else scan st (c :: cur) s'
  end.

(** The lines one after the other, up to the line at which [onData]
    returns. *)
Fixpoint on_lines (st : state) (lines : list jsstring) : state :=
  match lines with
  | [] => st
  | line :: rest =>
      let '(st1, returned) := on_line Number_toString st line in
      if returned : bool then st1 else on_lines st1 rest
  end.

(** Two states from which the promise gets the same value: they agree on
    the value it was resolved with and, while it is pending, on everything. *)
Definition same_result (a b : state) : Prop :=
  resolved a = resolved b /\ (resolved a = None -> a = b).

(** Two states that differ at most in [remainder]. *)
Definition same_core (a b : state) : Prop :=
  content a = content b /\ sentImageUrls a = sentImageUrls b
  /\ resolved a = resolved b.

End WithNumbers.

(** The text of a sequence of chunks. *)
Definition decoded (chunks : list (list N)) : jsstring :=
  concat (map toString_utf8 chunks).

(** A text without a line feed. *)
Definition no_line_feed (s : jsstring) : Prop := Forall (fun c => c <> 10%N) s.

(** Lines, each ended by a line feed. *)
Definition terminated (lines : list jsstring) : jsstring :=
  concat (map (fun l => l ++ [10%N]) lines).

(** [q] is a record that is not a failure record, whose [choices] is a
    non-empty array, and in which the delta of the first choice has the
    string [s] as its content. *)
Definition choices_record (q choice delta : json) (s : jsstring) : Prop :=
  exists success others,
    get q Psuccess = Some success /\ is_false success = false
    /\ get q Pchoices = Some (JArr (choice :: others))
    /\ TransformerSpec.delta_of choice = Some delta /\ truthy delta = true
    /\ get delta Pcontent = Some (JStr s).

(** The content [s] of a delta is the address of an image. *)
Definition is_image (delta : json) (s : jsstring) : bool :=
  TransformerSpec.image_phase delta && startsWith s Transformer.https.

(** The text shown for the content [s] of a delta: an image address is
    wrapped the first time and left out afterwards. *)
Definition shown (delta : json) (s : jsstring) (urls : gset jsstring)
  : jsstring :=
  if is_image delta s
  then (if bool_decide (s ∈ urls) then [] else Transformer.image_markdown s)
  else s.

(** The image addresses remembered after the content [s] of a delta. *)
Definition remembered (delta : json) (s : jsstring) (urls : gset jsstring)
  : gset jsstring :=
  if is_image delta s && negb (bool_decide (s ∈ urls)) then {[s]} ∪ urls
  else urls.

(** A number formatting that is never consulted in the examples. *)
Definition no_numbers (n : jsnumber) : jsstring := [].

End CollectorSpec.

Module HandlerSpec.

Import IdentityPool Transformer Sse Main Handler.

(** The upstream call of the streaming branch failed: no answer came, or
    one with a status outside 200 to 299. *)
Definition stream_failed (d : dispatch) : bool :=
  match d with
  | Responded _ status _ => negb (validateStatus status)
  | Rejected _ _ => true
  end.

(** The upstream call of the non-streaming branch failed. *)
Definition answer_failed (u : upstream) : bool :=
  match u with
  | Answered status => negb (validateStatus status)
  | Refused _ => true
  end.

(** The failure counter of the identity at position [r]. *)
Definition failures (p : Pool) (r : nat) : option Z :=
  failCount <$> identities p !! r.

End HandlerSpec.

Module TextSpec.

(** [pieces.join(sep)] *)
Fixpoint join (sep : jsstring) (pieces : list jsstring) : jsstring :=
  match pieces with
  | [] => []
  | p :: rest =>
      match rest with
      | [] => p
      | _ :: _ => p ++ sep ++ join sep rest
      end
  end.

(** Neither the first nor the last code unit of the string is white
    space. *)
Definition edges_not_space (s : jsstring) : Prop :=
  match s with
  | a :: _ => isSpace a = false
  | [] => True
  end
  /\ match rev s with
     | a :: _ => isSpace a = false
     | [] => True
     end.

(** A string without the code unit [c]. *)
Definition without (c : jschar) (s : jsstring) : Prop :=
  Forall (fun x => x <> c) s.

(** A cookie as it can be written on a line of the cookie file or between
    separators in the environment variable: not empty, without white space
    around it, without a line feed or a vertical bar, and not a comment. *)
Definition storable (cookie : jsstring) : Prop :=
  cookie <> [] /\ trim cookie = cookie
  /\ without 10%N cookie /\ without 124%N cookie
  /\ startsWith cookie (js "#") = false.

(** A part of a credential: without a semicolon. *)
Definition part (s : jsstring) : Prop := without 59%N s.

End TextSpec.

Module RecordStreamSpec.

Import Transformer Samples TransformerSpec TransformerMoreSpec CollectorSpec.

(** The text of complete records: every line followed by a blank line. *)
Definition records (lines : list jsstring) : jsstring :=
  concat (map (fun l => l ++ blank) lines).

(** The chunk decodes to the complete records [lines]: at least one, none
    with a line feed in it, the whole without the text of the terminal
    marker and within the cap of the buffer. *)
Definition complete_records (chunk : list N) (lines : list jsstring) : Prop :=
  toString_utf8 chunk = records lines
  /\ lines <> []
  /\ Forall no_line_feed lines
  /\ includes (records lines) (js "[DONE]") = false
  /\ (jslength (records lines) <= MAX_BUFFER_SIZE)%N.

(** The line is an image-phase record whose content is the address [url],
    which starts with [https://]. *)
Definition image_line (line url : jsstring) (finished : bool) : Prop :=
  exists d q,
    dataStr_of line = Some d /\ JSON_parse d = Some q
    /\ image_record q url finished.

(** What a record with an empty content pushes: the finishing chunk when it
    carries a finish marker, nothing otherwise. *)
Definition empty_finish (finished : bool) : list frame :=
  if finished then [Chunk (JStr []) true] else [].

(** The text a frame carries: the content of a content chunk when it is a
    string, nothing for every other frame. *)
Definition text_of_frame (f : frame) : jsstring :=
  match f with
  | Chunk (JStr s) _ => s
  | _ => []
  end.

Definition texts (fs : list frame) : jsstring :=
  concat (map text_of_frame fs).

(** The line is [data: ] followed by the JSON text, without white space
    around it, of a record that is not a failure record and in which the
    delta of the first choice has the string [s] as its content. *)
Definition choice_line (line : jsstring) (delta : json) (s : jsstring) : Prop :=
  exists d q choice,
    line = js "data: " ++ d /\ trim d = d
    /\ JSON_parse d = Some q /\ choices_record q choice delta s.

(** An image-phase record whose content is an address that does not start
    with [https://], as a chunk. *)
Definition plain_address : jsstring := js "http://cdn.qwenlm.ai/a.png".

Definition plain_address_record : jsstring :=
  quoted "data: {'choices':[{'delta':{'phase':'image_gen','content':'http://cdn.qwenlm.ai/a.png'}}]}"
  ++ blank.

(** The image-phase record of [image_data], as a line and as a chunk. *)
Definition image_line_sample : jsstring := js "data: " ++ image_data.

Definition image_record_chunk : jsstring := image_line_sample ++ blank.

End RecordStreamSpec.

(* ===================================================================== *)
(** ** [JSON.parse]: the fuel always suffices *)
(* ===================================================================== *)

Module JsonFacts.

Lemma skip_ws_length s : length (skip_ws s) <= length s.
Proof.
  induction s as [| c s IH]; [reflexivity |]. cbn [skip_ws].
  destruct (isJsonSpace c); cbn [length]; lia.
Qed.

Lemma read_digits_length s : forall acc k,
  length (snd (read_digits s acc k)) <= length s.
Proof.
  induction s as [| c s IH]; intros acc k; [reflexivity |]. cbn [read_digits].
  destruct (isDigit c); [specialize (IH (acc * 10 + (c - 48))%N (S k)); cbn [length]; lia | reflexivity].
Qed.

Lemma parse_string_body_rest_bounded n : forall s acc v r,
  length s <= n -> parse_string_body s acc = POk v r -> length r < length s.
Proof.
  induction n as [| n IH]; intros s acc v r Hn H;
    (destruct s as [| c rest]; [discriminate |]); cbn [length] in Hn; [lia |].
  cbn [parse_string_body] in H.
  destruct (N.eqb c 34); [injection H as _ <-; cbn [length]; lia |].
  destruct (N.eqb c 92).
  - destruct rest as [| e rest1]; [discriminate |].
    destruct (N.eqb e 117).
    + destruct rest1 as [| a [| b [| c' [| d rest2]]]]; try discriminate.
      destruct (hex4 a b c' d); [| discriminate].
      apply IH in H; cbn [length] in *; lia.
    + destruct (escape e); [| discriminate].
      apply IH in H; cbn [length] in *; lia.
  - destruct (N.ltb c 32); [discriminate |].
    apply IH in H; cbn [length] in *; lia.
Qed.

Lemma parse_string_body_rest s acc v r :
  parse_string_body s acc = POk v r -> length r < length s.
Proof. apply (parse_string_body_rest_bounded (length s)). lia. Qed.

Lemma parse_string_body_fuel_bounded n : forall s acc,
  length s <= n -> parse_string_body s acc <> PFuel.
Proof.
  induction n as [| n IH]; intros s acc Hn;
    (destruct s as [| c rest]; [discriminate |]); cbn [length] in Hn; [lia |].
  cbn [parse_string_body].
  destruct (N.eqb c 34); [discriminate |].
  destruct (N.eqb c 92).
  - destruct rest as [| e rest1]; [discriminate |].
    destruct (N.eqb e 117).
    + destruct rest1 as [| a [| b [| c' [| d rest2]]]]; try discriminate.
      destruct (hex4 a b c' d); [| discriminate].
      apply IH; cbn [length] in *; lia.
    + destruct (escape e); [| discriminate].
      apply IH; cbn [length] in *; lia.
  - destruct (N.ltb c 32); [discriminate |].
    apply IH; cbn [length] in *; lia.
Qed.

Lemma parse_string_body_fuel s acc : parse_string_body s acc <> PFuel.
Proof. apply (parse_string_body_fuel_bounded (length s)). lia. Qed.

Lemma read_digits_rest s acc k m c r :
  read_digits s acc k = (m, c, r) -> length r <= length s.
Proof. intros H. pose proof (read_digits_length s acc k) as L. rewrite H in L. exact L. Qed.

Lemma read_minus_rest s sign r : read_minus s = (sign, r) -> length r <= length s.
Proof.
  destruct s as [| c s']; cbn [read_minus].
  - intros [= _ <-]. reflexivity.
  - destruct (N.eqb c 45); intros [= _ <-]; cbn [length]; lia.
Qed.

Lemma read_digits_count s : forall acc k m k' r,
  read_digits s acc k = (m, k', r) -> length s + k = length r + k'.
Proof.
  induction s as [| c s IH]; intros acc k m k' r; cbn [read_digits].
  - intros [= _ <- <-]. reflexivity.
  - destruct (isDigit c).
    + intros H. apply IH in H. cbn [length]. lia.
    + intros [= _ <- <-]. reflexivity.
Qed.

Lemma read_int_rest s m r : read_int s = Some (m, r) -> length r < length s.
Proof.
  destruct s as [| c s']; cbn [read_int]; [discriminate |].
  destruct (N.eqb c 48); [intros [= _ <-]; cbn [length]; lia |].
  destruct (read_digits (c :: s') 0 0) as [[m' k] r'] eqn:E.
  destruct k; [discriminate |]. intros [= _ <-].
  apply read_digits_count in E. lia.
Qed.

Lemma read_fraction_rest m s m' fd r :
  read_fraction m s = Some (m', fd, r) -> length r <= length s.
Proof.
  destruct s as [| c s']; cbn [read_fraction]; [intros [= _ _ <-]; reflexivity |].
  destruct (N.eqb c 46); [| intros [= _ _ <-]; reflexivity].
  destruct (read_digits s' m 0) as [[m'' k] r'] eqn:E.
  destruct k; [discriminate |]. intros [= _ _ <-].
  apply read_digits_rest in E. cbn [length]. lia.
Qed.

Lemma read_sign_rest s sign r : read_sign s = (sign, r) -> length r <= length s.
Proof.
  destruct s as [| c s']; cbn [read_sign].
  - intros [= _ <-]. reflexivity.
  - destruct (N.eqb c 45); [intros [= _ <-]; cbn [length]; lia |].
    destruct (N.eqb c 43); intros [= _ <-]; cbn [length]; lia.
Qed.

Lemma read_exponent_rest s e r :
  read_exponent s = Some (e, r) -> length r <= length s.
Proof.
  destruct s as [| c s']; cbn [read_exponent]; [intros [= _ <-]; reflexivity |].
  destruct (N.eqb c 101 || N.eqb c 69); [| intros [= _ <-]; reflexivity].
  destruct (read_sign s') as [negative r1] eqn:Es.
  apply read_sign_rest in Es.
  destruct (read_digits r1 0 0) as [[e' k] r2] eqn:E.
  destruct k; [discriminate |]. intros [= _ <-].
  apply read_digits_rest in E. cbn [length]. lia.
Qed.

Lemma parse_number_fuel s : parse_number s <> PFuel.
Proof.
  unfold parse_number. destruct (read_minus s) as [sign s1].
  destruct (read_int s1) as [[m s2] |]; [| discriminate].
  destruct (read_fraction m s2) as [[[m' fd] s3] |]; [| discriminate].
  destruct (read_exponent s3) as [[e s4] |]; discriminate.
Qed.

Lemma parse_number_rest s v r : parse_number s = POk v r -> length r < length s.
Proof.
  unfold parse_number. destruct (read_minus s) as [sign s1] eqn:E1.
  destruct (read_int s1) as [[m s2] |] eqn:E2; [| discriminate].
  destruct (read_fraction m s2) as [[[m' fd] s3] |] eqn:E3; [| discriminate].
  destruct (read_exponent s3) as [[e s4] |] eqn:E4; [| discriminate].
  intros [= _ <-].
  apply read_minus_rest in E1. apply read_int_rest in E2.
  apply read_fraction_rest in E3. apply read_exponent_rest in E4. lia.
Qed.

Lemma expect_word_rest w v s x r : expect_word w v s = POk x r -> length r <= length s.
Proof.
  unfold expect_word. destruct (startsWith s (js w)); [| discriminate].
  intros [= _ <-]. rewrite length_drop. lia.
Qed.

Lemma expect_word_consumes w v c s x r :
  w <> EmptyString -> expect_word w v (c :: s) = POk x r -> length r < length (c :: s).
Proof.
  intros Hw. unfold expect_word. destruct (startsWith (c :: s) (js w)); [| discriminate].
  intros [= _ <-]. rewrite length_drop. destruct w; [congruence |].
  cbn [String.length length]. lia.
Qed.

Lemma expect_word_fuel w v s : expect_word w v s <> PFuel.
Proof. unfold expect_word. destruct (startsWith s (js w)); discriminate. Qed.

Lemma expect_rest c s r : expect c s = Some r -> length s = S (length r).
Proof.
  destruct s as [| x s']; cbn [expect]; [discriminate |].
  destruct (N.eqb x c); [intros [= <-]; reflexivity | discriminate].
Qed.

(** The rest left by a parser is never longer than its input. *)
Lemma parse_rest fuel :
  (forall s v r, parse_value fuel s = POk v r -> length r <= length s)
  /\ (forall s acc v r, parse_members fuel s acc = POk v r -> length r <= length s)
  /\ (forall s acc v r, parse_elements fuel s acc = POk v r -> length r <= length s).
Proof.
  induction fuel as [| n (IHv & IHm & IHe)]; [repeat split; intros; discriminate |].
  split; [| split].
  - intros s v r. cbn [parse_value]. destruct s as [| c s']; [discriminate |].
    pose proof (skip_ws_length s') as L.
    destruct (N.eqb c 123).
    { destruct (expect 125%N (skip_ws s')) as [r' |] eqn:E.
      - apply expect_rest in E. intros [= _ <-]. cbn [length]. lia.
      - intros H. apply IHm in H. cbn [length]. lia. }
    destruct (N.eqb c 91).
    { destruct (expect 93%N (skip_ws s')) as [r' |] eqn:E.
      - apply expect_rest in E. intros [= _ <-]. cbn [length]. lia.
      - intros H. apply IHe in H. cbn [length]. lia. }
    destruct (N.eqb c 34).
    { destruct (parse_string_body s' []) as [str r' | |] eqn:E; try discriminate.
      apply parse_string_body_rest in E. intros [= _ <-]. cbn [length]. lia. }
    destruct (N.eqb c 116); [apply expect_word_rest |].
    destruct (N.eqb c 102); [apply expect_word_rest |].
    destruct (N.eqb c 110); [apply expect_word_rest |].
    destruct (parse_number (c :: s')) as [num r' | |] eqn:E; try discriminate.
    apply parse_number_rest in E. intros [= _ <-]. lia.
  - intros s acc v r. cbn [parse_members].
    destruct (expect 34%N s) as [r0 |] eqn:E0; [| discriminate].
    apply expect_rest in E0.
    destruct (parse_string_body r0 []) as [key r1 | |] eqn:E1; try discriminate.
    apply parse_string_body_rest in E1.
    pose proof (skip_ws_length r1) as L1.
    destruct (expect 58%N (skip_ws r1)) as [r2 |] eqn:E2; [| discriminate].
    apply expect_rest in E2. pose proof (skip_ws_length r2) as L2.
    destruct (parse_value n (skip_ws r2)) as [x r3 | |] eqn:E3; try discriminate.
    apply IHv in E3. pose proof (skip_ws_length r3) as L3.
    destruct (expect 44%N (skip_ws r3)) as [r4 |] eqn:E4.
    + apply expect_rest in E4. pose proof (skip_ws_length r4) as L4.
      intros H. apply IHm in H. lia.
    + destruct (expect 125%N (skip_ws r3)) as [r4 |] eqn:E5; [| discriminate].
      apply expect_rest in E5. intros [= _ <-]. lia.
  - intros s acc v r. cbn [parse_elements].
    destruct (parse_value n s) as [x r1 | |] eqn:E1; try discriminate.
    apply IHv in E1. pose proof (skip_ws_length r1) as L1.
    destruct (expect 44%N (skip_ws r1)) as [r2 |] eqn:E2.
    + apply expect_rest in E2. pose proof (skip_ws_length r2) as L2.
      intros H. apply IHe in H. lia.
    + destruct (expect 93%N (skip_ws r1)) as [r2 |] eqn:E3; [| discriminate].
      apply expect_rest in E3. intros [= _ <-]. lia.
Qed.

(** A value takes at least one code unit. *)
Lemma parse_value_consumes fuel s v r :
  parse_value fuel s = POk v r -> length r < length s.
Proof.
  destruct fuel as [| n]; [discriminate |].
  destruct (parse_rest n) as (IHv & IHm & IHe).
  cbn [parse_value]. destruct s as [| c s']; [discriminate |].
  pose proof (skip_ws_length s') as L.
  destruct (N.eqb c 123).
  { destruct (expect 125%N (skip_ws s')) as [r' |] eqn:E.
    - apply expect_rest in E. intros [= _ <-]. cbn [length]. lia.
    - intros H. apply IHm in H. cbn [length]. lia. }
  destruct (N.eqb c 91).
  { destruct (expect 93%N (skip_ws s')) as [r' |] eqn:E.
    - apply expect_rest in E. intros [= _ <-]. cbn [length]. lia.
    - intros H. apply IHe in H. cbn [length]. lia. }
  destruct (N.eqb c 34).
  { destruct (parse_string_body s' []) as [str r' | |] eqn:E; try discriminate.
    apply parse_string_body_rest in E. intros [= _ <-]. cbn [length]. lia. }
  destruct (N.eqb c 116); [apply expect_word_consumes; discriminate |].
  destruct (N.eqb c 102); [apply expect_word_consumes; discriminate |].
  destruct (N.eqb c 110); [apply expect_word_consumes; discriminate |].
  destruct (parse_number (c :: s')) as [num r' | |] eqn:E; try discriminate.
  apply parse_number_rest in E. intros [= _ <-]. exact E.
Qed.

(** With fuel above twice the length of the input, no parser runs out. *)
Lemma parse_fuel fuel :
  (forall s, 2 * length s + 1 <= fuel -> parse_value fuel s <> PFuel)
  /\ (forall s acc, 2 * length s + 1 <= fuel -> parse_members fuel s acc <> PFuel)
  /\ (forall s acc, 2 * length s + 2 <= fuel -> parse_elements fuel s acc <> PFuel).
Proof.
  induction fuel as [| n (IHv & IHm & IHe)]; [repeat split; intros; lia |].
  split; [| split].
  - intros s Hn. cbn [parse_value]. destruct s as [| c s']; [discriminate |].
    cbn [length] in Hn. pose proof (skip_ws_length s') as L.
    destruct (N.eqb c 123).
    { destruct (expect 125%N (skip_ws s')); [discriminate | apply IHm; lia]. }
    destruct (N.eqb c 91).
    { destruct (expect 93%N (skip_ws s')); [discriminate | apply IHe; lia]. }
    destruct (N.eqb c 34).
    { pose proof (parse_string_body_fuel s' []).
      destruct (parse_string_body s' []); congruence. }
    destruct (N.eqb c 116); [apply expect_word_fuel |].
    destruct (N.eqb c 102); [apply expect_word_fuel |].
    destruct (N.eqb c 110); [apply expect_word_fuel |].
    pose proof (parse_number_fuel (c :: s')).
    destruct (parse_number (c :: s')); congruence.
  - intros s acc Hn. cbn [parse_members].
    destruct (expect 34%N s) as [r0 |] eqn:E0; [| discriminate].
    apply expect_rest in E0.
    pose proof (parse_string_body_fuel r0 []) as Hf.
    destruct (parse_string_body r0 []) as [key r1 | |] eqn:E1; [| discriminate | congruence].
    apply parse_string_body_rest in E1.
    pose proof (skip_ws_length r1) as L1.
    destruct (expect 58%N (skip_ws r1)) as [r2 |] eqn:E2; [| discriminate].
    apply expect_rest in E2. pose proof (skip_ws_length r2) as L2.
    assert (Hv : parse_value n (skip_ws r2) <> PFuel) by (apply IHv; lia).
    destruct (parse_value n (skip_ws r2)) as [x r3 | |] eqn:E3; [| discriminate | congruence].
    apply parse_value_consumes in E3. pose proof (skip_ws_length r3) as L3.
    destruct (expect 44%N (skip_ws r3)) as [r4 |] eqn:E4.
    + apply expect_rest in E4. pose proof (skip_ws_length r4) as L4.
      apply IHm. lia.
    + destruct (expect 125%N (skip_ws r3)); discriminate.
  - intros s acc Hn. cbn [parse_elements].
    assert (Hv : parse_value n s <> PFuel) by (apply IHv; lia).
    destruct (parse_value n s) as [x r1 | |] eqn:E1; [| discriminate | congruence].
    apply parse_value_consumes in E1. pose proof (skip_ws_length r1) as L1.
    destruct (expect 44%N (skip_ws r1)) as [r2 |] eqn:E2.
    + apply expect_rest in E2. pose proof (skip_ws_length r2) as L2.
      apply IHe. lia.
    + destruct (expect 93%N (skip_ws r1)); discriminate.
Qed.

(** [JSON_parse] never gives up for lack of fuel: [None] is a syntax error. *)
Lemma JSON_parse_has_fuel text :
  parse_value (fuel_for text) (skip_ws text) <> PFuel.
Proof.
  apply (parse_fuel (fuel_for text)). unfold fuel_for.
  pose proof (skip_ws_length text). lia.
Qed.

End JsonFacts.

(* ===================================================================== *)
(** ** The identity pool: failure accounting and selection *)
(* ===================================================================== *)

Module PoolFacts.

Import IdentityPool Samples PoolSpec.

Lemma status_eqb_eq a b : status_eqb a b = true <-> a = b.
Proof. destruct a, b; simpl; split; intros H; congruence. Qed.

Lemma status_eqb_neq a b : status_eqb a b = false <-> a <> b.
Proof. destruct a, b; simpl; split; intros H; congruence. Qed.

Lemma markFailure_failCount error now i :
  failCount (markFailure error now i) = (failCount i + 1)%Z.
Proof.
  unfold markFailure.
  destruct (5 <=? failCount i + 1)%Z; [reflexivity |].
  destruct (3 <=? failCount i + 1)%Z; reflexivity.
Qed.

Lemma markFailure_status error now i :
  status (markFailure error now i) =
    if (5 <=? failCount i + 1)%Z then DOWN
    else if (3 <=? failCount i + 1)%Z then DEGRADED
    else status i.
Proof.
  unfold markFailure.
  destruct (5 <=? failCount i + 1)%Z; [reflexivity |].
  destruct (3 <=? failCount i + 1)%Z; reflexivity.
Qed.

Lemma markFailure_nextRetryAt error now i :
  nextRetryAt (markFailure error now i) =
    if (5 <=? failCount i + 1)%Z then Some (now + 300000)%Z
    else if (3 <=? failCount i + 1)%Z then Some (now + 120000)%Z
    else nextRetryAt i.
Proof.
  unfold markFailure.
  destruct (5 <=? failCount i + 1)%Z; [reflexivity |].
  destruct (3 <=? failCount i + 1)%Z; reflexivity.
Qed.

Lemma markSuccess_failCount jwt_exp now i :
  failCount (markSuccess jwt_exp now i) =
    if (0 <? failCount i)%Z then (failCount i - 1)%Z else failCount i.
Proof.
  unfold markSuccess.
  match goal with |- context [if ?c && ?d then _ else _] => destruct (c && d) end;
    simpl; destruct (0 <? failCount i)%Z eqn:E; try reflexivity;
    apply Z.ltb_lt in E; lia.
Qed.

Lemma markSuccess_status jwt_exp now i :
  status (markSuccess jwt_exp now i) =
    if negb (status_eqb (status i) HEALTHY) && isAvailable jwt_exp i now
    then HEALTHY else status i.
Proof.
  unfold markSuccess. cbn [status nextRetryAt].
  replace (isAvailable jwt_exp _ now) with (isAvailable jwt_exp i now)
    by reflexivity.
  destruct (negb (status_eqb (status i) HEALTHY) && isAvailable jwt_exp i now);
    reflexivity.
Qed.

Lemma isAvailable_down jwt_exp i now :
  status i = DOWN -> isAvailable jwt_exp i now = false.
Proof. intros H. unfold isAvailable. rewrite H. reflexivity. Qed.

(** The predicate of [isAvailable], clause by clause. *)
Lemma isAvailable_spec jwt_exp i now :
  isAvailable jwt_exp i now = true <->
  status i <> DOWN /\ cooled_down i now /\ holds_valid_token jwt_exp i now.
Proof.
  unfold isAvailable, cooled_down, holds_valid_token.
  destruct (status_eqb (status i) DOWN) eqn:Hs.
  { apply status_eqb_eq in Hs. split; [discriminate | tauto]. }
  apply status_eqb_neq in Hs.
  destruct (nextRetryAt i) as [t |] eqn:Hr; simpl.
  - destruct (t =? 0)%Z eqn:Ht; simpl.
    + apply Z.eqb_eq in Ht. subst t.
      destruct (token i) as [tok |] eqn:Htok; simpl.
      * destruct tok as [| c tok']; simpl.
        -- split; [discriminate |]. intros (_ & _ & x & Hx & Hne & _).
           congruence.
        -- destruct (isTokenExpired jwt_exp (c :: tok') now) eqn:He; simpl.
           ++ split; [discriminate |]. intros (_ & _ & x & Hx & _ & Hx').
              congruence.
           ++ split; [| reflexivity]. intros _. split; [assumption |].
              split; [intros t Ht Hne; congruence |].
              exists (c :: tok'). split; [reflexivity |]. split; [discriminate | assumption].
      * split; [discriminate |]. intros (_ & _ & x & Hx & _). discriminate.
    + apply Z.eqb_neq in Ht.
      destruct (now <? t)%Z eqn:Hlt; simpl.
      * apply Z.ltb_lt in Hlt. split; [discriminate |].
        intros (_ & Hc & _). specialize (Hc t eq_refl Ht). lia.
      * apply Z.ltb_ge in Hlt.
        destruct (token i) as [tok |] eqn:Htok; simpl.
        -- destruct tok as [| c tok']; simpl.
           ++ split; [discriminate |]. intros (_ & _ & x & Hx & Hne & _).
              congruence.
           ++ destruct (isTokenExpired jwt_exp (c :: tok') now) eqn:He; simpl.
              ** split; [discriminate |]. intros (_ & _ & x & Hx & _ & Hx').
                 congruence.
              ** split; [| reflexivity]. intros _. split; [assumption |].
                 split; [intros t' Ht' Hne; congruence |].
                 exists (c :: tok'). split; [reflexivity |].
                 split; [discriminate | assumption].
        -- split; [discriminate |]. intros (_ & _ & x & Hx & _). discriminate.
  - destruct (token i) as [tok |] eqn:Htok; simpl.
    + destruct tok as [| c tok']; simpl.
      * split; [discriminate |]. intros (_ & _ & x & Hx & Hne & _). congruence.
      * destruct (isTokenExpired jwt_exp (c :: tok') now) eqn:He; simpl.
        -- split; [discriminate |]. intros (_ & _ & x & Hx & _ & Hx').
           congruence.
        -- split; [| reflexivity]. intros _. split; [assumption |].
           split; [intros t Ht; discriminate |].
           exists (c :: tok'). split; [reflexivity |].
           split; [discriminate | assumption].
    + split; [discriminate |]. intros (_ & _ & x & Hx & _). discriminate.
Qed.


Lemma refs_where_elem (p : Identity -> bool) (ids : list Identity) :
  forall first r,
    r ∈ refs_where p first ids <->
    first <= r /\ exists i, ids !! (r - first) = Some i /\ p i = true.
Proof.
  induction ids as [| x rest IH]; intros first r; simpl.
  - split.
    + intros H. inversion H.
    + intros (_ & i & Hi & _). discriminate.
  - assert (Hrest :
      r ∈ refs_where p (S first) rest <->
      first < r /\ exists i, (x :: rest) !! (r - first) = Some i /\ p i = true).
    { rewrite IH. split.
      - intros (Hle & i & Hi & Hp). split; [lia |]. exists i. split; [| exact Hp].
        replace (r - first) with (S (r - S first)) by lia. exact Hi.
      - intros (Hlt & i & Hi & Hp). split; [lia |]. exists i. split; [| exact Hp].
        replace (r - first) with (S (r - S first)) in Hi by lia. exact Hi. }
    destruct (p x) eqn:Hx.
    + rewrite elem_of_cons, Hrest. split.
      * intros [-> | (Hlt & Hex)].
        -- split; [lia |]. exists x. rewrite Nat.sub_diag. auto.
        -- split; [lia | exact Hex].
      * intros (Hle & i & Hi & Hp).
        destruct (decide (r = first)) as [-> | Hne]; [left; reflexivity |].
        right. split; [lia |]. eauto.
    + rewrite Hrest. split.
      * intros (Hlt & Hex). split; [lia | exact Hex].
      * intros (Hle & i & Hi & Hp).
        destruct (decide (r = first)) as [-> | Hne].
        -- rewrite Nat.sub_diag in Hi. simpl in Hi. congruence.
        -- split; [lia |]. eauto.
Qed.

Lemma refs_where_0 (p : Identity -> bool) (ids : list Identity) r :
  r ∈ refs_where p 0 ids <-> exists i, ids !! r = Some i /\ p i = true.
Proof.
  rewrite refs_where_elem, Nat.sub_0_r. split.
  - intros (_ & H). exact H.
  - intros H. split; [lia | exact H].
Qed.

Lemma refs_where_nil (p : Identity -> bool) (ids : list Identity) :
  refs_where p 0 ids = [] <-> forall i, i ∈ ids -> p i = false.
Proof.
  split.
  - intros Hnil i Hi. apply list_elem_of_lookup in Hi as [r Hr].
    destruct (p i) eqn:Hp; [| reflexivity].
    assert (r ∈ refs_where p 0 ids) as Hin by (apply refs_where_0; eauto).
    rewrite Hnil in Hin. inversion Hin.
  - intros Hall. destruct (refs_where p 0 ids) as [| r l] eqn:E; [reflexivity |].
    assert (r ∈ refs_where p 0 ids) as Hin by (rewrite E; left).
    apply refs_where_0 in Hin as (i & Hi & Hp).
    rewrite Hall in Hp; [discriminate |].
    apply list_elem_of_lookup. eauto.
Qed.

Lemma lookup_mod_some (l : list nat) (c : nat) :
  l <> [] -> exists r, l !! (c mod length l) = Some r.
Proof.
  intros Hne. apply lookup_lt_is_Some.
  apply Nat.mod_upper_bound. destruct l; [congruence | simpl; lia].
Qed.

Lemma available_selected
      (jwt_exp : jsstring -> option Z) (p : Pool) (now : Z) :
  refs_where (fun i => isAvailable jwt_exp i now) 0 (identities p) <> [] ->
  exists r,
    refs_where (fun i => isAvailable jwt_exp i now) 0 (identities p)
      !! (currentIndex p mod
          length (refs_where (fun i => isAvailable jwt_exp i now) 0 (identities p)))
    = Some r
    /\ getAvailableIdentity jwt_exp p now =
       (Some r,
        mkPool (identities p)
          ((currentIndex p + 1) mod
           length (refs_where (fun i => isAvailable jwt_exp i now) 0 (identities p)))
          (initialized p)).
Proof.
  intros Hne. destruct (lookup_mod_some _ (currentIndex p) Hne) as [r Hr].
  exists r. split; [exact Hr |]. unfold getAvailableIdentity.
  destruct (identities p) as [| x rest] eqn:Hids; [simpl in Hne; congruence |].
  destruct (refs_where (fun i => isAvailable jwt_exp i now) 0 (x :: rest))
    as [| a l] eqn:Hav; [congruence |].
  rewrite Hr. reflexivity.
Qed.

(** C3. One call of [markFailure] adds exactly one to [failCount]; a
    resulting count of 3 or 4 sets the status to Degraded with a cool-down of
    two minutes, a resulting count of 5 or more sets it to Down with a
    cool-down of five minutes; the transition leaves the counter alone, and
    among the methods of an identity only [markSuccess] lowers the counter
    (by one, never below zero). *)
Theorem C3_markFailure_counts_and_thresholds
        (error : option jsstring) (now : Z) (i : Identity) :
  let i' := markFailure error now i in
  failCount i' = (failCount i + 1)%Z
  /\ ((3 <= failCount i' < 5)%Z ->
      status i' = DEGRADED /\ nextRetryAt i' = Some (now + 2 * 60 * 1000)%Z)
  /\ ((5 <= failCount i')%Z ->
      status i' = DOWN /\ nextRetryAt i' = Some (now + 5 * 60 * 1000)%Z)
  /\ (forall jwt_exp (o : op) (t : Z) (j : Identity),
        (failCount (apply_op jwt_exp o t j) < failCount j)%Z -> o = MarkSuccess)
  /\ (forall jwt_exp (t : Z) (j : Identity),
        (0 <= failCount j)%Z ->
        failCount (markSuccess jwt_exp t j) = Z.max 0 (failCount j - 1)).
Proof.
  cbv zeta. rewrite markFailure_failCount, markFailure_status, markFailure_nextRetryAt.
  split; [reflexivity |]. split; [| split; [| split]].
  - intros [H3 H5].
    destruct (5 <=? failCount i + 1)%Z eqn:E5; [apply Z.leb_le in E5; lia |].
    destruct (3 <=? failCount i + 1)%Z eqn:E3; [| apply Z.leb_gt in E3; lia].
    split; reflexivity.
  - intros H5.
    destruct (5 <=? failCount i + 1)%Z eqn:E5; [| apply Z.leb_gt in E5; lia].
    split; reflexivity.
  - intros jwt_exp o t j Hlt. destruct o as [e | | tok |]; simpl in Hlt.
    + rewrite markFailure_failCount in Hlt. lia.
    + reflexivity.
    + lia.
    + lia.
  - intros jwt_exp t j Hj. rewrite markSuccess_failCount.
    destruct (0 <? failCount j)%Z eqn:E.
    + apply Z.ltb_lt in E. lia.
    + apply Z.ltb_ge in E. lia.
Qed.

(** C3, at an identity with two recorded failures (the third one degrades
    it) and at one with four (the fifth one takes it down). *)
Lemma C3_witness :
  let i2 := apply_ops expires_2100 (repeat_op 2 (MarkFailure None) t0) holder in
  let i4 := apply_ops expires_2100 (repeat_op 4 (MarkFailure None) t0) holder in
  (status (markFailure None t0 i2) = DEGRADED
   /\ nextRetryAt (markFailure None t0 i2) = Some (t0 + 120000)%Z)
  /\ (status (markFailure None t0 i4) = DOWN
      /\ nextRetryAt (markFailure None t0 i4) = Some (t0 + 300000)%Z).
Proof.
  split.
  - apply (C3_markFailure_counts_and_thresholds None t0
             (apply_ops expires_2100 (repeat_op 2 (MarkFailure None) t0) holder)).
    vm_compute. split; [discriminate | reflexivity].
  - apply (C3_markFailure_counts_and_thresholds None t0
             (apply_ops expires_2100 (repeat_op 4 (MarkFailure None) t0) holder)).
    vm_compute. discriminate.
Defined.



Lemma refs_where_pair (p : Identity -> bool) (a b : Identity) :
  p a = true -> p b = true -> refs_where p 0 [a; b] = [0; 1].
Proof. intros Ha Hb. simpl. rewrite Ha, Hb. reflexivity. Qed.

Lemma select_of_two jwt_exp (a b : Identity) (now : Z) (cursor : nat) (init : bool) :
  isAvailable jwt_exp a now = true ->
  isAvailable jwt_exp b now = true ->
  getAvailableIdentity jwt_exp (mkPool [a; b] cursor init) now =
    (Some (cursor mod 2), mkPool [a; b] ((cursor + 1) mod 2) init).
Proof.
  intros Ha Hb. unfold getAvailableIdentity. cbn [identities currentIndex initialized].
  rewrite (refs_where_pair (fun i => isAvailable jwt_exp i now) a b Ha Hb).
  cbn [length].
  pose proof (Nat.mod_upper_bound cursor 2 ltac:(lia)) as Hlt.
  destruct (cursor mod 2) as [| [| n]] eqn:E; [reflexivity | reflexivity | lia].
Qed.

(** C8. A pool of exactly two identities, both available at each of four
    consecutive calls of [getAvailableIdentity] (their other fields may
    change between the calls): the calls return the two identities in strict
    alternation, the first and third the same one, the second and fourth the
    other one; from the index 0 of a fresh pool the order is first, second,
    first, second. *)
Theorem C8_round_robin_alternates
        (jwt_exp : jsstring -> option Z)
        (a1 b1 a2 b2 a3 b3 a4 b4 : Identity) (t1 t2 t3 t4 : Z)
        (cursor : nat) (init : bool) :
  isAvailable jwt_exp a1 t1 = true -> isAvailable jwt_exp b1 t1 = true ->
  isAvailable jwt_exp a2 t2 = true -> isAvailable jwt_exp b2 t2 = true ->
  isAvailable jwt_exp a3 t3 = true -> isAvailable jwt_exp b3 t3 = true ->
  isAvailable jwt_exp a4 t4 = true -> isAvailable jwt_exp b4 t4 = true ->
  let call ids p t :=
    getAvailableIdentity jwt_exp (mkPool ids (currentIndex p) init) t in
  let c1 := getAvailableIdentity jwt_exp (mkPool [a1; b1] cursor init) t1 in
  let c2 := call [a2; b2] (snd c1) t2 in
  let c3 := call [a3; b3] (snd c2) t3 in
  let c4 := call [a4; b4] (snd c3) t4 in
  exists A B : nat,
    A <> B /\ A < 2 /\ B < 2 /\ A = cursor mod 2
    /\ fst c1 = Some A /\ fst c2 = Some B /\ fst c3 = Some A /\ fst c4 = Some B.
Proof.
  intros Ha1 Hb1 Ha2 Hb2 Ha3 Hb3 Ha4 Hb4. cbv zeta.
  rewrite (select_of_two jwt_exp a1 b1 t1 cursor init Ha1 Hb1).
  cbn [snd currentIndex fst].
  rewrite (select_of_two jwt_exp a2 b2 t2 _ init Ha2 Hb2).
  cbn [snd currentIndex fst].
  rewrite (select_of_two jwt_exp a3 b3 t3 _ init Ha3 Hb3).
  cbn [snd currentIndex fst].
  rewrite (select_of_two jwt_exp a4 b4 t4 _ init Ha4 Hb4).
  cbn [snd currentIndex fst].
  assert (H1 : (cursor + 1) mod 2 = 1 - cursor mod 2).
  { pose proof (Nat.mod_upper_bound cursor 2 ltac:(lia)) as Hlt.
    rewrite Nat.Div0.add_mod.
    destruct (cursor mod 2) as [| [| n]]; [reflexivity | reflexivity | lia]. }
  assert (H2 : ((cursor + 1) mod 2 + 1) mod 2 = cursor mod 2).
  { pose proof (Nat.mod_upper_bound cursor 2 ltac:(lia)) as Hlt.
    rewrite H1. destruct (cursor mod 2) as [| [| n]]; [reflexivity | reflexivity | lia]. }
  assert (H3 : (cursor mod 2 + 1) mod 2 = 1 - cursor mod 2).
  { pose proof (Nat.mod_upper_bound cursor 2 ltac:(lia)) as Hlt.
    destruct (cursor mod 2) as [| [| n]]; [reflexivity | reflexivity | lia]. }
  rewrite ?H2, ?H1, ?H3, ?H2.
  pose proof (Nat.mod_upper_bound cursor 2 ltac:(lia)) as Hlt.
  exists (cursor mod 2), (1 - cursor mod 2).
  generalize dependent (cursor mod 2). intros m _ _ _ Hm.
  destruct m as [| [| n]]; [| | lia]; repeat split; auto.
Qed.

(** C8, on a fresh pool of two identities that hold valid tokens. *)
Lemma C8_witness :
  exists A B : nat,
    A <> B /\ A < 2 /\ B < 2 /\ A = 0 mod 2
    /\ fst (getAvailableIdentity expires_2100 (mkPool [holder; holder] 0 true) t0) = Some A
    /\ fst (getAvailableIdentity expires_2100 (mkPool [holder; holder] 1 true) t0) = Some B
    /\ fst (getAvailableIdentity expires_2100 (mkPool [holder; holder] 0 true) t0) = Some A
    /\ fst (getAvailableIdentity expires_2100 (mkPool [holder; holder] 1 true) t0) = Some B.
Proof.
  exact (C8_round_robin_alternates expires_2100
           holder holder holder holder holder holder holder holder
           t0 t0 t0 t0 0 true
           eq_refl eq_refl eq_refl eq_refl eq_refl eq_refl eq_refl eq_refl).
Defined.

Lemma updateToken_status jwt_exp tok i :
  status (updateToken jwt_exp tok i) = status i.
Proof. reflexivity. Qed.

Lemma getAvailableIdentity_identities jwt_exp p now :
  identities (snd (getAvailableIdentity jwt_exp p now)) = identities p.
Proof.
  unfold getAvailableIdentity.
  destruct (identities p) as [| x rest] eqn:E; [simpl; congruence |].
  destruct (refs_where (fun i => isAvailable jwt_exp i now) 0 (x :: rest)).
  - destruct (refs_where (fun i => truthy_token (token i)) 0 (x :: rest));
      simpl; congruence.
  - reflexivity.
Qed.

(** C5, as stated, fails: after five failures and five successes an
    identity is Down with a counter of zero, while a new identity is Healthy
    with the same counter, at the same time. *)
Lemma C5_counterexample : ~ status_is_function_of_counter_and_time.
Proof.
  intros [f Hf].
  pose proof (Hf expires_2100 (js "identity-1") (js "cookie-A") [] t0) as Hnew.
  pose proof (Hf expires_2100 (js "identity-1") (js "cookie-A")
                 (five_failures ++ repeat_op 5 MarkSuccess t0) t0) as Hold.
  cbv zeta in Hnew, Hold.
  change (failCount _) with 0%Z in Hnew.
  change (status _) with HEALTHY in Hnew.
  assert (Hc : failCount (apply_ops expires_2100
                 (five_failures ++ repeat_op 5 MarkSuccess t0)
                 (new_Identity (js "identity-1") (js "cookie-A"))) = 0%Z)
    by (vm_compute; reflexivity).
  assert (Hs : status (apply_ops expires_2100
                 (five_failures ++ repeat_op 5 MarkSuccess t0)
                 (new_Identity (js "identity-1") (js "cookie-A"))) = DOWN)
    by (vm_compute; reflexivity).
  rewrite Hc, Hs in Hold. congruence.
Qed.

(** C5, amended. [status] is a stored field. [markFailure] assigns it from
    the resulting counter when that is at least 3 (Degraded below 5, Down
    from 5 on) and leaves it as stored below 3; [markSuccess] assigns
    Healthy, and only when the stored status is not Healthy and the identity
    is available, otherwise it leaves the field as stored; [updateToken],
    [isAvailable] and selection leave it as stored; and [initialize] assigns
    Degraded to an identity whose first token exchange fails, whose counter is
    then 1. *)
Theorem C5_status_is_a_stored_field
        (jwt_exp : jsstring -> option Z) (i : Identity) (now : Z) :
  (forall error,
      status (markFailure error now i) =
        if (5 <=? failCount i + 1)%Z then DOWN
        else if (3 <=? failCount i + 1)%Z then DEGRADED
        else status i)
  /\ status (markSuccess jwt_exp now i) =
       (if negb (status_eqb (status i) HEALTHY) && isAvailable jwt_exp i now
        then HEALTHY else status i)
  /\ (forall tok, status (updateToken jwt_exp tok i) = status i)
  /\ status (apply_op jwt_exp IsAvailable now i) = status i
  /\ (forall p, identities (snd (getAvailableIdentity jwt_exp p now)) = identities p)
  /\ (forall name cookie error,
        let failed := init_identity jwt_exp name cookie (ExchangeFailed error) now in
        status failed = DEGRADED /\ failCount failed = 1%Z).
Proof.
  split; [| split; [| split; [| split; [| split]]]].
  - intros error. apply markFailure_status.
  - apply markSuccess_status.
  - intros tok. reflexivity.
  - reflexivity.
  - intros p. apply getAvailableIdentity_identities.
  - intros name cookie error. split; reflexivity.
Qed.

(** C10, as stated, fails: an identity taken Down by five failures, then
    credited two successes, is set to Degraded by the next failure (the
    counter is then 4), and two minutes later [isAvailable] holds again and
    selection returns it in the ordinary round-robin branch. *)
Lemma C10_counterexample :
  let was_down := apply_ops expires_2100 five_failures holder in
  let later := apply_ops expires_2100 recovery holder in
  status was_down = DOWN
  /\ status later = DEGRADED
  /\ isAvailable expires_2100 later (t0 + 200000) = true
  /\ getAvailableIdentity expires_2100
       (mkPool [later; new_Identity (js "identity-2") (js "cookie-B")] 0 true)
       (t0 + 200000)
     = (Some 0,
        mkPool [later; new_Identity (js "identity-2") (js "cookie-B")] 0 true).
Proof.
  cbv zeta. split; [| split; [| split]]; vm_compute; reflexivity.
Qed.

Lemma isAvailable_cooling jwt_exp (i : Identity) (t now : Z) :
  nextRetryAt i = Some t -> t <> 0%Z -> (now < t)%Z ->
  isAvailable jwt_exp i now = false.
Proof.
  intros Ht Hne Hnow. unfold isAvailable.
  destruct (status_eqb (status i) DOWN); [reflexivity |].
  rewrite Ht. cbn [truthy_time default from_option]. unfold Datatypes.id.
  destruct (Z.eqb_spec t 0) as [E | _]; [contradiction |].
  destruct (Z.ltb_spec now t) as [_ | E]; [reflexivity | lia].
Qed.

Lemma markSuccess_keeps_cooling jwt_exp (i : Identity) (t now : Z) :
  nextRetryAt i = Some t -> t <> 0%Z -> (now < t)%Z ->
  status (markSuccess jwt_exp now i) = status i
  /\ nextRetryAt (markSuccess jwt_exp now i) = Some t.
Proof.
  intros Ht Hne Hnow. unfold markSuccess. cbv zeta.
  match goal with
  | |- context [isAvailable jwt_exp ?x now] =>
      assert (isAvailable jwt_exp x now = false) as ->
        by (apply (isAvailable_cooling jwt_exp x t now); assumption)
  end.
  rewrite andb_false_r. cbn [status nextRetryAt]. split; [reflexivity | exact Ht].
Qed.

Lemma apply_ops_keeps_cooling jwt_exp (t : Z) (history : list (op * Z)) :
  t <> 0%Z ->
  Forall (fun ot => (forall error, fst ot <> MarkFailure error) /\ (snd ot < t)%Z)
         history ->
  forall i, nextRetryAt i = Some t ->
            status (apply_ops jwt_exp history i) = status i
            /\ nextRetryAt (apply_ops jwt_exp history i) = Some t.
Proof.
  intros Hne. induction 1 as [| [o now] rest [Ho Hnow] _ IH]; intros i Ht;
    cbn [apply_ops]; [split; [reflexivity | exact Ht] |].
  cbn [fst snd] in Ho, Hnow.
  destruct o as [e | | tok |]; cbn [apply_op].
  - exfalso. apply (Ho e). reflexivity.
  - destruct (markSuccess_keeps_cooling jwt_exp i t now Ht Hne Hnow) as [Hs Hr].
    destruct (IH _ Hr) as [Hs' Hr']. split; [congruence | exact Hr'].
  - apply (IH (updateToken jwt_exp tok i)). exact Ht.
  - apply IH. exact Ht.
Qed.

(** C10, amended. [markFailure] sets an identity Down when the resulting
    counter is 5 or more, with [nextRetryAt] five minutes later. For a Down
    identity within that cool-down: [isAvailable] is false; [markSuccess]
    and [updateToken] called during the cool-down leave the status Down and
    [nextRetryAt] as it is, so successes do not make the identity available
    before the cool-down ends; and a selection that returns it found no
    identity available, that is, it went through the fallback branch.
    [markSuccess] sets Healthy only where [isAvailable] already holds. Down
    is not final: [markFailure] on a Down identity sets Degraded when the
    resulting counter is 3 or 4. *)
Theorem C10_down_identity_within_its_cool_down
        (jwt_exp : jsstring -> option Z) (i : Identity) (t : Z) :
  status i = DOWN -> nextRetryAt i = Some t -> t <> 0%Z ->
  (forall now, (now < t)%Z -> isAvailable jwt_exp i now = false)
  /\ (forall history,
        Forall (fun ot => (forall error, fst ot <> MarkFailure error)
                          /\ (snd ot < t)%Z) history ->
        let i' := apply_ops jwt_exp history i in
        status i' = DOWN /\ nextRetryAt i' = Some t
        /\ forall now, (now < t)%Z -> isAvailable jwt_exp i' now = false)
  /\ (forall p r now, (now < t)%Z ->
        identities p !! r = Some i ->
        fst (getAvailableIdentity jwt_exp p now) = Some r ->
        refs_where (fun j => isAvailable jwt_exp j now) 0 (identities p) = [])
  /\ (forall error now,
        status (markFailure error now i) =
          if (3 <=? failCount i + 1)%Z && (failCount i + 1 <? 5)%Z
          then DEGRADED else DOWN)
  /\ (forall j now,
        status (markSuccess jwt_exp now j) = HEALTHY ->
        status j = HEALTHY \/ isAvailable jwt_exp j now = true)
  /\ (forall j error now, (5 <= failCount j + 1)%Z ->
        status (markFailure error now j) = DOWN
        /\ nextRetryAt (markFailure error now j) = Some (now + 5 * 60 * 1000)%Z).
Proof.
  intros Hdown Ht Hne. split; [| split; [| split; [| split; [| split]]]].
  - intros now Hnow. apply (isAvailable_cooling jwt_exp i t now); assumption.
  - intros history Hh. cbv zeta.
    destruct (apply_ops_keeps_cooling jwt_exp t history Hne Hh i Ht) as [Hs Hr].
    split; [congruence |]. split; [exact Hr |].
    intros now Hnow. apply (isAvailable_cooling jwt_exp _ t now); assumption.
  - intros p r now Hnow Hr Hsel.
    destruct (refs_where (fun j => isAvailable jwt_exp j now) 0 (identities p))
      as [| a l] eqn:Hav; [reflexivity |]. exfalso.
    destruct (available_selected jwt_exp p now) as [r' [Hr' Hget]];
      [rewrite Hav; discriminate |].
    rewrite Hget in Hsel. cbn [fst] in Hsel. injection Hsel as <-.
    apply list_elem_of_lookup_2 in Hr'.
    apply refs_where_0 in Hr' as (j & Hj & Ha).
    rewrite Hr in Hj. injection Hj as <-.
    rewrite (isAvailable_cooling jwt_exp i t now Ht Hne Hnow) in Ha. discriminate.
  - intros error now. rewrite markFailure_status, Hdown.
    destruct (5 <=? failCount i + 1)%Z eqn:E5;
      destruct (3 <=? failCount i + 1)%Z eqn:E3;
      destruct (failCount i + 1 <? 5)%Z eqn:E; try reflexivity;
      repeat match goal with
             | H : (_ <=? _)%Z = true |- _ => apply Z.leb_le in H
             | H : (_ <=? _)%Z = false |- _ => apply Z.leb_gt in H
             | H : (_ <? _)%Z = true |- _ => apply Z.ltb_lt in H
             | H : (_ <? _)%Z = false |- _ => apply Z.ltb_ge in H
             end; lia.
  - intros j now. rewrite markSuccess_status.
    destruct (status_eqb (status j) HEALTHY) eqn:Eh.
    + intros _. left. apply status_eqb_eq. exact Eh.
    + cbn [negb andb]. destruct (isAvailable jwt_exp j now); [right; reflexivity |].
      intros H. apply status_eqb_neq in Eh. contradiction.
  - intros j error now H5. split.
    + rewrite markFailure_status. apply Z.leb_le in H5. rewrite H5. reflexivity.
    + rewrite markFailure_nextRetryAt. apply Z.leb_le in H5. rewrite H5. reflexivity.
Qed.

(** C10 amended, at the identity taken Down by five failures: a minute
    later, within its cool-down, it is unavailable, and a success then
    leaves it Down. *)
Lemma C10_witness :
  isAvailable expires_2100 (apply_ops expires_2100 five_failures holder)
    (t0 + 60000) = false
  /\ status (apply_ops expires_2100 [(MarkSuccess, t0 + 60000)%Z]
               (apply_ops expires_2100 five_failures holder)) = DOWN.
Proof.
  pose proof (C10_down_identity_within_its_cool_down expires_2100
                (apply_ops expires_2100 five_failures holder)
                (t0 + 5 * 60 * 1000) eq_refl eq_refl ltac:(discriminate))
    as (Hcool & Hhistory & _).
  split.
  - apply Hcool. unfold t0. lia.
  - apply (Hhistory [(MarkSuccess, t0 + 60000)%Z]).
    constructor; [| constructor]. split; [discriminate | cbn [snd]; unfold t0; lia].
Defined.

End PoolFacts.

(* ===================================================================== *)
(** ** The stream transformer *)
(* ===================================================================== *)

Module TransformerFacts.

Import Transformer Samples TransformerSpec.

Lemma eqb_eq (s t : jsstring) : eqb s t = true <-> s = t.
Proof.
  revert t. induction s as [| a s IH]; intros [| b t]; simpl;
    try (split; [discriminate | congruence]); [tauto |].
  rewrite andb_true_iff, N.eqb_eq, IH. split.
  - intros [-> ->]. reflexivity.
  - intros H. injection H as -> ->. split; reflexivity.
Qed.

Lemma done_is_not_json : JSON_parse (js "[DONE]") = None.
Proof. vm_compute. reflexivity. Qed.

Lemma toString_utf8_ascii_step (bytes : list N) :
  Forall (fun b => (b < 128)%N) bytes ->
  concat (map utf16_units (utf8_code_points bytes 0 0 128 191)) = bytes.
Proof.
  induction 1 as [| b rest Hb Hrest IH]; [reflexivity |].
  cbn [utf8_code_points]. apply N.ltb_lt in Hb. rewrite Hb.
  cbn [map concat]. rewrite IH. unfold utf16_units.
  apply N.ltb_lt in Hb.
  destruct (N.ltb_spec b 65536) as [_ | Hge]; [reflexivity | lia].
Qed.

(** Decoding ASCII bytes gives the same numbers: one code unit per byte. *)
Lemma toString_utf8_ascii (bytes : list N) :
  Forall (fun b => (b < 128)%N) bytes -> toString_utf8 bytes = bytes.
Proof. apply toString_utf8_ascii_step. Qed.

(** C7, as stated, fails: the cap is not on bytes. A first chunk of 50001
    two-byte characters, 100002 bytes without a record delimiter, decodes to
    50001 code units; it pushes no frame but the buffer is kept, not
    discarded. *)
Lemma C7_counterexample :
  jslength two_byte_chunk = 100002%N
  /\ snd (transform initial two_byte_chunk) = []
  /\ jslength (buffer (fst (transform initial two_byte_chunk))) = 50001%N.
Proof. repeat split; vm_compute; reflexivity. Qed.

(** C7, amended. The cap is on the length of the decoded text, counted in
    UTF-16 code units (for ASCII text, one per byte). When the buffer with the
    decoded chunk appended is longer than 100000, [transform] empties the
    buffer, pushes no frame and returns normally, keeping the set of URLs; the
    chunks that follow are processed from the empty buffer. *)
Theorem C7_buffer_overflow_is_dropped
        (st : state) (chunk : list N) (later : list (list N)) :
  (MAX_BUFFER_SIZE < jslength (buffer st ++ toString_utf8 chunk))%N ->
  transform st chunk = (mkState [] (sentImageUrls st), [])
  /\ run st (chunk :: later) = run (mkState [] (sentImageUrls st)) later
  /\ (Forall (fun b => (b < 128)%N) chunk -> toString_utf8 chunk = chunk).
Proof.
  intros Hlen.
  assert (Ht : transform st chunk = (mkState [] (sentImageUrls st), [])).
  { unfold transform, transform_raw. apply N.ltb_lt in Hlen. rewrite Hlen. reflexivity. }
  split; [exact Ht |]. split; [| apply toString_utf8_ascii].
  cbn [run]. rewrite Ht.
  destruct (run (mkState [] (sentImageUrls st)) later) as [st2 out2].
  reflexivity.
Qed.

(** C7 amended, at a first chunk of 100001 ASCII bytes and no record
    delimiter. *)
Lemma C7_witness :
  transform initial oversized = (mkState [] ∅, [])
  /\ run initial [oversized; late_record] = run (mkState [] ∅) [late_record].
Proof.
  pose proof (C7_buffer_overflow_is_dropped initial oversized [late_record]) as H.
  destruct H as (H1 & H2 & _); [vm_compute; reflexivity |].
  split; [exact H1 | exact H2].
Defined.

Lemma process_lines_cons urls line rest :
  process_lines urls (line :: rest) =
    (fst (process_lines (fst (process_line urls line)) rest),
     snd (process_line urls line)
     ++ snd (process_lines (fst (process_line urls line)) rest)).
Proof.
  cbn [process_lines]. destruct (process_line urls line) as [urls1 out1].
  cbn [fst snd]. destruct (process_lines urls1 rest). reflexivity.
Qed.

(** C2, as stated, fails: a content record that follows a failure record,
    in the same chunk or in a later one, is still turned into a content
    frame. *)
Lemma C2_counterexample :
  snd (run initial [failure_record ++ late_record])
    = [ErrorChunk (JStr (js "RateLimited")); Done; Chunk (JStr (js "late")) false]
  /\ snd (run initial [failure_record; late_record])
    = [ErrorChunk (JStr (js "RateLimited")); Done; Chunk (JStr (js "late")) false].
Proof. split; vm_compute; reflexivity. Qed.

(** C2, amended. A record whose object has [success === false] pushes
    exactly one error-content frame and then one terminal frame (provided
    its error message converts to text), no content frame of its own, and
    leaves the set of URLs unchanged; the loop then goes on with the next
    record, whose frames follow. *)
Theorem C2_failure_record_pushes_error_then_done
        (urls : gset jsstring) (dataStr : jsstring) (q data : json) :
  JSON_parse dataStr = Some q ->
  get q Psuccess = Some (JBool false) ->
  get q Pdata = Some data ->
  to_primitive_throws (error_message data) = false ->
  process_record urls dataStr
    = (urls, [ErrorChunk (error_message data); Done])
  /\ forall line rest,
       dataStr_of line = Some dataStr ->
       process_lines urls (line :: rest)
         = (fst (process_lines urls rest),
            [ErrorChunk (error_message data); Done]
            ++ snd (process_lines urls rest)).
Proof.
  intros Hq Hs Hd Hm.
  assert (Hrec : process_record urls dataStr
                 = (urls, [ErrorChunk (error_message data); Done])).
  { unfold process_record, try_block.
    unfold mbind, M_bind, bind, lift. rewrite Hq. cbn [ret].
    rewrite Hs. cbn [ret is_false]. rewrite Hd. cbn [ret]. rewrite Hm.
    reflexivity. }
  split; [exact Hrec |].
  intros line rest Hline. rewrite process_lines_cons.
  unfold process_line. rewrite Hline.
  destruct (eqb dataStr (js "[DONE]")) eqn:E.
  - apply eqb_eq in E. subst dataStr. rewrite done_is_not_json in Hq. discriminate.
  - rewrite Hrec. reflexivity.
Qed.

(** C2 amended, at the failure record of the sample stream. *)
Lemma C2_witness :
  process_record ∅ (quoted "{'success':false,'data':{'code':'RateLimited'}}")
    = (∅, [ErrorChunk (JStr (js "RateLimited")); Done]).
Proof.
  apply (C2_failure_record_pushes_error_then_done ∅
           (quoted "{'success':false,'data':{'code':'RateLimited'}}")
           (JObj [(js "success", JBool false);
                  (js "data", JObj [(js "code", JStr (js "RateLimited"))])])
           (JObj [(js "code", JStr (js "RateLimited"))]));
    vm_compute; reflexivity.
Defined.

Lemma get_total v p x : get v p = Some x -> forall p', get v p' = Some (get_optional v p').
Proof. intros H p'. unfold get_optional. destruct v; simpl in *; try discriminate; reflexivity. Qed.

Lemma startsWith_nonempty s p : startsWith s p = true -> nonempty p = true -> nonempty s = true.
Proof. destruct p; [discriminate |]. destruct s; simpl; [discriminate | reflexivity]. Qed.

Lemma positive_length n : gt_zero (number_of_N (N.of_nat (S n))) = true.
Proof.
  unfold number_of_N, gt_zero, positive, rounds_to_zero. cbn [neg mant expo].
  destruct (N.eqb_spec (N.of_nat (S n)) 0) as [E | E]; [lia |]. reflexivity.
Qed.

Lemma choices_branch_image choice others delta url l :
  delta_of choice = Some delta -> truthy delta = true ->
  image_phase delta = true ->
  get delta Pcontent = Some (JStr url) ->
  startsWith url https = true ->
  isFinished l = false ->
  choices_branch (JArr (choice :: others)) l =
    (Ret tt,
     if bool_decide (url ∈ sent l)
     then mkLocals (JStr []) (finish_marked choice delta) (sent l) (pushed l)
     else mkLocals (JStr (image_markdown url)) (finish_marked choice delta)
                   ({[url]} ∪ sent l) (pushed l)).
Proof.
  intros Hdelta Htruthy Hphase Hcontent Hurl Hfin.
  unfold choices_branch, mbind, M_bind, bind, lift. cbn [get ret].
  unfold delta_of in Hdelta.
  destruct (get choice Pdelta) as [d |] eqn:Hd; [| discriminate].
  pose proof (get_total _ _ _ Hd) as Hchoice.
  pose proof (get_total _ _ _ Hcontent) as Hdel.
  cbn [ret].
  assert (Hsel : (if truthy d then ret d else match get choice Pmessage with Some a => ret a | None => throw end) l = (Ret delta, l)).
  { destruct (truthy d); [injection Hdelta as ->; reflexivity |]. rewrite Hdelta. reflexivity. }
  rewrite Hsel. rewrite Htruthy. cbn [when]. rewrite Hcontent. cbn [ret set_content].
  rewrite (Hdel Pphase), (Hdel Pstatus), (Hchoice Pfinish_reason). cbn [ret].
  assert (Hne : nonempty url = true) by (eapply startsWith_nonempty; [exact Hurl | reflexivity]).
  assert (Hor : or_else (JStr url) (JStr []) = JStr url)
    by (unfold or_else; cbn [truthy]; rewrite Hne; reflexivity).
  rewrite Hor.
  unfold finish_marked.
  destruct (is_string (get_optional delta Pphase) "image_gen") eqn:Hph.
  - cbn [read_content content truthy]. rewrite Hne. cbn [when]. rewrite Hurl. cbn [when].
    unfold dedup. cbn [sent isFinished pushed content].
    destruct (bool_decide (url ∈ sent l));
      destruct (is_string (get_optional delta Pstatus) "finished");
      cbn [when set_isFinished ret read_isFinished isFinished content sent pushed orb];
      rewrite ?Hfin; reflexivity.
  - unfold image_phase in Hphase. rewrite Hph in Hphase. cbn [orb] in Hphase.
    rewrite (Hdel Pchat_type). cbn [ret read_content content].
    rewrite Hphase, Hurl. cbn [andb when].
    unfold dedup. cbn [sent isFinished pushed content].
    destruct (bool_decide (url ∈ sent l));
      destruct (is_string (get_optional delta Pstatus) "finished");
      cbn [when set_isFinished ret read_isFinished isFinished content sent pushed orb];
      rewrite ?Hfin; reflexivity.
Qed.

Lemma process_record_image urls dataStr q url fin :
  JSON_parse dataStr = Some q -> image_record q url fin ->
  process_record urls dataStr =
    if bool_decide (url ∈ urls)
    then (urls, if fin then [Chunk (JStr []) true] else [])
    else ({[url]} ∪ urls, [Chunk (JStr (image_markdown url)) fin]).
Proof.
  intros Hq (success & choice & others & delta & Hs & Hnf & Hc & Hd & Ht & Hph & Hcon & Hurl & ->).
  unfold process_record, try_block, mbind, M_bind, bind, lift.
  rewrite Hq. cbn [ret]. rewrite Hs. cbn [ret]. rewrite Hnf, Hc. cbn [ret truthy get].
  change (to_primitive_throws (number_of_N _)) with false. cbn iota.
  cbn [length]. rewrite positive_length. cbn [ret].
  rewrite (choices_branch_image choice others delta url
             (mkLocals (JStr []) false urls []) Hd Ht Hph Hcon Hurl eq_refl).
  cbn [sent pushed].
  destruct (bool_decide (url ∈ urls)); unfold finish_record; cbn [content isFinished sent pushed app truthy nonempty orb].
  - destruct (finish_marked choice delta); reflexivity.
  - reflexivity.
Qed.



Lemma growing_bind {A B} (m : M A) (k : A -> M B) :
  growing m -> (forall a, growing (k a)) -> growing (bind m k).
Proof.
  intros Hm Hk l. unfold bind.
  specialize (Hm l). destruct (m l) as [[a | |] l']; cbn [snd] in *; [| exact Hm | exact Hm].
  specialize (Hk a l'). set_solver.
Qed.

Lemma growing_ret {A} (a : A) : growing (ret a).
Proof. intros l. reflexivity. Qed.
Lemma growing_throw {A} : growing (@throw A).
Proof. intros l. reflexivity. Qed.
Lemma growing_continue {A} : growing (@continue A).
Proof. intros l. reflexivity. Qed.
Lemma growing_lift {A} (o : option A) : growing (lift o).
Proof. destruct o; intros l; reflexivity. Qed.
Lemma growing_read_content : growing read_content.
Proof. intros l. reflexivity. Qed.
Lemma growing_read_isFinished : growing read_isFinished.
Proof. intros l. reflexivity. Qed.
Lemma growing_set_content c : growing (set_content c).
Proof. intros l. reflexivity. Qed.
Lemma growing_set_isFinished b : growing (set_isFinished b).
Proof. intros l. reflexivity. Qed.
Lemma growing_push f : growing (push f).
Proof. intros l. reflexivity. Qed.
Lemma growing_dedup u : growing (dedup u).
Proof. intros l. unfold dedup. destruct (bool_decide (u ∈ sent l)); cbn [snd sent]; set_solver. Qed.
Lemma growing_when b m : growing m -> growing (when b m).
Proof. intros H. destruct b; [exact H | apply growing_ret]. Qed.

#[local] Hint Resolve growing_ret growing_throw growing_continue growing_lift
  growing_read_content growing_read_isFinished growing_set_content
  growing_set_isFinished growing_push growing_dedup growing_when : growing.

Lemma growing_try_block dataStr : growing (try_block dataStr).
Proof.
  unfold try_block, choices_branch, content_branch, result_branch.
  unfold mbind, M_bind. cbv beta. grow_with (@growing_bind) (@growing_when).
Qed.

Lemma process_record_grows urls dataStr : urls ⊆ fst (process_record urls dataStr).
Proof.
  unfold process_record. pose proof (growing_try_block dataStr (mkLocals (JStr []) false urls [])) as H.
  destruct (try_block dataStr _) as [o l]. cbn [snd sent] in H.
  unfold finish_record. destruct o; exact H.
Qed.

Lemma process_line_grows urls line : urls ⊆ fst (process_line urls line).
Proof.
  unfold process_line. destruct (dataStr_of line) as [d |]; [| reflexivity].
  destruct (eqb d (js "[DONE]")); [reflexivity | apply process_record_grows].
Qed.

Lemma process_lines_grows lines : forall urls, urls ⊆ fst (process_lines urls lines).
Proof.
  induction lines as [| line rest IH]; intros urls; [reflexivity |].
  rewrite process_lines_cons. cbn [fst].
  pose proof (process_line_grows urls line). specialize (IH (fst (process_line urls line))).
  set_solver.
Qed.

Lemma transform_grows st raw : sentImageUrls st ⊆ sentImageUrls (fst (transform st raw)).
Proof.
  unfold transform, transform_raw.
  destruct (N.ltb _ _); [reflexivity |].
  destruct (includes _ _); [reflexivity |].
  destruct (take_lines _) as [lines rest].
  pose proof (process_lines_grows lines (sentImageUrls st)) as H.
  destruct (process_lines _ lines) as [urls out]. exact H.
Qed.

Lemma run_grows chunks : forall st, sentImageUrls st ⊆ sentImageUrls (fst (run st chunks)).
Proof.
  induction chunks as [| raw rest IH]; intros st; [reflexivity |].
  cbn [run]. pose proof (transform_grows st raw) as H.
  destruct (transform st raw) as [st1 out1]. specialize (IH st1).
  destruct (run st1 rest) as [st2 out2]. cbn [fst] in *. set_solver.
Qed.

Lemma image_data_is_image_record :
  exists q, JSON_parse image_data = Some q /\ image_record q image_url false.
Proof.
  eexists. split; [vm_compute; reflexivity |].
  unfold image_record. do 4 eexists.
  repeat split; try (vm_compute; reflexivity).
Qed.

End TransformerFacts.

(* ===================================================================== *)
(** ** main.js: the aspect ratio of an image size *)
(* ===================================================================== *)

Module AspectRatioFacts.

Import Main Samples MainSpec.

Lemma isDigit_cases c :
  isDigit c = true ->
  (c = 48 \/ c = 49 \/ c = 50 \/ c = 51 \/ c = 52 \/ c = 53 \/ c = 54 \/ c = 55
   \/ c = 56 \/ c = 57)%N.
Proof.
  unfold isDigit. rewrite andb_true_iff, !N.leb_le. lia.
Qed.

Lemma digits_of_uint_all_digits d : all_digits (digits_of_uint d).
Proof. induction d; constructor; try assumption; reflexivity. Qed.

Lemma decimal_all_digits n : all_digits (decimal n).
Proof. apply digits_of_uint_all_digits. Qed.

Lemma decimal_nonempty n : decimal n <> [].
Proof.
  unfold decimal. destruct n as [| p]; [discriminate |].
  cbn [N.to_uint]. unfold Pos.to_uint.
  pose proof (DecimalPos.Unsigned.to_uint_nonnil p) as H.
  unfold Pos.to_uint in H. destruct (Decimal.rev (Pos.to_little_uint p)); [congruence | ..]; discriminate.
Qed.

Lemma read_digits_app s : all_digits s -> forall rest acc k,
  read_digits (s ++ rest) acc k = read_digits rest (digits_value s acc) (length s + k).
Proof.
  induction 1 as [| c s Hc Hs IH]; intros rest acc k; [reflexivity |].
  cbn [app read_digits]. rewrite Hc, IH. cbn [digits_value fold_left length].
  f_equal. lia.
Qed.

Lemma digits_value_acc d : forall acc,
  digits_value (digits_of_uint d) (N.pos acc) = N.pos (Pos.of_uint_acc d acc).
Proof.
  induction d; intros acc; cbn [digits_of_uint digits_value fold_left Pos.of_uint_acc];
    [reflexivity | ..];
    match goal with
    | |- fold_left _ _ ?a = _ =>
        match goal with
        | |- _ = N.pos (Pos.of_uint_acc _ ?b) =>
            replace a with (N.pos b) by lia
        end
    end; apply IHd.
Qed.

Lemma digits_value_of_uint d : digits_value (digits_of_uint d) 0 = N.of_uint d.
Proof.
  unfold N.of_uint.
  induction d; cbn [digits_of_uint digits_value fold_left Pos.of_uint];
    [reflexivity | exact IHd | ..];
    match goal with
    | |- fold_left _ _ ?a = N.pos (Pos.of_uint_acc _ ?b) =>
        change a with (N.pos b)
    end; apply digits_value_acc.
Qed.

Lemma digits_value_decimal n : digits_value (decimal n) 0 = n.
Proof. unfold decimal. rewrite digits_value_of_uint. apply DecimalN.Unsigned.of_to. Qed.

Lemma digit_not_space c : isDigit c = true -> isSpace c = false.
Proof. intros H. digit_cases_with isDigit_cases H; reflexivity. Qed.

Lemma digit_no_radix c : isDigit c = true -> radix_of c = None.
Proof. intros H. digit_cases_with isDigit_cases H; reflexivity. Qed.

Lemma trimStart_digits s : all_digits s -> trimStart s = s.
Proof.
  destruct 1 as [| c s Hc Hs]; [reflexivity |].
  cbn [trimStart]. rewrite (digit_not_space c Hc). reflexivity.
Qed.

Lemma trim_digits s : all_digits s -> trim s = s.
Proof.
  intros H. unfold trim, trimEnd. rewrite (trimStart_digits s H).
  rewrite trimStart_digits by (apply Forall_rev; exact H).
  apply rev_involutive.
Qed.

Lemma decimal_literal_digits s :
  all_digits s -> s <> [] ->
  decimal_literal s = Finite (mkNumber false (digits_value s 0) 0).
Proof.
  intros Hs Hne. destruct s as [| c r]; [congruence |].
  pose proof Hs as Hall. apply Forall_cons in Hs as [Hc Hr].
  unfold decimal_literal.
  assert (Hsign : read_sign (c :: r) = (false, c :: r)).
  { digit_cases_with isDigit_cases Hc; reflexivity. }
  rewrite Hsign.
  rewrite <- (app_nil_r (c :: r)) at 1.
  rewrite (read_digits_app (c :: r) Hall [] 0%N 0).
  cbn [read_digits length Nat.add]. reflexivity.
Qed.

Lemma StringToNumber_digits s :
  all_digits s -> s <> [] ->
  StringToNumber s = Finite (mkNumber false (digits_value s 0) 0).
Proof.
  intros Hs Hne. unfold StringToNumber. rewrite (trim_digits s Hs).
  rewrite <- (decimal_literal_digits s Hs Hne).
  destruct s as [| c r]; [congruence |].
  pose proof Hs as Hall. apply Forall_cons in Hs as [Hc Hr].
  assert (Hinf : eqb (c :: r) (js "Infinity") || eqb (c :: r) (js "+Infinity") = false
                 /\ eqb (c :: r) (js "-Infinity") = false).
  { digit_cases_with isDigit_cases Hc; split; reflexivity. }
  destruct Hinf as [-> ->].
  destruct r as [| x [| y r']].
  - digit_cases_with isDigit_cases Hc; reflexivity.
  - digit_cases_with isDigit_cases Hc; reflexivity.
  - apply Forall_cons in Hr as [Hx _].
    pose proof (digit_no_radix x Hx) as Hrx.
    digit_cases_with isDigit_cases Hc; try reflexivity.
    cbv beta iota. rewrite Hrx. reflexivity.
Qed.

Lemma StringToNumber_decimal n :
  StringToNumber (decimal n) = Finite (mkNumber false n 0).
Proof.
  rewrite StringToNumber_digits
    by (apply decimal_all_digits || apply decimal_nonempty).
  rewrite digits_value_decimal. reflexivity.
Qed.

Lemma split_from_no_sep (sep : jschar) (s : jsstring) :
  Forall (fun c => N.eqb sep c = false) s ->
  forall cur, split_from [sep] s 0 cur = [rev cur ++ s].
Proof.
  induction 1 as [| c s Hc Hs IH]; intros cur.
  - cbn. rewrite app_nil_r. reflexivity.
  - cbn [split_from startsWith]. rewrite Hc. cbn [andb].
    rewrite IH. cbn [rev]. rewrite <- app_assoc. reflexivity.
Qed.

Lemma split_from_one_sep (sep : jschar) (s1 s2 : jsstring) :
  Forall (fun c => N.eqb sep c = false) s1 ->
  Forall (fun c => N.eqb sep c = false) s2 ->
  forall cur, split_from [sep] (s1 ++ sep :: s2) 0 cur = [rev cur ++ s1; s2].
Proof.
  intros H1 H2. induction H1 as [| c s Hc Hs IH]; intros cur.
  - cbn [app split_from startsWith]. rewrite N.eqb_refl. cbn [andb length Nat.pred].
    rewrite (split_from_no_sep sep s2 H2 []). rewrite app_nil_r. reflexivity.
  - cbn [app split_from startsWith]. rewrite Hc. cbn [andb].
    rewrite IH. cbn [rev]. rewrite <- app_assoc. reflexivity.
Qed.

Lemma digits_no_x s : all_digits s -> Forall (fun c => N.eqb 120 c = false) s.
Proof.
  induction 1 as [| c s Hc Hs IH]; constructor; [| exact IH].
  digit_cases_with isDigit_cases Hc; reflexivity.
Qed.

Lemma split_size w h :
  split (decimal w ++ js "x" ++ decimal h) (js "x") = [decimal w; decimal h].
Proof.
  unfold split. cbn [js app].
  change (N_of_ascii "x") with 120%N.
  apply (split_from_one_sep 120%N (decimal w) (decimal h));
    apply digits_no_x, decimal_all_digits.
Qed.

Lemma digit_first_not_inherited c r :
  isDigit c = true -> existsb (eqb (c :: r)) inherited_names = false.
Proof. intros Hc. digit_cases_with isDigit_cases Hc; reflexivity. Qed.

Lemma gcd_is_Zgcd a b : (0 <= a)%Z -> (0 <= b)%Z -> gcd a b = Z.gcd a b.
Proof.
  funelim (gcd a b); intros Ha Hb.
  - subst b. rewrite Z.gcd_0_r. symmetry. apply Z.abs_eq. exact Ha.
  - rewrite H by (try apply Z.rem_nonneg; lia).
    rewrite Z.rem_mod_nonneg by lia.
    rewrite Z.gcd_comm, Z.gcd_mod by lia. apply Z.gcd_comm.
Qed.

Lemma gcd_of_N (w h : N) :
  Z.gcd (Z.of_N w) (Z.of_N h) = Z.of_N (N.gcd w h).
Proof. destruct w, h; reflexivity. Qed.

Lemma decimalZ_of_N (n : N) : decimalZ (Z.of_N n) = decimal n.
Proof.
  unfold decimalZ. rewrite Zabs2N.id.
  destruct (Z.ltb_spec (Z.of_N n) 0); [lia | reflexivity].
Qed.

Lemma falsy_positive (n : N) :
  (0 < n)%N -> falsy (Finite (mkNumber false n 0)) = false.
Proof.
  intros Hn. unfold falsy, rounds_to_zero. cbn [mant expo].
  destruct (N.eqb_spec n 0); [lia | reflexivity].
Qed.

Lemma integer_value_safe (n : N) :
  (n <= 2 ^ 53)%N -> integer_value (Finite (mkNumber false n 0)) = Some (Z.of_N n).
Proof.
  intros Hn. unfold integer_value. cbn [mant expo neg Z.leb Z.compare Z.to_N].
  rewrite N.pow_0_r, N.mul_1_r.
  destruct (N.leb_spec n (2 ^ 53)); [reflexivity | lia].
Qed.

Lemma calculateAspectRatio_integers (w h : N) :
  (0 < w <= 2 ^ 53)%N -> (0 < h <= 2 ^ 53)%N ->
  calculateAspectRatio (decimal w ++ js "x" ++ decimal h)
    = Some (decimal (w / N.gcd w h) ++ js ":" ++ decimal (h / N.gcd w h)).
Proof.
  intros [Hw0 Hw] [Hh0 Hh]. unfold calculateAspectRatio.
  rewrite split_size. cbn [map].
  rewrite !StringToNumber_decimal.
  change ([Finite (mkNumber false w 0); Finite (mkNumber false h 0)] !! 0%nat)
    with (Some (Finite (mkNumber false w 0))).
  change ([Finite (mkNumber false w 0); Finite (mkNumber false h 0)] !! 1%nat)
    with (Some (Finite (mkNumber false h 0))).
  cbn [default from_option id].
  rewrite (falsy_positive w Hw0), (falsy_positive h Hh0). cbn [orb].
  rewrite (integer_value_safe w Hw), (integer_value_safe h Hh).
  rewrite gcd_is_Zgcd by lia. rewrite gcd_of_N.
  rewrite <- !N2Z.inj_quot, !decimalZ_of_N. reflexivity.
Qed.

(** C9. In text-to-image translation the size 1792x1024 is found in the
    table and gives 16:9; a size [WxH] absent from the table, with [W] and
    [H] positive integers (up to [2^53], written in decimal), gives
    [W/gcd(W,H)] : [H/gcd(W,H)]; in particular 300x200, which is not in the
    table, gives 3:2. *)
Theorem C9_aspect_ratio_of_size :
  table_lookup (js "1792x1024") sizeMap = Some (js "16:9")
  /\ qwenSize (Some (js "1792x1024")) = Some (Ratio (js "16:9"))
  /\ (forall w h : N,
        (0 < w <= 2 ^ 53)%N -> (0 < h <= 2 ^ 53)%N ->
        table_lookup (decimal w ++ js "x" ++ decimal h) sizeMap = None ->
        qwenSize (Some (decimal w ++ js "x" ++ decimal h))
          = Some (Ratio (decimal (w / N.gcd w h) ++ js ":"
                         ++ decimal (h / N.gcd w h))))
  /\ table_lookup (js "300x200") sizeMap = None
  /\ qwenSize (Some (js "300x200")) = Some (Ratio (js "3:2")).
Proof.
  split; [vm_compute; reflexivity |].
  split; [vm_compute; reflexivity |].
  split; [| split; vm_compute; reflexivity].
  intros w h Hw Hh Habsent. unfold qwenSize.
  pose proof (decimal_nonempty w) as Hne.
  pose proof (decimal_all_digits w) as Hd.
  destruct (decimal w) as [| c r] eqn:E; [congruence |].
  apply Forall_cons in Hd as [Hc _].
  cbn [app nonempty]. cbn [app] in Habsent. rewrite Habsent.
  rewrite (digit_first_not_inherited c _ Hc).
  change (c :: r ++ js "x" ++ decimal h) with ((c :: r) ++ js "x" ++ decimal h).
  rewrite <- E. rewrite (calculateAspectRatio_integers w h Hw Hh). reflexivity.
Qed.

(** C9, at the size 300x200 written as the digits of 300 and of 200. *)
Lemma C9_witness :
  qwenSize (Some (decimal 300 ++ js "x" ++ decimal 200))
    = Some (Ratio (decimal (300 / N.gcd 300 200) ++ js ":"
                   ++ decimal (200 / N.gcd 300 200))).
Proof.
  apply (proj1 (proj2 (proj2 C9_aspect_ratio_of_size)) 300%N 200%N);
    [vm_compute; split; [reflexivity | discriminate]
    | vm_compute; split; [reflexivity | discriminate]
    | vm_compute; reflexivity].
Defined.

End AspectRatioFacts.

(* ===================================================================== *)
(** ** main.js and lib/sse.js: the terminal frame of a response *)
(* ===================================================================== *)

Module StreamFacts.

Import IdentityPool Transformer Sse Main Handler Samples MainSpec.

Lemma sentinels_app (a b : list wire) :
  sentinels (a ++ b) = sentinels a + sentinels b.
Proof. unfold sentinels. rewrite List.filter_app, length_app. reflexivity. Qed.

Lemma write_sentinels (w : wire) (r : response) :
  sentinels (written (write w r))
  <= sentinels (written r) + (if is_sentinel w then 1 else 0).
Proof.
  unfold write. destruct (writableEnded r); [lia |].
  cbn [written]. rewrite sentinels_app. unfold sentinels at 2. cbn [List.filter].
  destruct (is_sentinel w); cbn [length]; lia.
Qed.

Lemma write_keeps_ended (w : wire) (r : response) :
  writableEnded (write w r) = writableEnded r.
Proof. unfold write. destruct (writableEnded r) eqn:E; [exact E | reflexivity]. Qed.

Lemma write_frames_sentinels (fs : list frame) :
  forall r, sentinels (written (write_frames fs r))
            <= sentinels (written r) + length (List.filter is_done fs).
Proof.
  induction fs as [| f fs IH]; intros r; [cbn; lia |].
  cbn [write_frames fold_left]. fold (write_frames fs (write (Frame f) r)).
  specialize (IH (write (Frame f) r)).
  pose proof (write_sentinels (Frame f) r) as Hw.
  cbn [List.filter]. destruct f; cbn [is_sentinel is_done length] in *; lia.
Qed.

Lemma write_frames_keeps_ended (fs : list frame) :
  forall r, writableEnded (write_frames fs r) = writableEnded r.
Proof.
  induction fs as [| f fs IH]; intros r; [reflexivity |].
  cbn [write_frames fold_left]. fold (write_frames fs (write (Frame f) r)).
  rewrite IH. apply write_keeps_ended.
Qed.

Lemma write_closed w r : closed_by_sentinel r -> closed_by_sentinel (write w r).
Proof.
  unfold closed_by_sentinel, write. destruct (writableEnded r) eqn:E.
  - rewrite E. auto.
  - cbn [writableEnded]. discriminate.
Qed.

Lemma write_frames_closed fs :
  forall r, closed_by_sentinel r -> closed_by_sentinel (write_frames fs r).
Proof.
  induction fs as [| f fs IH]; intros r Hr; [exact Hr |].
  cbn [write_frames fold_left]. fold (write_frames fs (write (Frame f) r)).
  apply IH, write_closed, Hr.
Qed.

Lemma safeWriteDone_closed k r :
  closed_by_sentinel r -> closed_by_sentinel (snd (safeWriteDone k r)).
Proof.
  intros Hr. unfold safeWriteDone. destruct (respondedDone k); [exact Hr |].
  cbn [snd]. destruct (writableEnded r) eqn:E; cbn [negb].
  - rewrite E. cbn [negb]. exact Hr.
  - unfold write. rewrite E. cbn [writableEnded negb end_ written].
    intros _. apply last_snoc.
Qed.

Lemma safeWriteDone_sentinels k r :
  sentinels (written (snd (safeWriteDone k r)))
  <= sentinels (written r) + (if respondedDone k then 0 else 1).
Proof.
  unfold safeWriteDone. destruct (respondedDone k); [cbn [snd]; lia |].
  cbn [snd]. destruct (writableEnded r) eqn:E; cbn [negb].
  - rewrite E. cbn [negb]. lia.
  - pose proof (write_sentinels sentinel r) as Hw. cbn [is_sentinel sentinel] in Hw.
    destruct (writableEnded (write sentinel r)); cbn [negb end_ written]; exact Hw.
Qed.

Lemma safeWriteDone_flag k r : respondedDone (fst (safeWriteDone k r)) = true.
Proof.
  unfold safeWriteDone. destruct (respondedDone k) eqn:E; [exact E | reflexivity].
Qed.

Lemma safeWriteDone_ends k r :
  respondedDone k = false \/ writableEnded r = true ->
  writableEnded (snd (safeWriteDone k r)) = true.
Proof.
  unfold safeWriteDone. intros [Hk | Hr].
  - rewrite Hk. cbn [snd]. destruct (writableEnded r) eqn:E; cbn [negb].
    + rewrite E. cbn [negb]. exact E.
    + unfold write. rewrite E. reflexivity.
  - destruct (respondedDone k); cbn [snd]; [exact Hr |].
    rewrite Hr. cbn [negb]. rewrite Hr. cbn [negb]. exact Hr.
Qed.

Lemma handle_closed s e :
  closed_by_sentinel (res s) -> closed_by_sentinel (res (handle s e)).
Proof.
  intros Hs. destruct e; cbn [handle]; try exact Hs.
  - destruct (destroyed s); [exact Hs |].
    destruct (transform (transformer s) chunk) as [t out]. cbn [res].
    apply write_frames_closed, Hs.
  - pose proof (safeWriteDone_closed (alive s) (res s) Hs) as H.
    destruct (safeWriteDone (alive s) (res s)). exact H.
  - pose proof (safeWriteDone_closed (alive s) (res s) Hs) as H.
    destruct (safeWriteDone (alive s) (res s)). exact H.
  - pose proof (safeWriteDone_closed (alive s) (res s) Hs) as H.
    destruct (safeWriteDone (alive s) (res s)). exact H.
  - pose proof (safeWriteDone_closed (alive s) (res s) Hs) as H.
    destruct (safeWriteDone (alive s) (res s)). exact H.
  - cbn [res]. unfold tick.
    destruct (keepalive (alive s) && negb (writableEnded (res s)));
      [apply write_closed |]; exact Hs.
Qed.

Lemma handle_all_closed events :
  forall s, closed_by_sentinel (res s) ->
            closed_by_sentinel (res (handle_all s events)).
Proof.
  induction events as [| e rest IH]; intros s Hs; [exact Hs |].
  cbn [handle_all fold_left]. fold (handle_all (handle s e) rest).
  apply IH, handle_closed, Hs.
Qed.

Lemma forwarded_cons t raw chunks :
  forwarded t (raw :: chunks) =
    length (List.filter is_done (snd (transform t raw)))
    + forwarded (fst (transform t raw)) chunks.
Proof.
  unfold forwarded. cbn [run]. destruct (transform t raw) as [t1 out1].
  cbn [fst snd]. destruct (run t1 chunks) as [t2 out2]. cbn [fst snd].
  rewrite List.filter_app, length_app. reflexivity.
Qed.

Lemma tick_sentinels k r :
  sentinels (written (tick k r)) <= sentinels (written r).
Proof.
  unfold tick. destruct (keepalive k && negb (writableEnded r)); [| lia].
  pose proof (write_sentinels KeepAlive r) as Hw. cbn [is_sentinel] in Hw. lia.
Qed.

(** One event never raises the number of terminal frames written so far
    plus those still to come: the transformer's own, and one from
    [safeWriteDone] while the flag is not set. *)
Lemma handle_sentinels s e rest :
  sentinels (written (res (handle s e)))
  + forwarded (transformer (handle s e)) (delivered (destroyed (handle s e)) rest)
  + (if respondedDone (alive (handle s e)) then 0 else 1)
  <= sentinels (written (res s))
     + forwarded (transformer s) (delivered (destroyed s) (e :: rest))
     + (if respondedDone (alive s) then 0 else 1).
Proof.
  assert (Hfinal :
    forall closed,
      sentinels (written (snd (safeWriteDone (alive s) (res s))))
      + forwarded (transformer s) (delivered closed rest)
      + (if respondedDone (fst (safeWriteDone (alive s) (res s))) then 0 else 1)
      <= sentinels (written (res s))
         + forwarded (transformer s) (delivered closed rest)
         + (if respondedDone (alive s) then 0 else 1)).
  { intros closed.
    pose proof (safeWriteDone_sentinels (alive s) (res s)) as Hw.
    rewrite (safeWriteDone_flag (alive s) (res s)). lia. }
  destruct e; cbn [handle delivered].
  - destruct (destroyed s) eqn:Hd; cbv beta iota; [rewrite ?Hd; lia |].
    rewrite forwarded_cons.
    destruct (transform (transformer s) chunk) as [t out].
    cbn [res transformer destroyed alive fst snd]. rewrite ?Hd.
    pose proof (write_frames_sentinels out (res s)). lia.
  - lia.
  - specialize (Hfinal (destroyed s)).
    destruct (safeWriteDone (alive s) (res s)) as [k r]. exact Hfinal.
  - specialize (Hfinal (destroyed s)).
    destruct (safeWriteDone (alive s) (res s)) as [k r]. exact Hfinal.
  - specialize (Hfinal (destroyed s)).
    destruct (safeWriteDone (alive s) (res s)) as [k r]. exact Hfinal.
  - specialize (Hfinal true).
    destruct (safeWriteDone (alive s) (res s)) as [k r]. exact Hfinal.
  - cbn [res transformer destroyed alive cleanup respondedDone].
    destruct (respondedDone (alive s)); lia.
  - cbn [res transformer destroyed alive cleanup respondedDone].
    destruct (respondedDone (alive s)); lia.
  - cbn [res transformer destroyed alive].
    pose proof (tick_sentinels (alive s) (res s)). lia.
Qed.

(** Beyond the terminal frames the transformer pushes, at most one more is
    written, and none once the flag is set. *)
Lemma handle_all_sentinels events :
  forall s,
    sentinels (written (res (handle_all s events)))
    <= sentinels (written (res s))
       + forwarded (transformer s) (delivered (destroyed s) events)
       + (if respondedDone (alive s) then 0 else 1).
Proof.
  induction events as [| e rest IH]; intros s; [cbn; lia |].
  cbn [handle_all fold_left]. fold (handle_all (handle s e) rest).
  specialize (IH (handle s e)).
  pose proof (handle_sentinels s e rest). lia.
Qed.

(** Without a [cleanup], the flag is set only by [safeWriteDone], which
    ends the response. *)
Lemma handle_flag_means_ended s e :
  cleaning e = false ->
  (respondedDone (alive s) = true -> writableEnded (res s) = true) ->
  respondedDone (alive (handle s e)) = true ->
  writableEnded (res (handle s e)) = true.
Proof.
  assert (Hfinal :
    (respondedDone (alive s) = true -> writableEnded (res s) = true) ->
    writableEnded (snd (safeWriteDone (alive s) (res s))) = true).
  { intros Hs. apply safeWriteDone_ends.
    destruct (respondedDone (alive s)); [right; apply Hs; reflexivity | left; reflexivity]. }
  intros Hc Hs. destruct e; try discriminate Hc; cbn [handle].
  - destruct (destroyed s); [exact Hs |].
    destruct (transform (transformer s) chunk) as [t out]. cbn [res alive].
    rewrite write_frames_keeps_ended. exact Hs.
  - exact Hs.
  - specialize (Hfinal Hs). destruct (safeWriteDone (alive s) (res s)). intros _. exact Hfinal.
  - specialize (Hfinal Hs). destruct (safeWriteDone (alive s) (res s)). intros _. exact Hfinal.
  - specialize (Hfinal Hs). destruct (safeWriteDone (alive s) (res s)). intros _. exact Hfinal.
  - specialize (Hfinal Hs). destruct (safeWriteDone (alive s) (res s)). intros _. exact Hfinal.
  - cbn [res alive]. intros H. unfold tick.
    destruct (keepalive (alive s) && negb (writableEnded (res s)));
      [rewrite write_keeps_ended |]; apply Hs, H.
Qed.

Lemma handle_all_flag_means_ended events :
  forall s,
    Forall (fun e => cleaning e = false) events ->
    (respondedDone (alive s) = true -> writableEnded (res s) = true) ->
    respondedDone (alive (handle_all s events)) = true ->
    writableEnded (res (handle_all s events)) = true.
Proof.
  induction events as [| e rest IH]; intros s Hall Hs; [exact Hs |].
  apply Forall_cons in Hall as [He Hrest].
  cbn [handle_all fold_left]. fold (handle_all (handle s e) rest).
  apply IH; [exact Hrest |]. apply handle_flag_means_ended; assumption.
Qed.

Lemma handle_keeps_ended s e :
  writableEnded (res s) = true -> writableEnded (res (handle s e)) = true.
Proof.
  intros Hs. destruct e; cbn [handle]; try exact Hs.
  - destruct (destroyed s); [exact Hs |].
    destruct (transform (transformer s) chunk) as [t out]. cbn [res].
    rewrite write_frames_keeps_ended. exact Hs.
  - pose proof (safeWriteDone_ends (alive s) (res s) (or_intror Hs)) as H.
    destruct (safeWriteDone (alive s) (res s)). exact H.
  - pose proof (safeWriteDone_ends (alive s) (res s) (or_intror Hs)) as H.
    destruct (safeWriteDone (alive s) (res s)). exact H.
  - pose proof (safeWriteDone_ends (alive s) (res s) (or_intror Hs)) as H.
    destruct (safeWriteDone (alive s) (res s)). exact H.
  - pose proof (safeWriteDone_ends (alive s) (res s) (or_intror Hs)) as H.
    destruct (safeWriteDone (alive s) (res s)). exact H.
  - cbn [res]. unfold tick.
    destruct (keepalive (alive s) && negb (writableEnded (res s)));
      [rewrite write_keeps_ended |]; exact Hs.
Qed.

Lemma handle_all_keeps_ended events :
  forall s, writableEnded (res s) = true ->
            writableEnded (res (handle_all s events)) = true.
Proof.
  induction events as [| e rest IH]; intros s Hs; [exact Hs |].
  cbn [handle_all fold_left]. fold (handle_all (handle s e) rest).
  apply IH, handle_keeps_ended, Hs.
Qed.

Lemma handle_finalizing_ends s e :
  finalizing e = true ->
  (respondedDone (alive s) = true -> writableEnded (res s) = true) ->
  writableEnded (res (handle s e)) = true.
Proof.
  intros He Hs.
  assert (Hfinal : writableEnded (snd (safeWriteDone (alive s) (res s))) = true).
  { apply safeWriteDone_ends.
    destruct (respondedDone (alive s)); [right; apply Hs; reflexivity | left; reflexivity]. }
  destruct e; try discriminate He; cbn [handle];
    destruct (safeWriteDone (alive s) (res s)); exact Hfinal.
Qed.

Lemma handle_all_app s (xs ys : list event) :
  handle_all s (xs ++ ys) = handle_all (handle_all s xs) ys.
Proof. unfold handle_all. apply fold_left_app. Qed.

Lemma tick_open r :
  writableEnded r = false ->
  tick createKeepAlive r = mkResponse (written r ++ [KeepAlive]) false (headersSent r).
Proof.
  intros He. unfold tick, write. cbn [keepalive createKeepAlive andb].
  rewrite He. reflexivity.
Qed.

Lemma awaited_state (n : nat) :
  let r := Nat.iter n (tick createKeepAlive) (setSseHeaders (mkResponse [] false false)) in
  written r = repeat KeepAlive n /\ writableEnded r = false /\ headersSent r = true.
Proof.
  cbv zeta. induction n as [| n IH]; [repeat split |].
  rewrite Nat.iter_succ. destruct IH as (Hw & He & Hh).
  rewrite (tick_open _ He). cbn [written writableEnded headersSent].
  rewrite Hw, Hh. repeat split.
  change [KeepAlive] with (repeat KeepAlive 1). rewrite <- repeat_app.
  f_equal. lia.
Qed.

Lemma sentinels_keepalives n : sentinels (repeat KeepAlive n) = 0.
Proof. induction n as [| n IH]; [reflexivity | exact IH]. Qed.

Lemma last_sentinel_counts (ws : list wire) :
  last ws = Some sentinel -> 1 <= sentinels ws.
Proof.
  intros H. apply last_Some in H as [ws' ->].
  rewrite sentinels_app. cbn. lia.
Qed.

Lemma stream_failure_result message n :
  let r0 := Nat.iter n (tick createKeepAlive) (setSseHeaders (mkResponse [] false false)) in
  let r := snd (stream_failure message createKeepAlive r0) in
  writableEnded r = true /\ sentinels (written r) = 1
  /\ last (written r) = Some sentinel.
Proof.
  cbv zeta. destruct (awaited_state n) as (Hw & He & Hh). cbv zeta in Hw, He, Hh.
  destruct (Nat.iter n _ _) as [ws ended sent]. cbn [written writableEnded headersSent] in *.
  subst ws ended sent. unfold stream_failure, write.
  cbn [headersSent writableEnded written end_ snd].
  split; [reflexivity |]. split.
  - rewrite !sentinels_app, sentinels_keepalives. reflexivity.
  - apply last_snoc.
Qed.

Lemma validateStatus_spec (status : Z) :
  validateStatus status = true <-> (200 <= status < 300)%Z.
Proof. unfold validateStatus. rewrite andb_true_iff, Z.leb_le, Z.ltb_lt. tauto. Qed.

(** A status that [http.post] lets through is below 400: the test
    [upstream.status >= 400] of [executeQwenRequest] is then false. *)
Lemma validated_below_400 (status : Z) :
  validateStatus status = true -> (400 <=? status)%Z = false.
Proof. rewrite validateStatus_spec. intros H. apply Z.leb_gt. lia. Qed.

Lemma stream_catch_pool r message waited now p :
  stream_catch (FromPool r) message waited now p
  = (Returned false false,
     markIdentityFailure (Some r) (Some message) now p,
     let '(k, r') :=
       stream_failure message createKeepAlive
         (Nat.iter waited (tick createKeepAlive)
            (setSseHeaders (mkResponse [] false false))) in
     mkStreaming initial r' k false).
Proof.
  unfold stream_catch. cbn [mark_failure].
  pose proof (awaited_state waited) as (_ & _ & Hh). cbv zeta in Hh.
  rewrite Hh. cbn [negb].
  destruct (stream_failure _ _ _) as [k r']. reflexivity.
Qed.

Lemma stream_failure_written message n :
  let r0 := Nat.iter n (tick createKeepAlive) (setSseHeaders (mkResponse [] false false)) in
  written (snd (stream_failure message createKeepAlive r0))
  = repeat KeepAlive n
    ++ [Frame (Chunk (JStr (js "Upstream API request failed: " ++ message)) true);
        sentinel].
Proof.
  cbv zeta. destruct (awaited_state n) as (Hw & He & Hh). cbv zeta in Hw, He, Hh.
  destruct (Nat.iter n _ _) as [ws ended sent]. cbn [written writableEnded headersSent] in *.
  subst ws ended sent. unfold stream_failure, write.
  cbn [headersSent writableEnded written end_ snd].
  rewrite <- app_assoc. reflexivity.
Qed.

(** The streamed response of a call made with an identity of the pool. *)
Lemma streaming_failed jwt_exp r d now p :
  failed d ->
  exists message,
    snd (executeQwenRequest_streaming jwt_exp (FromPool r) d now p)
    = (let '(k, r') :=
         stream_failure message createKeepAlive
           (Nat.iter (waited_of d) (tick createKeepAlive)
              (setSseHeaders (mkResponse [] false false))) in
       mkStreaming initial r' k false).
Proof.
  intros Hd. unfold executeQwenRequest_streaming.
  destruct d as [waited status events | waited message];
    cbn [failed http_post waited_of] in *.
  - destruct (validateStatus status) eqn:E;
      [apply validateStatus_spec in E; contradiction |].
    exists (status_error status). rewrite stream_catch_pool. reflexivity.
  - exists message. rewrite stream_catch_pool. reflexivity.
Qed.

Lemma streaming_succeeded jwt_exp r waited status events now p :
  (200 <= status < 300)%Z ->
  snd (executeQwenRequest_streaming jwt_exp (FromPool r)
         (Responded waited status events) now p)
  = handle_all
      (mkStreaming initial
         (Nat.iter waited (tick createKeepAlive)
            (setSseHeaders (mkResponse [] false false)))
         createKeepAlive false)
      events.
Proof.
  intros Hs. apply validateStatus_spec in Hs.
  unfold executeQwenRequest_streaming. cbn [http_post waited_of].
  rewrite Hs, (validated_below_400 status Hs). reflexivity.
Qed.

(** C1, as stated, fails. A non-streaming request is answered with one
    JSON document: the response is ended and no terminal frame was written
    to it, although the body read upstream held a content record and the
    terminal marker. *)
Lemma C1_counterexample :
  chat_completion_json expires_2100 CollectorSpec.no_numbers (FromPool 0)
    (Answered 200) collected_body t0 one_holder
  = Some (mkResponse [Document 200 (js "late")] true true)
  /\ sentinels [Document 200 (js "late")] = 0.
Proof. split; vm_compute; reflexivity. Qed.

(** C1, amended, for the streamed response of a request made with an
    identity of the pool. When the upstream call fails, the response is the
    keep-alive comments written so far, one error frame and exactly one
    terminal frame, and it is ended. When the call succeeds: a response that
    has been ended has the terminal frame as its last frame; when the
    transformer pushes no terminal frame of its own, an ended response
    carries exactly one; and the response is ended as soon as an end or
    close event fires that no [cleanup] came before. *)
Theorem C1_terminal_frame_of_a_streamed_response
        (jwt_exp : jsstring -> option Z) (r : nat) (now : Z) (p : Pool) :
  let response_of d :=
    res (snd (executeQwenRequest_streaming jwt_exp (FromPool r) d now p)) in
  (forall d, failed d ->
     writableEnded (response_of d) = true
     /\ sentinels (written (response_of d)) = 1
     /\ exists message,
          written (response_of d)
          = repeat KeepAlive (waited_of d)
            ++ [Frame (Chunk (JStr (js "Upstream API request failed: " ++ message))
                             true);
                sentinel])
  /\ (forall waited status events, (200 <= status < 300)%Z ->
        let rs := response_of (Responded waited status events) in
        (writableEnded rs = true -> last (written rs) = Some sentinel)
        /\ (forwarded initial (delivered false events) = 0 ->
            writableEnded rs = true -> sentinels (written rs) = 1))
  /\ (forall waited status before e after,
        (200 <= status < 300)%Z -> finalizing e = true ->
        Forall (fun e' => cleaning e' = false) before ->
        writableEnded
          (response_of (Responded waited status (before ++ e :: after))) = true).
Proof.
  cbv zeta. split; [| split].
  - intros d Hd. destruct (streaming_failed jwt_exp r d now p Hd) as [message ->].
    pose proof (stream_failure_result message (waited_of d)) as (He & Hn & _).
    pose proof (stream_failure_written message (waited_of d)) as Hw.
    cbv zeta in He, Hn, Hw.
    destruct (stream_failure _ _ _) as [k r']. cbn [res snd] in *.
    split; [exact He |]. split; [exact Hn |]. exists message. exact Hw.
  - intros waited status events Hs. rewrite (streaming_succeeded _ _ _ _ _ _ _ Hs).
    destruct (awaited_state waited) as (Hw & He & Hh). cbv zeta in Hw, He, Hh.
    set (s0 := mkStreaming initial _ createKeepAlive false).
    pose proof (handle_all_sentinels events s0) as Hbound.
    assert (Hclosed : closed_by_sentinel (res (handle_all s0 events))).
    { apply handle_all_closed. unfold closed_by_sentinel. subst s0. cbn [res].
      rewrite He. discriminate. }
    subst s0. cbn [res transformer destroyed alive respondedDone createKeepAlive] in Hbound.
    rewrite Hw, sentinels_keepalives in Hbound.
    split.
    + intros Hend. apply Hclosed, Hend.
    + intros Hn Hend. rewrite Hn in Hbound.
      pose proof (last_sentinel_counts _ (Hclosed Hend)). lia.
  - intros waited status before e after Hs He Hbefore.
    rewrite (streaming_succeeded _ _ _ _ _ _ _ Hs).
    destruct (awaited_state waited) as (Hw & Hopen & Hh). cbv zeta in Hw, Hopen, Hh.
    set (s0 := mkStreaming initial _ createKeepAlive false).
    rewrite handle_all_app. cbn [handle_all fold_left].
    fold (handle_all (handle (handle_all s0 before) e) after).
    apply handle_all_keeps_ended, handle_finalizing_ends; [exact He |].
    apply handle_all_flag_means_ended; [exact Hbefore |].
    subst s0. cbn [alive respondedDone createKeepAlive]. discriminate.
Qed.

(** C1 amended, at a stream that upstream ends without a terminal
    marker: the response carries the terminal frame exactly once. *)
Lemma C1_witness :
  sentinels
    (written
       (res (snd (executeQwenRequest_streaming expires_2100 (FromPool 0)
                    (Responded 0 200 unmarked_stream) t0 one_holder)))) = 1.
Proof.
  apply (proj1 (proj2 (C1_terminal_frame_of_a_streamed_response
                         expires_2100 0 t0 one_holder))
           0 200%Z unmarked_stream);
    [lia | vm_compute; reflexivity | vm_compute; reflexivity].
Defined.

End StreamFacts.

(* ===================================================================== *)
(** ** Remaining time of a token: lib/config.js, lib/token-refresh.js *)
(* ===================================================================== *)

Module ConfigFacts.

Import IdentityPool Config.

Lemma expired_has_no_time_left jwt_exp tok now :
  isTokenExpired jwt_exp tok now = true ->
  getTokenRemainingTime jwt_exp tok now = 0%Z.
Proof.
  unfold isTokenExpired, getTokenRemainingTime, getTokenExpiryTime.
  destruct (jwt_exp tok) as [exp |]; [| reflexivity].
  destruct (exp =? 0)%Z eqn:E0; simpl; [reflexivity |].
  intros H. apply Z.ltb_lt in H. apply Z.eqb_neq in E0.
  replace (exp * 1000 =? 0)%Z with false by (symmetry; apply Z.eqb_neq; lia).
  simpl. pose proof (Z.mul_div_le now 1000). lia.
Qed.

Lemma remaining_time_nonneg jwt_exp tok now :
  (0 <= getTokenRemainingTime jwt_exp tok now)%Z.
Proof.
  unfold getTokenRemainingTime.
  destruct (negb _); lia.
Qed.

Lemma formatRemainingTime_expired ms :
  (ms <= 0)%Z -> formatRemainingTime ms = js "Expired".
Proof.
  intros H. unfold formatRemainingTime.
  destruct (ms <=? 0)%Z eqn:E; [reflexivity | apply Z.leb_gt in E; lia].
Qed.

(** X1. The report of [getTokenRefreshInfo] is coherent: [valid] is the
    negation of [isExpired]; an expired token is reported with no time left,
    the text [Expired], and as needing a refresh; a token reported as not
    needing a refresh has at least 24 hours left. *)
Theorem X1_refresh_info_is_coherent
        (jwt_exp : jsstring -> option Z) (tok : jsstring) (now : Z) :
  let info := getTokenRefreshInfo jwt_exp tok now in
  valid info = negb (isExpired info)
  /\ (0 <= remainingTime info)%Z
  /\ (isExpired info = true ->
      needsRefresh info = true /\ remainingTime info = 0%Z
      /\ (tok <> [] -> formattedTime info = js "Expired"
                       /\ reason info = js "Token is expired"))
  /\ (needsRefresh info = false ->
      isExpired info = false
      /\ (24 * 60 * 60 * 1000 <= remainingTime info)%Z
      /\ reason info = js "Token is still valid").
Proof.
  unfold getTokenRefreshInfo.
  destruct tok as [| c tok']; simpl nonempty; cbn [negb].
  { cbn. repeat split; try reflexivity; try lia; try discriminate; congruence. }
  set (tok := c :: tok').
  cbn zeta. cbn [valid isExpired remainingTime needsRefresh formattedTime reason].
  split; [reflexivity |].
  split; [apply remaining_time_nonneg |].
  unfold shouldRefreshToken. simpl nonempty. cbn [negb].
  destruct (isTokenExpired jwt_exp tok now) eqn:He.
  - pose proof (expired_has_no_time_left _ _ _ He) as H0.
    split.
    + intros _. rewrite H0. repeat split; reflexivity.
    + discriminate.
  - split; [discriminate |].
    intros H. apply Z.ltb_ge in H. rewrite (proj2 (Z.ltb_ge _ _) H).
    repeat split; [lia].
Qed.

(** X2. [formatRemainingTime] splits a positive duration into whole days,
    hours below 24, minutes below 60 and a rest below one minute, and prints
    the two largest units that apply: days and hours, or hours and minutes,
    or minutes alone. *)
Theorem X2_formatRemainingTime_units (ms : Z) :
  (0 < ms)%Z ->
  exists d h m r : Z,
    (ms = d * 86400000 + h * 3600000 + m * 60000 + r)%Z
    /\ (0 <= d)%Z /\ (0 <= h < 24)%Z /\ (0 <= m < 60)%Z /\ (0 <= r < 60000)%Z
    /\ formatRemainingTime ms =
         if (0 <? d)%Z then decimalZ d ++ js "d " ++ decimalZ h ++ js "h"
         else if (0 <? h)%Z
         then decimalZ h ++ js "h " ++ decimalZ m ++ js "m"
         else decimalZ m ++ js "m".
Proof.
  intros Hpos.
  exists (ms / 86400000)%Z, ((ms mod 86400000) / 3600000)%Z,
         ((ms mod 3600000) / 60000)%Z, (ms mod 60000)%Z.
  pose proof (Z.div_mod ms 86400000 ltac:(lia)) as D1.
  pose proof (Z.mod_pos_bound ms 86400000 ltac:(lia)) as B1.
  pose proof (Z.div_mod (ms mod 86400000) 3600000 ltac:(lia)) as D2.
  pose proof (Z.mod_pos_bound (ms mod 86400000) 3600000 ltac:(lia)) as B2.
  pose proof (Z.div_mod ms 3600000 ltac:(lia)) as D3.
  pose proof (Z.mod_pos_bound ms 3600000 ltac:(lia)) as B3.
  pose proof (Z.div_mod (ms mod 3600000) 60000 ltac:(lia)) as D4.
  pose proof (Z.mod_pos_bound (ms mod 3600000) 60000 ltac:(lia)) as B4.
  pose proof (Z.div_mod ms 60000 ltac:(lia)) as D5.
  pose proof (Z.mod_pos_bound ms 60000 ltac:(lia)) as B5.
  assert (0 <= ms / 86400000)%Z by (apply Z.div_pos; lia).
  assert (0 <= (ms mod 86400000) / 3600000)%Z by (apply Z.div_pos; lia).
  assert (0 <= (ms mod 3600000) / 60000)%Z by (apply Z.div_pos; lia).
  assert (0 <= ms / 3600000)%Z by (apply Z.div_pos; lia).
  assert (0 <= ms / 60000)%Z by (apply Z.div_pos; lia).
  repeat split; try lia.
  unfold formatRemainingTime.
  destruct (ms <=? 0)%Z eqn:E; [apply Z.leb_le in E; lia |].
  change (1000 * 60 * 60 * 24)%Z with 86400000%Z.
  change (1000 * 60 * 60)%Z with 3600000%Z.
  change (1000 * 60)%Z with 60000%Z.
  reflexivity.
Qed.

Lemma X2_witness :
  exists d h m r : Z,
    (90061000 = d * 86400000 + h * 3600000 + m * 60000 + r)%Z
    /\ (0 <= d)%Z /\ (0 <= h < 24)%Z /\ (0 <= m < 60)%Z /\ (0 <= r < 60000)%Z
    /\ formatRemainingTime 90061000 =
         if (0 <? d)%Z then decimalZ d ++ js "d " ++ decimalZ h ++ js "h"
         else if (0 <? h)%Z
         then decimalZ h ++ js "h " ++ decimalZ m ++ js "m"
         else decimalZ m ++ js "m".
Proof. apply (X2_formatRemainingTime_units 90061000). lia. Defined.

(** X3. The scheduler's check in lib/token-refresh.js and the check in
    lib/config.js disagree on a token only when the scheduler says no and
    the configuration says yes, and this happens exactly when the token
    expires 86400 whole seconds after the current second and the current
    time is not a whole second. *)
Theorem X3_refresh_checks_agree_up_to_a_second
        (jwt_exp : jsstring -> option Z) (tok : jsstring) (now : Z) :
  tok <> [] ->
  (scheduler_shouldRefreshToken jwt_exp tok now = true ->
   shouldRefreshToken jwt_exp tok now = true)
  /\ (shouldRefreshToken jwt_exp tok now = true
      /\ scheduler_shouldRefreshToken jwt_exp tok now = false
      <-> exists exp, jwt_exp tok = Some exp /\ exp <> 0%Z
                      /\ (exp - now / 1000 = 86400)%Z
                      /\ (0 < now mod 1000)%Z).
Proof.
  intros Hne.
  unfold scheduler_shouldRefreshToken, shouldRefreshToken,
    getTokenRemainingTime, isTokenExpired, getTokenExpiryTime.
  destruct tok as [| c tok']; [congruence |]. simpl nonempty. cbn [negb].
  set (tok := c :: tok').
  pose proof (Z.div_mod now 1000 ltac:(lia)) as D.
  pose proof (Z.mod_pos_bound now 1000 ltac:(lia)) as B.
  destruct (jwt_exp tok) as [exp |].
  2:{ split; [reflexivity |]. split.
      - intros [_ H]. discriminate.
      - intros (exp & H & _). discriminate. }
  destruct (exp =? 0)%Z eqn:E0.
  { apply Z.eqb_eq in E0. split; [reflexivity |]. split.
    - intros [_ H]. discriminate.
    - intros (exp' & H & Hn & _). congruence. }
  apply Z.eqb_neq in E0. cbn [orb truthy_time negb].
  replace (exp * 1000 =? 0)%Z with false by (symmetry; apply Z.eqb_neq; lia).
  cbn [negb default from_option]. unfold Datatypes.id.
  destruct (exp <? now / 1000)%Z eqn:Hexp.
  { apply Z.ltb_lt in Hexp. split; [reflexivity |]. split.
    - intros [_ H]. apply Z.ltb_ge in H. lia.
    - intros (exp' & H & _ & Heq & _). injection H as <-. lia. }
  apply Z.ltb_ge in Hexp.
  split.
  - intros H. apply Z.ltb_lt in H. apply Z.ltb_lt. lia.
  - split.
    + intros [H1 H2]. apply Z.ltb_lt in H1. apply Z.ltb_ge in H2.
      exists exp. repeat split; try assumption; lia.
    + intros (exp' & H & _ & Heq & Hm). injection H as <-.
      split; [apply Z.ltb_lt | apply Z.ltb_ge]; lia.
Qed.

Lemma X3_witness :
  shouldRefreshToken (MoreSamples.expires_at 86401) (js "t") 1500 = true
  /\ scheduler_shouldRefreshToken (MoreSamples.expires_at 86401) (js "t") 1500
     = false.
Proof.
  apply (X3_refresh_checks_agree_up_to_a_second
           (MoreSamples.expires_at 86401) (js "t") 1500).
  - discriminate.
  - exists 86401%Z. split; [reflexivity |]. split; [discriminate |].
    split; reflexivity.
Defined.

End ConfigFacts.

(* ===================================================================== *)
(** ** The identity pool: cool-down, fairness, invariants, maintenance *)
(* ===================================================================== *)

Module PoolMoreFacts.

Import IdentityPool Samples PoolSpec Config PoolMaintenance PoolMoreSpec PoolFacts.

Lemma markSuccess_nextRetryAt jwt_exp now i :
  nextRetryAt (markSuccess jwt_exp now i) =
    if negb (status_eqb (status i) HEALTHY) && isAvailable jwt_exp i now
    then None else nextRetryAt i.
Proof.
  unfold markSuccess. cbn [status nextRetryAt].
  replace (isAvailable jwt_exp _ now) with (isAvailable jwt_exp i now)
    by reflexivity.
  destruct (negb (status_eqb (status i) HEALTHY) && isAvailable jwt_exp i now);
    reflexivity.
Qed.

(** The token clauses of [isAvailable]. *)
Lemma isAvailable_after_cool_down jwt_exp i now :
  status i <> DOWN -> cooled_down i now ->
  (isAvailable jwt_exp i now = true <-> holds_valid_token jwt_exp i now).
Proof.
  intros Hs Hc. rewrite isAvailable_spec. tauto.
Qed.

(** X4. The circuit breaker. A failure that leaves the counter below 3
    does not change availability. A failure that brings the counter to 3 or
    4 makes the identity unavailable until two minutes after the failure;
    from then on it is available exactly when it holds an unexpired token.
    A failure that brings the counter to 5 or more makes it unavailable at
    every time. *)
Theorem X4_failure_opens_a_cool_down_window
        (jwt_exp : jsstring -> option Z) (error : option jsstring)
        (t : Z) (i : Identity) (now : Z) :
  (0 <= t)%Z ->
  let i' := markFailure error t i in
  ((failCount i + 1 < 3)%Z ->
     isAvailable jwt_exp i' now = isAvailable jwt_exp i now)
  /\ ((3 <= failCount i + 1 < 5)%Z ->
        ((now < t + 2 * 60 * 1000)%Z -> isAvailable jwt_exp i' now = false)
        /\ ((t + 2 * 60 * 1000 <= now)%Z ->
            (isAvailable jwt_exp i' now = true
             <-> holds_valid_token jwt_exp i now)))
  /\ ((5 <= failCount i + 1)%Z -> isAvailable jwt_exp i' now = false).
Proof.
  intros Ht i'. subst i'.
  split; [| split].
  - intros Hlt. unfold markFailure.
    destruct (5 <=? failCount i + 1)%Z eqn:E5; [apply Z.leb_le in E5; lia |].
    destruct (3 <=? failCount i + 1)%Z eqn:E3; [apply Z.leb_le in E3; lia |].
    reflexivity.
  - intros [H3 H5].
    assert (status (markFailure error t i) = DEGRADED) as Hst.
    { rewrite markFailure_status.
      destruct (5 <=? failCount i + 1)%Z eqn:E5; [apply Z.leb_le in E5; lia |].
      destruct (3 <=? failCount i + 1)%Z eqn:E3; [reflexivity |].
      apply Z.leb_gt in E3. lia. }
    assert (nextRetryAt (markFailure error t i) = Some (t + 120000)%Z) as Hr.
    { rewrite markFailure_nextRetryAt.
      destruct (5 <=? failCount i + 1)%Z eqn:E5; [apply Z.leb_le in E5; lia |].
      destruct (3 <=? failCount i + 1)%Z eqn:E3; [reflexivity |].
      apply Z.leb_gt in E3. lia. }
    assert (token (markFailure error t i) = token i) as Htok.
    { unfold markFailure.
      destruct (5 <=? failCount i + 1)%Z; [reflexivity |].
      destruct (3 <=? failCount i + 1)%Z; reflexivity. }
    split.
    + intros Hnow.
      destruct (isAvailable jwt_exp (markFailure error t i) now) eqn:Ha;
        [| reflexivity].
      apply isAvailable_spec in Ha as (_ & Hc & _).
      specialize (Hc _ Hr). lia.
    + intros Hnow. rewrite isAvailable_after_cool_down.
      * unfold holds_valid_token. rewrite Htok. reflexivity.
      * rewrite Hst. discriminate.
      * intros t' Ht' _. rewrite Hr in Ht'. injection Ht' as <-. lia.
  - intros H5. apply isAvailable_down. rewrite markFailure_status.
    destruct (5 <=? failCount i + 1)%Z eqn:E5; [reflexivity |].
    apply Z.leb_gt in E5. lia.
Qed.

Lemma X4_witness :
  isAvailable expires_2100
    (markFailure None t0 (markFailure None t0 (markFailure None t0 holder)))
    (t0 + 119999) = false
  /\ isAvailable expires_2100
       (markFailure None t0 (markFailure None t0 (markFailure None t0 holder)))
       (t0 + 120000) = true.
Proof.
  split.
  - pose proof (X4_failure_opens_a_cool_down_window expires_2100 None t0
                  (markFailure None t0 (markFailure None t0 holder))
                  (t0 + 119999)%Z ltac:(vm_compute; discriminate)) as H.
    cbv zeta in H. destruct H as (_ & H & _).
    apply H; [vm_compute; split; [discriminate | reflexivity] | reflexivity].
  - pose proof (X4_failure_opens_a_cool_down_window expires_2100 None t0
                  (markFailure None t0 (markFailure None t0 holder))
                  (t0 + 120000)%Z ltac:(vm_compute; discriminate)) as H.
    cbv zeta in H. destruct H as (_ & H & _).
    apply H; [vm_compute; split; [discriminate | reflexivity]
             | vm_compute; discriminate |].
    exists (js "token-A"). repeat split; discriminate.
Defined.

(** *** Round-robin over any number of identities *)

Lemma rotation_lookup {A} (l : list A) (k j : nat) :
  k < length l -> j < length l ->
  (drop k l ++ take k l) !! j = l !! ((k + j) mod length l).
Proof.
  intros Hk Hj.
  destruct (Nat.lt_ge_cases (k + j) (length l)) as [Hlt | Hge].
  - rewrite Nat.mod_small by exact Hlt.
    rewrite lookup_app_l by (rewrite length_drop; lia).
    apply lookup_drop.
  - rewrite lookup_app_r by (rewrite length_drop; lia).
    rewrite length_drop.
    rewrite lookup_take_lt by lia.
    f_equal.
    apply Nat.mod_unique with (q := 1); lia.
Qed.

Lemma select_each_lookup jwt_exp (avail : list nat) init calls :
  avail <> [] ->
  Forall (fun call =>
            refs_where (fun i => isAvailable jwt_exp i (snd call)) 0 (fst call)
            = avail) calls ->
  forall cursor j,
    j < length calls ->
    select_each jwt_exp cursor init calls !! j
    = Some (avail !! ((cursor + j) mod length avail)).
Proof.
  intros Hne Hall. induction Hall as [| [ids now] rest Hcall _ IH];
    intros cursor j Hj; [simpl in Hj; lia |].
  cbn [select_each]. cbn [fst snd] in Hcall.
  assert (refs_where (fun i => isAvailable jwt_exp i now) 0
            (identities (mkPool ids cursor init)) <> []) as Hne'.
  { cbn [identities]. rewrite Hcall. exact Hne. }
  destruct (available_selected jwt_exp _ now Hne') as (r & Hr & Hsel).
  cbn [identities currentIndex initialized] in Hr, Hsel.
  rewrite Hcall in Hr, Hsel. rewrite Hsel.
  destruct j as [| j'].
  - cbn [lookup list_lookup]. rewrite Nat.add_0_r. rewrite Hr. reflexivity.
  - cbn [lookup list_lookup currentIndex].
    change (select_each jwt_exp ((cursor + 1) mod length avail) init rest !! j'
            = Some (avail !! ((cursor + S j') mod length avail))).
    rewrite IH by (simpl in Hj; lia).
    do 2 f_equal.
    rewrite Nat.Div0.add_mod_idemp_l. f_equal. lia.
Qed.

(** X5. Round-robin over any number of identities. While the available
    identities are the same list at every call (the identities themselves
    may change between calls), the call number [j] returns the available
    identity at position [(cursor + j) mod n], and [n] consecutive calls
    return the list of available identities rotated: every available
    identity exactly once. *)
Theorem X5_round_robin_visits_every_available_identity
        (jwt_exp : jsstring -> option Z) (avail : list nat)
        (cursor : nat) (init : bool) (calls : list (list Identity * Z)) :
  avail <> [] ->
  Forall (fun call =>
            refs_where (fun i => isAvailable jwt_exp i (snd call)) 0 (fst call)
            = avail) calls ->
  (forall j, j < length calls ->
     select_each jwt_exp cursor init calls !! j
     = Some (avail !! ((cursor + j) mod length avail)))
  /\ (length calls = length avail ->
      select_each jwt_exp cursor init calls
      = map Some (drop (cursor mod length avail) avail
                  ++ take (cursor mod length avail) avail)).
Proof.
  intros Hne Hall.
  pose proof (select_each_lookup jwt_exp avail init calls Hne Hall) as Hlook.
  split; [intros j Hj; apply Hlook; exact Hj |].
  intros Hlen.
  assert (0 < length avail) as Hpos by (destruct avail; [congruence | simpl; lia]).
  assert (length (select_each jwt_exp cursor init calls) = length calls) as Hlen'.
  { clear. revert cursor. induction calls as [| [ids now] rest IH]; intros cursor;
      [reflexivity |].
    cbn [select_each].
    destruct (getAvailableIdentity jwt_exp (mkPool ids cursor init) now) as [r p].
    simpl. rewrite IH. reflexivity. }
  apply list_eq. intros j.
  destruct (Nat.lt_ge_cases j (length calls)) as [Hj | Hj].
  - rewrite Hlook by exact Hj.
    rewrite list_lookup_fmap.
    rewrite rotation_lookup
      by (try apply Nat.mod_upper_bound; lia).
    rewrite Nat.Div0.add_mod_idemp_l.
    destruct (avail !! ((cursor + j) mod length avail)) eqn:E; [reflexivity |].
    apply lookup_ge_None in E.
    pose proof (Nat.mod_upper_bound (cursor + j) (length avail)). lia.
  - rewrite (proj2 (lookup_ge_None _ _)) by lia.
    symmetry. apply lookup_ge_None.
    rewrite length_fmap, length_app, length_drop, length_take. lia.
Qed.

Lemma X5_witness :
  select_each expires_2100 4 true
    [([holder; new_Identity (js "identity-2") (js "cookie-B"); holder; holder], t0);
     ([holder; new_Identity (js "identity-2") (js "cookie-B"); holder; holder], t0);
     ([holder; new_Identity (js "identity-2") (js "cookie-B"); holder; holder], t0)]
  = map Some (drop (4 mod 3) [0; 2; 3] ++ take (4 mod 3) [0; 2; 3]).
Proof.
  apply (X5_round_robin_visits_every_available_identity expires_2100 [0; 2; 3]).
  - discriminate.
  - repeat constructor.
  - reflexivity.
Defined.

(** *** Invariants of an identity *)

Lemma apply_op_keeps jwt_exp o now i name c :
  well_formed jwt_exp i /\ id i = name /\ cookie i = c ->
  well_formed jwt_exp (apply_op jwt_exp o now i)
  /\ id (apply_op jwt_exp o now i) = name
  /\ cookie (apply_op jwt_exp o now i) = c.
Proof.
  intros ([Hf Ht] & Hid & Hc). unfold well_formed.
  destruct o as [error | | tok |]; cbn [apply_op].
  - rewrite markFailure_failCount. unfold markFailure.
    destruct (5 <=? failCount i + 1)%Z;
      [| destruct (3 <=? failCount i + 1)%Z];
      cbn [tokenExp token id cookie]; repeat split; try assumption; lia.
  - rewrite markSuccess_failCount. unfold markSuccess.
    match goal with |- context [if ?c && ?d then _ else _] => destruct (c && d) end;
      cbn [tokenExp token id cookie];
      (repeat split; try assumption);
      destruct (0 <? failCount i)%Z eqn:E; try apply Z.ltb_lt in E; lia.
  - unfold updateToken. cbn [failCount tokenExp token id cookie].
    repeat split; assumption.
  - repeat split; assumption.
Qed.

Lemma init_identity_well_formed jwt_exp name c result t :
  well_formed jwt_exp (init_identity jwt_exp name c result t)
  /\ id (init_identity jwt_exp name c result t) = name
  /\ cookie (init_identity jwt_exp name c result t) = c.
Proof.
  assert (forall e s,
            let i := markFailure e t (set_status s (new_Identity name c)) in
            well_formed jwt_exp i /\ id i = name /\ cookie i = c) as HF.
  { intros e s. cbv zeta. unfold well_formed. rewrite markFailure_failCount.
    unfold markFailure.
    destruct (5 <=? _)%Z; [| destruct (3 <=? _)%Z];
      cbn [tokenExp token id cookie set_status new_Identity failCount];
      repeat split; try reflexivity; lia. }
  unfold init_identity.
  destruct result as [newToken | error]; [destruct (nonempty newToken) |];
    try apply HF.
  unfold well_formed, updateToken.
  cbn [failCount tokenExp token id cookie new_Identity].
  repeat split; try reflexivity; lia.
Qed.

(** X6. Invariants of an identity of the pool. Whatever the outcome of the
    first token exchange and whatever methods are called afterwards, the
    failure counter is never negative, [tokenExp] is the expiry time of the
    token held ([null] without a token), and [id] and [cookie] never
    change. *)
Theorem X6_identity_invariants
        (jwt_exp : jsstring -> option Z) (name c : jsstring)
        (result : exchange) (t : Z) (history : list (op * Z)) :
  let i := apply_ops jwt_exp history (init_identity jwt_exp name c result t) in
  (0 <= failCount i)%Z
  /\ tokenExp i = match token i with
                  | Some tok => getTokenExpiryTime jwt_exp tok
                  | None => None
                  end
  /\ id i = name /\ cookie i = c.
Proof.
  cbv zeta.
  pose proof (init_identity_well_formed jwt_exp name c result t) as H.
  revert H. generalize (init_identity jwt_exp name c result t) as i.
  induction history as [| [o now] rest IH]; intros i H.
  - cbn [apply_ops]. unfold well_formed in H. tauto.
  - cbn [apply_ops]. apply IH. apply apply_op_keeps. exact H.
Qed.

(** *** [getPoolStatus] *)

Lemma status_counts jwt_exp (ids : list Identity) now :
  length (List.filter
            (fun i => status_eqb (status i) HEALTHY && isAvailable jwt_exp i now) ids)
  + length (List.filter (fun i => status_eqb (status i) DEGRADED) ids)
  + length (List.filter (fun i => status_eqb (status i) DOWN) ids)
  <= length ids.
Proof.
  induction ids as [| i rest IH]; [reflexivity |].
  cbn [List.filter].
  destruct (status i); cbn [status_eqb andb];
    try destruct (isAvailable jwt_exp i now); cbn [length]; lia.
Qed.

Lemma filter_positive {A} (f : A -> bool) (l : list A) :
  0 < length (List.filter f l) -> exists x, x ∈ l /\ f x = true.
Proof.
  induction l as [| a l IH]; cbn [List.filter]; [simpl; lia |].
  destruct (f a) eqn:E.
  - intros _. exists a. split; [left | exact E].
  - intros H. destruct (IH H) as (x & Hx & Hf). exists x. split; [right |]; assumption.
Qed.

(** X7. The counts of [getPoolStatus] never exceed the total, and when it
    reports a healthy identity, [getAvailableIdentity] returns at that time
    an identity that is available, not one of the fallback. *)
Theorem X7_pool_status_is_consistent_with_selection
        (jwt_exp : jsstring -> option Z) (p : Pool) (now : Z) :
  let s := getPoolStatus jwt_exp p now in
  total s = length (identities p)
  /\ healthy s + degraded s + down s <= total s
  /\ (0 < healthy s ->
      exists r i,
        fst (getAvailableIdentity jwt_exp p now) = Some r
        /\ identities p !! r = Some i
        /\ isAvailable jwt_exp i now = true).
Proof.
  cbv zeta. unfold getPoolStatus. cbn [total healthy degraded down].
  split; [reflexivity |]. split; [apply status_counts |].
  intros Hpos. apply filter_positive in Hpos as (x & Hx & Hf).
  apply andb_true_iff in Hf as [_ Hav].
  assert (refs_where (fun i => isAvailable jwt_exp i now) 0 (identities p) <> [])
    as Hne.
  { intros Hnil. rewrite refs_where_nil in Hnil.
    rewrite (Hnil x Hx) in Hav. discriminate. }
  destruct (available_selected jwt_exp p now Hne) as (r & Hr & Hsel).
  assert (r ∈ refs_where (fun i => isAvailable jwt_exp i now) 0 (identities p))
    as Hin by (eapply list_elem_of_lookup_2; exact Hr).
  apply refs_where_0 in Hin as (i & Hi & Ha).
  exists r, i. rewrite Hsel. repeat split; assumption.
Qed.

(** *** [initialize] *)

Lemma select_none_iff jwt_exp p now :
  fst (getAvailableIdentity jwt_exp p now) = None
  <-> forall i, i ∈ identities p -> truthy_token (token i) = false.
Proof.
  rewrite <- refs_where_nil. unfold getAvailableIdentity.
  destruct (identities p) as [| x rest] eqn:Hids; [simpl; tauto |].
  destruct (refs_where (fun i => isAvailable jwt_exp i now) 0 (x :: rest))
    as [| a l] eqn:Hav.
  - destruct (refs_where (fun i => truthy_token (token i)) 0 (x :: rest))
      as [| b m] eqn:Hh; [cbn [fst]; tauto |].
    destruct (lookup_mod_some (b :: m) (currentIndex p)) as [r Hr]; [congruence |].
    rewrite Hr. cbn [fst]. split; discriminate.
  - destruct (lookup_mod_some (a :: l) (currentIndex p)) as [r Hr]; [congruence |].
    rewrite Hr. cbn [fst]. split; [discriminate |].
    intros Hnil.
    assert (a ∈ refs_where (fun i => isAvailable jwt_exp i now) 0 (x :: rest))
      as Hin by (rewrite Hav; left).
    apply refs_where_0 in Hin as (i & Hi & Ha).
    apply isAvailable_spec in Ha as (_ & _ & tok & Htok & Hne & _).
    assert (a ∈ refs_where (fun i => truthy_token (token i)) 0 (x :: rest)) as Hin2.
    { apply refs_where_0. exists i. split; [exact Hi |].
      rewrite Htok. destruct tok; [congruence | reflexivity]. }
    rewrite Hnil in Hin2. inversion Hin2.
Qed.

Lemma init_identity_token jwt_exp name c result t :
  truthy_token (token (init_identity jwt_exp name c result t)) = refreshed result.
Proof.
  unfold init_identity, refreshed.
  destruct result as [newToken | error]; [| reflexivity].
  destruct newToken; reflexivity.
Qed.

(** X8. [initialize] on a new pool creates one identity per cookie and runs
    once: every later call leaves the pool as it is. After it,
    [getAvailableIdentity] returns [null] exactly when no cookie could be
    exchanged for a token. *)
Theorem X8_initialize_runs_once_and_selection_needs_one_token
        (jwt_exp : jsstring -> option Z)
        (cookies : list (jsstring * exchange)) (t now : Z) :
  let p := initialize jwt_exp cookies t new_Pool in
  initialized p = true
  /\ length (identities p) = length cookies
  /\ (forall cookies' t', initialize jwt_exp cookies' t' p = p)
  /\ (fst (getAvailableIdentity jwt_exp p now) = None
      <-> Forall (fun cr => refreshed (snd cr) = false) cookies).
Proof.
  cbv zeta. unfold initialize at 1 2 4. cbn [initialized new_Pool].
  destruct cookies as [| cr rest].
  { cbn. repeat split; try reflexivity; constructor. }
  set (ids := imap _ (cr :: rest)).
  cbn [initialized identities].
  split; [reflexivity |].
  split; [subst ids; apply length_imap |].
  split; [intros cookies' t'; reflexivity |].
  fold (initialize jwt_exp (cr :: rest) t new_Pool).
  rewrite select_none_iff.
  unfold initialize. cbn [initialized new_Pool identities]. fold ids.
  rewrite Forall_forall. split.
  - intros H [c result] Hin. cbn [snd].
    apply list_elem_of_lookup in Hin as [k Hk].
    specialize (H (init_identity jwt_exp
                     (js "identity-" ++ decimal (N.of_nat (k + 1))) c result t)).
    rewrite init_identity_token in H. apply H.
    apply list_elem_of_lookup. exists k. subst ids.
    rewrite list_lookup_imap. rewrite Hk. reflexivity.
  - intros H i Hi. apply list_elem_of_lookup in Hi as [k Hk]. subst ids.
    rewrite list_lookup_imap in Hk.
    destruct ((cr :: rest) !! k) as [[c result] |] eqn:E; [| discriminate].
    cbn in Hk. injection Hk as <-. rewrite init_identity_token.
    apply (H (c, result)). apply list_elem_of_lookup. exists k. exact E.
Qed.

(** *** [refreshIdentityToken] and [refreshExpiredTokens] *)

Lemma refresh_one_fresh jwt_exp result finished now i :
  fresh jwt_exp i now -> refresh_one jwt_exp result finished now i = (false, i).
Proof.
  intros (tok & Htok & Hne & Hexp & Hrem). unfold refresh_one.
  rewrite Htok. cbn [default from_option]. unfold Datatypes.id.
  destruct tok as [| c tok']; [congruence |]. cbn [truthy_token nonempty negb orb].
  rewrite Hexp. apply Z.ltb_ge in Hrem. rewrite Hrem. reflexivity.
Qed.

Lemma refreshIdentityToken_keeps jwt_exp result finished i :
  id (refreshIdentityToken jwt_exp result finished i) = id i
  /\ cookie (refreshIdentityToken jwt_exp result finished i) = cookie i.
Proof.
  assert (forall e j, id (markFailure e finished j) = id j
                      /\ cookie (markFailure e finished j) = cookie j) as HF.
  { intros e j. unfold markFailure.
    destruct (5 <=? failCount j + 1)%Z; [split; reflexivity |].
    destruct (3 <=? failCount j + 1)%Z; split; reflexivity. }
  unfold refreshIdentityToken. destruct result as [newToken | error]; [| apply HF].
  destruct (nonempty newToken); [| apply HF].
  unfold markSuccess.
  match goal with |- context [if ?c && ?d then _ else _] => destruct (c && d) end;
    split; reflexivity.
Qed.

Lemma refresh_one_keeps jwt_exp result finished now i :
  id (snd (refresh_one jwt_exp result finished now i)) = id i
  /\ cookie (snd (refresh_one jwt_exp result finished now i)) = cookie i.
Proof.
  unfold refresh_one.
  destruct (_ || _); [apply refreshIdentityToken_keeps |].
  destruct (_ <? _)%Z; [apply refreshIdentityToken_keeps | split; reflexivity].
Qed.

(** X9. [refreshExpiredTokens] keeps the identities in place, with their
    [id] and [cookie], and the cursor; it counts at most one refresh per
    identity; and it leaves untouched every identity whose token is valid for
    at least one more day. *)
Theorem X9_refresh_spares_tokens_valid_for_a_day
        (jwt_exp : jsstring -> option Z) (outcomes : nat -> exchange * Z)
        (now : Z) (p : Pool) :
  let n := fst (refreshExpiredTokens jwt_exp outcomes now p) in
  let p' := snd (refreshExpiredTokens jwt_exp outcomes now p) in
  length (identities p') = length (identities p)
  /\ currentIndex p' = currentIndex p
  /\ initialized p' = initialized p
  /\ n <= length (identities p)
  /\ (forall k i, identities p !! k = Some i ->
        exists i', identities p' !! k = Some i'
                   /\ id i' = id i /\ cookie i' = cookie i
                   /\ (fresh jwt_exp i now -> i' = i)).
Proof.
  cbv zeta. unfold refreshExpiredTokens. cbn [fst snd identities currentIndex initialized].
  split; [rewrite length_fmap, length_imap; reflexivity |].
  split; [reflexivity |]. split; [reflexivity |].
  split.
  { etransitivity; [apply List.filter_length_le |].
    rewrite length_imap. reflexivity. }
  intros k i Hk.
  exists (snd (refresh_one jwt_exp (fst (outcomes k)) (snd (outcomes k)) now i)).
  split.
  { rewrite list_lookup_fmap, list_lookup_imap, Hk. reflexivity. }
  split; [apply refresh_one_keeps |]. split; [apply refresh_one_keeps |].
  intros Hfresh. rewrite refresh_one_fresh by exact Hfresh. reflexivity.
Qed.

(** X10. A successful token refresh restores an identity that is not down
    and past its cool-down: with a new token that has not expired, the identity
    is healthy, holds the new token and is available. During the cool-down
    the same refresh leaves the identity unavailable. *)
Theorem X10_successful_refresh_restores_the_identity
        (jwt_exp : jsstring -> option Z) (tok : jsstring) (now : Z)
        (i : Identity) :
  tok <> [] ->
  isTokenExpired jwt_exp tok now = false ->
  status i <> DOWN ->
  let i' := refreshIdentityToken jwt_exp (Exchanged tok) now i in
  token i' = Some tok
  /\ tokenExp i' = getTokenExpiryTime jwt_exp tok
  /\ (cooled_down i now ->
      status i' = HEALTHY /\ isAvailable jwt_exp i' now = true)
  /\ (~ cooled_down i now ->
      status i' = status i /\ isAvailable jwt_exp i' now = false).
Proof.
  intros Hne Hexp Hst. cbv zeta. unfold refreshIdentityToken.
  destruct tok as [| c tok']; [congruence |]. cbn [nonempty].
  set (tok := c :: tok') in *.
  set (j := updateToken jwt_exp tok i).
  assert (token j = Some tok /\ tokenExp j = getTokenExpiryTime jwt_exp tok
          /\ status j = status i /\ nextRetryAt j = nextRetryAt i)
    as (Hjt & Hje & Hjs & Hjr) by (repeat split; reflexivity).
  assert (holds_valid_token jwt_exp j now) as Hv.
  { exists tok. split; [exact Hjt |]. split; [discriminate | exact Hexp]. }
  assert (token (markSuccess jwt_exp now j) = Some tok
          /\ tokenExp (markSuccess jwt_exp now j) = getTokenExpiryTime jwt_exp tok)
    as [Ht He].
  { unfold markSuccess.
    match goal with |- context [if ?c && ?d then _ else _] => destruct (c && d) end;
      split; assumption. }
  split; [exact Ht |]. split; [exact He |].
  split.
  - intros Hc.
    assert (isAvailable jwt_exp j now = true) as Haj.
    { apply isAvailable_spec. rewrite Hjs. unfold cooled_down. rewrite Hjr.
      repeat split; assumption. }
    assert (status (markSuccess jwt_exp now j) = HEALTHY) as Hh.
    { rewrite markSuccess_status, Haj.
      destruct (status_eqb (status j) HEALTHY) eqn:E; [| reflexivity].
      apply status_eqb_eq in E. exact E. }
    split; [exact Hh |].
    apply isAvailable_spec. split; [rewrite Hh; discriminate |].
    split.
    + unfold cooled_down. rewrite markSuccess_nextRetryAt, Haj.
      destruct (negb (status_eqb (status j) HEALTHY)) eqn:E; cbn [andb].
      * intros t' Ht'. discriminate.
      * rewrite Hjr. exact Hc.
    + exists tok. split; [exact Ht |]. split; [discriminate | exact Hexp].
  - intros Hc.
    assert (isAvailable jwt_exp j now = false) as Haj.
    { destruct (isAvailable jwt_exp j now) eqn:E; [| reflexivity].
      apply isAvailable_spec in E as (_ & Hc' & _).
      exfalso. apply Hc. unfold cooled_down in *. rewrite <- Hjr. exact Hc'. }
    assert (status (markSuccess jwt_exp now j) = status i) as Hs.
    { rewrite markSuccess_status, Haj, andb_false_r. exact Hjs. }
    split; [exact Hs |].
    destruct (isAvailable jwt_exp (markSuccess jwt_exp now j) now) eqn:E;
      [| reflexivity].
    apply isAvailable_spec in E as (_ & Hc' & _).
    exfalso. apply Hc. unfold cooled_down in *.
    assert (nextRetryAt (markSuccess jwt_exp now j) = nextRetryAt i) as Hr.
    { rewrite markSuccess_nextRetryAt, Haj, andb_false_r. exact Hjr. }
    rewrite <- Hr. exact Hc'.
Qed.

Lemma X10_witness :
  let i' := refreshIdentityToken expires_2100 (Exchanged (js "token-B")) (t0 + 120000)
              (markFailure None t0 (markFailure None t0 (markFailure None t0 holder))) in
  status i' = HEALTHY /\ isAvailable expires_2100 i' (t0 + 120000) = true.
Proof.
  cbv zeta.
  apply (X10_successful_refresh_restores_the_identity expires_2100 (js "token-B")
           (t0 + 120000)
           (markFailure None t0 (markFailure None t0 (markFailure None t0 holder)))).
  - discriminate.
  - reflexivity.
  - discriminate.
  - intros t' Ht' _. vm_compute in Ht'. injection Ht' as <-. discriminate.
Defined.

End PoolMoreFacts.

(* ===================================================================== *)
(** ** The stream transformer: buffer bound, frames, plain text, chunking *)
(* ===================================================================== *)

Module TransformerMoreFacts.

Import Transformer Samples TransformerSpec TransformerMoreSpec TransformerFacts.

(** *** The buffer stays within the cap *)

Lemma jslength_from (s : jsstring) :
  forall a, fold_left (fun n _ => N.succ n) s a = (a + N.of_nat (length s))%N.
Proof.
  induction s as [| c s IH]; intros a; cbn [fold_left length].
  - lia.
  - rewrite IH. lia.
Qed.

Lemma jslength_length (s : jsstring) : jslength s = N.of_nat (length s).
Proof. unfold jslength. rewrite jslength_from. lia. Qed.

Lemma split_from_pieces (sep s : jsstring) :
  forall skip cur piece,
    piece ∈ split_from sep s skip cur -> length piece <= length cur + length s.
Proof.
  induction s as [| c s IH]; intros skip cur piece Hin; cbn [split_from] in Hin.
  - apply list_elem_of_singleton in Hin. subst piece.
    rewrite length_rev. simpl. lia.
  - destruct skip as [| k].
    + destruct (startsWith (c :: s) sep).
      * apply elem_of_cons in Hin as [-> | Hin].
        -- rewrite length_rev. lia.
        -- apply IH in Hin. simpl in *. lia.
      * apply IH in Hin. simpl in *. lia.
    + apply IH in Hin. simpl. lia.
Qed.

Lemma last_length_le (sep s : jsstring) :
  length (default [] (last (split s sep))) <= length s.
Proof.
  destruct (last (split s sep)) as [x |] eqn:E; [| simpl; lia].
  cbn [default from_option]. unfold Datatypes.id.
  apply last_Some in E as [l' E].
  assert (x ∈ split s sep) as Hin by (rewrite E; set_solver).
  apply split_from_pieces in Hin. simpl in Hin. exact Hin.
Qed.

Lemma take_lines_rest (buf : jsstring) :
  length (snd (take_lines buf)) <= length buf.
Proof.
  unfold take_lines, pop.
  destruct (includes buf (js (String "010" (String "010" "")))).
  { cbn [snd]. apply last_length_le. }
  destruct (includes buf (js (String "010" ""))); [| reflexivity].
  destruct (_ && _); cbn [snd]; [apply last_length_le | simpl; lia].
Qed.

Lemma transform_raw_within_cap (st : state) (raw : jsstring) :
  within_cap (fst (transform_raw st raw)).
Proof.
  unfold within_cap, transform_raw, MAX_BUFFER_SIZE.
  destruct (N.ltb _ _) eqn:Hcap; [cbn; lia |].
  destruct (includes _ _); [cbn; lia |].
  pose proof (take_lines_rest (buffer st ++ raw)) as Hrest.
  destruct (take_lines _) as [lines rest].
  destruct (process_lines _ lines) as [urls out].
  cbn [fst snd buffer] in *.
  apply N.ltb_ge in Hcap. rewrite jslength_length in *. lia.
Qed.

(** X11. The buffer of the transformer never holds more than
    [MAX_BUFFER_SIZE] code units at the end of a call of [transform],
    whatever the state before and the chunk; so it is within the cap after
    every chunk of every stream. *)
Theorem X11_buffer_stays_within_the_cap :
  (forall (st : state) (chunk : list N), within_cap (fst (transform st chunk)))
  /\ (forall (chunks : list (list N)), within_cap (fst (run initial chunks))).
Proof.
  assert (forall st chunk, within_cap (fst (transform st chunk))) as Hone.
  { intros st chunk. apply transform_raw_within_cap. }
  split; [exact Hone |].
  assert (forall chunks st, within_cap st -> within_cap (fst (run st chunks))) as Hrun.
  { induction chunks as [| chunk rest IH]; intros st Hst; [exact Hst |].
    cbn [run]. specialize (Hone st chunk).
    destruct (transform st chunk) as [st1 out1]. specialize (IH st1 Hone).
    destruct (run st1 rest) as [st2 out2]. exact IH. }
  intros chunks. apply Hrun. unfold within_cap, MAX_BUFFER_SIZE. cbn. lia.
Qed.

(** *** No empty content chunk *)

Lemma quiet_bind {A B} (m : M A) (k : A -> M B) :
  quiet m -> (forall a, quiet (k a)) -> quiet (bind m k).
Proof.
  intros Hm Hk l Hl. unfold bind.
  specialize (Hm l Hl). destruct (m l) as [[a | |] l']; cbn [snd] in *;
    [| exact Hm | exact Hm].
  apply (Hk a l' Hm).
Qed.

Lemma quiet_ret {A} (a : A) : quiet (ret a).
Proof. intros l H. exact H. Qed.
Lemma quiet_throw {A} : quiet (@throw A).
Proof. intros l H. exact H. Qed.
Lemma quiet_continue {A} : quiet (@continue A).
Proof. intros l H. exact H. Qed.
Lemma quiet_lift {A} (o : option A) : quiet (lift o).
Proof. destruct o; intros l H; exact H. Qed.
Lemma quiet_read_content : quiet read_content.
Proof. intros l H. exact H. Qed.
Lemma quiet_read_isFinished : quiet read_isFinished.
Proof. intros l H. exact H. Qed.
Lemma quiet_set_content c : quiet (set_content c).
Proof. intros l H. exact H. Qed.
Lemma quiet_set_isFinished b : quiet (set_isFinished b).
Proof. intros l H. exact H. Qed.
Lemma quiet_push_error e : quiet (push (ErrorChunk e)).
Proof.
  intros l H. cbn [push snd pushed]. apply Forall_app. split; [exact H |].
  repeat constructor.
Qed.
Lemma quiet_push_done : quiet (push Done).
Proof.
  intros l H. cbn [push snd pushed]. apply Forall_app. split; [exact H |].
  repeat constructor.
Qed.
Lemma quiet_dedup u : quiet (dedup u).
Proof.
  intros l H. unfold dedup. destruct (bool_decide (u ∈ sent l)); exact H.
Qed.
Lemma quiet_when b m : quiet m -> quiet (when b m).
Proof. intros H. destruct b; [exact H | apply quiet_ret]. Qed.

#[local] Hint Resolve quiet_ret quiet_throw quiet_continue quiet_lift
  quiet_read_content quiet_read_isFinished quiet_set_content
  quiet_set_isFinished quiet_push_error quiet_push_done quiet_dedup
  quiet_when : quiet.

Lemma quiet_try_block dataStr : quiet (try_block dataStr).
Proof.
  unfold try_block, choices_branch, content_branch, result_branch.
  unfold mbind, M_bind. cbv beta. quiet_with (@quiet_bind) (@quiet_when).
Qed.

Lemma not_chunk_informative (fs : list frame) :
  Forall not_chunk fs -> Forall informative fs.
Proof.
  intros H. eapply Forall_impl; [exact H |].
  intros [| c stop | e]; simpl; tauto.
Qed.

Lemma process_record_informative urls dataStr :
  Forall informative (snd (process_record urls dataStr)).
Proof.
  unfold process_record.
  pose proof (quiet_try_block dataStr (mkLocals (JStr []) false urls [])
                (List.Forall_nil _)) as H.
  destruct (try_block dataStr _) as [o l]. cbn [snd] in H.
  apply not_chunk_informative in H.
  unfold finish_record.
  assert (forall c, Forall informative
                      (pushed l ++ if truthy c || isFinished l
                                   then [Chunk c (isFinished l)] else [])) as Hc.
  { intros c. apply Forall_app. split; [exact H |].
    destruct (truthy c || isFinished l) eqn:E; [| constructor].
    constructor; [| constructor]. cbn [informative].
    apply orb_true_iff. exact E. }
  destruct o; cbn [snd]; [apply Hc | apply Hc | exact H].
Qed.

Lemma process_line_informative urls line :
  Forall informative (snd (process_line urls line)).
Proof.
  unfold process_line. destruct (dataStr_of line) as [d |]; [| constructor].
  destruct (eqb d (js "[DONE]")); [repeat constructor |].
  apply process_record_informative.
Qed.

Lemma process_lines_informative lines :
  forall urls, Forall informative (snd (process_lines urls lines)).
Proof.
  induction lines as [| line rest IH]; intros urls; [constructor |].
  rewrite process_lines_cons. cbn [snd]. apply Forall_app. split.
  - apply process_line_informative.
  - apply IH.
Qed.

Lemma transform_informative st chunk :
  Forall informative (snd (transform st chunk)).
Proof.
  unfold transform, transform_raw.
  destruct (N.ltb _ _); [constructor |].
  destruct (includes _ _); [repeat constructor |].
  destruct (take_lines _) as [lines rest].
  pose proof (process_lines_informative lines (sentImageUrls st)) as H.
  destruct (process_lines _ lines) as [urls out]. exact H.
Qed.

(** X12. The transformer never pushes an empty content chunk: in the
    frames of any stream, from any state, every content chunk has a truthy
    content or is the finishing chunk. *)
Theorem X12_every_content_chunk_is_informative
        (st : state) (chunks : list (list N)) :
  Forall informative (snd (run st chunks)).
Proof.
  revert st. induction chunks as [| chunk rest IH]; intros st; [constructor |].
  cbn [run]. pose proof (transform_informative st chunk) as H.
  destruct (transform st chunk) as [st1 out1]. specialize (IH st1).
  destruct (run st1 rest) as [st2 out2]. cbn [snd] in *.
  apply Forall_app. split; assumption.
Qed.

(** *** Text that is not JSON *)

Lemma dataStr_of_nonempty line d : dataStr_of line = Some d -> nonempty d = true.
Proof.
  unfold dataStr_of. destruct (_ || _); [discriminate |].
  match goal with |- context [if nonempty ?x then _ else _] =>
    destruct (nonempty x) eqn:E end; [| discriminate].
  intros H. injection H as <-. exact E.
Qed.

(** The [catch] clause for a record that is not JSON. *)
Lemma process_line_not_json
      (urls : gset jsstring) (line d : jsstring) :
  dataStr_of line = Some d ->
  eqb d (js "[DONE]") = false ->
  JSON_parse d = None ->
  process_line urls line
  = (urls, if startsWith d (js "{") then [] else [Chunk (JStr d) false]).
Proof.
  intros Hd Hdone Hparse. unfold process_line. rewrite Hd, Hdone.
  unfold process_record, try_block. unfold mbind, M_bind. cbv beta.
  rewrite Hparse. cbn [lift bind throw finish_record sent pushed content isFinished].
  destruct (startsWith d (js "{")); cbn [negb truthy orb app].
  - reflexivity.
  - rewrite (dataStr_of_nonempty _ _ Hd). reflexivity.
Qed.

(** *** One record per chunk *)

Lemma startsWith_refl (p : jsstring) : forall t, startsWith (p ++ t) p = true.
Proof.
  induction p as [| a p IH]; intros t; [reflexivity |].
  cbn [app startsWith]. rewrite N.eqb_refl. apply IH.
Qed.

Lemma includes_app_r (a p : jsstring) : includes (a ++ p) p = true.
Proof.
  induction a as [| c a IH].
  - cbn [app]. destruct p as [| x p']; [reflexivity |].
    cbn [includes]. rewrite <- (app_nil_r (x :: p')) at 1.
    rewrite startsWith_refl. reflexivity.
  - cbn [app includes]. rewrite IH. apply orb_true_r.
Qed.

Lemma startsWith_app_other (p : jsstring) (c : jschar) :
  Forall (fun a => N.eqb a c = false) p ->
  forall s t, p <> [] -> startsWith (s ++ c :: t) p = startsWith s p.
Proof.
  induction 1 as [| a p Ha _ IH]; intros s t Hne; [congruence |].
  destruct s as [| b s]; cbn [app startsWith].
  - rewrite Ha. reflexivity.
  - destruct p as [| a' p'].
    + reflexivity.
    + rewrite IH by discriminate. reflexivity.
Qed.

Lemma includes_app_blank (p s : jsstring) (c : jschar) :
  Forall (fun a => N.eqb a c = false) p -> p <> [] ->
  includes (s ++ [c; c]) p = includes s p.
Proof.
  intros Hp Hne. induction s as [| b s IH].
  - destruct p as [| a p']; [congruence |].
    apply Forall_cons in Hp as [Ha _].
    cbn [app includes startsWith]. rewrite Ha. reflexivity.
  - cbn [app includes].
    change (b :: (s ++ [c; c])) with ((b :: s) ++ c :: [c]).
    rewrite startsWith_app_other by assumption.
    rewrite IH. reflexivity.
Qed.

Lemma split_record (line : jsstring) :
  Forall (fun c => c <> 10%N) line ->
  forall cur, split_from blank (line ++ blank) 0 cur = [rev cur ++ line; []].
Proof.
  induction 1 as [| c line Hc _ IH]; intros cur.
  - cbn. rewrite app_nil_r. reflexivity.
  - cbn [app split_from].
    assert (startsWith (c :: line ++ blank) blank = false) as ->.
    { unfold blank. cbn [startsWith].
      destruct (N.eqb_spec 10 c); [congruence | reflexivity]. }
    rewrite IH. cbn [rev]. rewrite <- app_assoc. reflexivity.
Qed.

Lemma take_lines_record (line : jsstring) :
  Forall (fun c => c <> 10%N) line -> take_lines (line ++ blank) = ([line], []).
Proof.
  intros H. unfold take_lines.
  change (js (String "010" (String "010" ""))) with blank.
  rewrite includes_app_r. unfold split. rewrite split_record by exact H.
  reflexivity.
Qed.

Lemma transform_record (urls : gset jsstring) (chunk : list N) (line : jsstring) :
  toString_utf8 chunk = line ++ blank ->
  plain_record line ->
  transform (mkState [] urls) chunk
  = (mkState [] (fst (process_line urls line)), snd (process_line urls line)).
Proof.
  intros Hdec (Hlf & Hdone & Hlen). unfold transform, transform_raw.
  rewrite Hdec. cbn [buffer app sentImageUrls].
  replace (N.ltb MAX_BUFFER_SIZE (jslength (line ++ blank))) with false.
  2:{ symmetry. apply N.ltb_ge. exact Hlen. }
  unfold blank at 1. rewrite includes_app_blank;
    [| repeat constructor | discriminate].
  rewrite Hdone. fold blank. rewrite take_lines_record by exact Hlf.
  cbn [process_lines]. destruct (process_line urls line) as [urls1 out1].
  cbn [fst snd]. rewrite app_nil_r. reflexivity.
Qed.

(** X14. When every chunk decodes to one line followed by a blank line,
    and the line holds no line feed and not the text of the terminal
    marker, the transformer treats the chunks as the lines one after the
    other: its frames are those of [process_lines], and its buffer is empty
    after every chunk. *)
Theorem X14_one_record_per_chunk
        (chunks : list (list N)) (lines : list jsstring) :
  Forall2 (fun chunk line => toString_utf8 chunk = line ++ blank) chunks lines ->
  Forall plain_record lines ->
  forall urls : gset jsstring,
    run (mkState [] urls) chunks
    = (mkState [] (fst (process_lines urls lines)),
       snd (process_lines urls lines)).
Proof.
  induction 1 as [| chunk line chunks lines Hdec _ IH]; intros Hplain urls.
  - reflexivity.
  - apply Forall_cons in Hplain as [Hline Hrest].
    cbn [run]. rewrite (transform_record urls chunk line Hdec Hline).
    rewrite (IH Hrest). rewrite process_lines_cons. reflexivity.
Qed.

Lemma X14_witness :
  run (mkState [] ∅)
      [quoted "data: {'choices':[{'delta':{'content':'late'}}]}" ++ blank;
       js "data: hello" ++ blank]
  = (mkState [] (fst (process_lines ∅
                        [quoted "data: {'choices':[{'delta':{'content':'late'}}]}";
                         js "data: hello"])),
     snd (process_lines ∅
            [quoted "data: {'choices':[{'delta':{'content':'late'}}]}";
             js "data: hello"])).
Proof.
  apply (X14_one_record_per_chunk
           [quoted "data: {'choices':[{'delta':{'content':'late'}}]}" ++ blank;
            js "data: hello" ++ blank]
           [quoted "data: {'choices':[{'delta':{'content':'late'}}]}";
            js "data: hello"]).
  - repeat constructor.
  - repeat constructor; vm_compute; try reflexivity; discriminate.
Defined.

End TransformerMoreFacts.

(* ===================================================================== *)
(** ** The collector of the non-streaming branch *)
(* ===================================================================== *)

Module CollectorFacts.

Import Collector CollectorSpec Samples.

Section WithNumbers.

Variable nt : jsnumber -> jsstring.

(** *** One line *)

Lemma resolve_with_remainder r st :
  resolve (with_remainder r st) = with_remainder r (resolve st).
Proof.
  destruct st as [rem c urls [v |]]; reflexivity.
Qed.

Lemma append_raw_with_remainder payload r st :
  append_raw payload (with_remainder r st)
  = with_remainder r (append_raw payload st).
Proof.
  unfold append_raw, with_remainder.
  destruct (nonempty payload && negb (startsWith payload (js "{"))); reflexivity.
Qed.

(** [on_line] copies [remainder] and does not read it. *)
Lemma on_line_with_remainder r st line :
  on_line nt (with_remainder r st) line
  = (with_remainder r (fst (on_line nt st line)), snd (on_line nt st line)).
Proof.
  unfold on_line.
  destruct (negb (nonempty (trim line))); [reflexivity |].
  destruct (eqb (trim line) (js "data: [DONE]")).
  { cbn [fst snd]. rewrite resolve_with_remainder. reflexivity. }
  destruct (startsWith (trim line) (js "data: ")); [| reflexivity].
  destruct (JSON_parse (drop 6 (trim line))) as [q |].
  - cbn [with_remainder sentImageUrls].
    destruct (pickContentFromQwen nt q (sentImageUrls st)) as [piece urls].
    destruct (truthy piece); [| reflexivity].
    destruct (JsText.ToString nt piece); [reflexivity |].
    cbn [fst snd]. rewrite <- append_raw_with_remainder. reflexivity.
  - cbn [fst snd]. rewrite append_raw_with_remainder. reflexivity.
Qed.

Lemma append_raw_resolved payload st :
  resolved (append_raw payload st) = resolved st.
Proof. unfold append_raw. destruct (_ && _); reflexivity. Qed.

(** [onData] returns from the loop exactly when the promise is resolved,
    and a resolved promise keeps its value. *)
Lemma on_line_resolved st line :
  (snd (on_line nt st line) = true -> fst (on_line nt st line) = resolve st)
  /\ (snd (on_line nt st line) = false ->
      resolved (fst (on_line nt st line)) = resolved st)
  /\ (forall v, resolved st = Some v ->
      resolved (fst (on_line nt st line)) = Some v).
Proof.
  assert (forall v, resolved st = Some v -> resolved (resolve st) = Some v) as Hres.
  { intros v Hv. unfold resolve. rewrite Hv. exact Hv. }
  unfold on_line.
  destruct (negb (nonempty (trim line)));
    [cbn; repeat split; try discriminate; auto |].
  destruct (eqb (trim line) (js "data: [DONE]"));
    [cbn [fst snd]; repeat split; try discriminate; auto |].
  destruct (startsWith (trim line) (js "data: "));
    [| cbn; repeat split; try discriminate; auto].
  destruct (JSON_parse (drop 6 (trim line))) as [q |].
  - destruct (pickContentFromQwen nt q (sentImageUrls st)) as [piece urls].
    destruct (truthy piece);
      [destruct (JsText.ToString nt piece) |];
      cbn [fst snd]; rewrite ?append_raw_resolved; cbn [resolved];
      repeat split; try discriminate; auto.
  - cbn [fst snd]. rewrite append_raw_resolved.
    repeat split; try discriminate; auto.
Qed.

Lemma resolve_resolved st : resolved (resolve st) <> None.
Proof.
  unfold resolve. destruct (resolved st) eqn:E; [congruence |]. discriminate.
Qed.

(** *** The loop as one pass over the text *)

Lemma with_remainder_twice r r' st :
  with_remainder r (with_remainder r' st) = with_remainder r st.
Proof. reflexivity. Qed.

Lemma with_remainder_same st : with_remainder (remainder st) st = st.
Proof. destruct st. reflexivity. Qed.

Lemma scan_with_remainder s : forall r st cur,
  scan nt (with_remainder r st) cur s = scan nt st cur s.
Proof.
  induction s as [| c s IH]; intros r st cur; cbn [scan].
  - reflexivity.
  - destruct (N.eqb c 10); [| apply IH].
    rewrite with_remainder_twice. reflexivity.
Qed.

Lemma scan_cut s : forall st cur,
  scan nt st cur s =
    match indexOf s 10%N with
    | None => with_remainder (rev cur ++ s) st
    | Some idx =>
        let '(st2, returned) :=
          on_line nt (with_remainder (drop (S idx) s) st) (rev cur ++ take idx s) in
        if returned : bool then st2 else scan nt st2 [] (drop (S idx) s)
    end.
Proof.
  induction s as [| c s IH]; intros st cur; cbn [scan indexOf].
  - rewrite app_nil_r. reflexivity.
  - destruct (N.eqb c 10).
    + cbn [take drop]. rewrite app_nil_r. reflexivity.
    + rewrite IH. destruct (indexOf s 10%N) as [idx |]; cbn [fmap option_fmap option_map].
      * cbn [take drop rev]. rewrite <- app_assoc. reflexivity.
      * cbn [rev]. rewrite <- app_assoc. reflexivity.
Qed.

Lemma on_line_remainder st line :
  remainder (fst (on_line nt st line)) = remainder st.
Proof.
  rewrite <- (with_remainder_same st) at 1.
  rewrite on_line_with_remainder. reflexivity.
Qed.

Lemma indexOf_lt s c idx : indexOf s c = Some idx -> idx < length s.
Proof.
  revert idx. induction s as [| x s IH]; intros idx; cbn [indexOf]; [discriminate |].
  destruct (N.eqb x c).
  - intros H. injection H as <-. simpl. lia.
  - destruct (indexOf s c) as [k |]; cbn; [| discriminate].
    intros H. injection H as <-. specialize (IH k eq_refl). simpl. lia.
Qed.

(** The loop of [onData] is the pass over [remainder]; the fuel given by
    [onData] is enough. *)
Lemma drain_scan fuel : forall st,
  length (remainder st) < fuel ->
  drain nt fuel st = scan nt st [] (remainder st).
Proof.
  induction fuel as [| n IH]; intros st Hlen; [lia |].
  cbn [drain]. rewrite scan_cut. cbn [rev app].
  destruct (indexOf (remainder st) 10%N) as [idx |] eqn:Hidx.
  - change (mkState (drop (S idx) (remainder st)) (content st)
                    (sentImageUrls st) (resolved st))
      with (with_remainder (drop (S idx) (remainder st)) st).
    pose proof (on_line_remainder (with_remainder (drop (S idx) (remainder st)) st)
                  (take idx (remainder st))) as Hrem.
    destruct (on_line nt _ _) as [st2 returned]. cbn [fst] in Hrem.
    destruct returned; [reflexivity |].
    rewrite IH.
    + rewrite Hrem. reflexivity.
    + rewrite Hrem. cbn [with_remainder remainder]. rewrite length_drop.
      apply indexOf_lt in Hidx. lia.
  - symmetry. apply with_remainder_same.
Qed.

Lemma onData_raw_scan st raw :
  onData_raw nt st raw = scan nt st [] (remainder st ++ raw).
Proof.
  unfold onData_raw. rewrite drain_scan by (cbn [remainder]; lia).
  cbn [remainder].
  change (mkState (remainder st ++ raw) (content st) (sentImageUrls st) (resolved st))
    with (with_remainder (remainder st ++ raw) st).
  apply scan_with_remainder.
Qed.

Lemma scan_no_line_feed t : no_line_feed t ->
  forall st cur, scan nt st cur t = with_remainder (rev cur ++ t) st.
Proof.
  induction 1 as [| c t Hc _ IH]; intros st cur; cbn [scan].
  - rewrite app_nil_r. reflexivity.
  - destruct (N.eqb_spec c 10) as [E | _]; [congruence |].
    rewrite IH. cbn [rev]. rewrite <- app_assoc. reflexivity.
Qed.

Lemma scan_prefix t : no_line_feed t ->
  forall st cur s, scan nt st cur (t ++ s) = scan nt st (rev t ++ cur) s.
Proof.
  induction 1 as [| c t Hc _ IH]; intros st cur s; cbn [app scan rev].
  - reflexivity.
  - destruct (N.eqb_spec c 10) as [E | _]; [congruence |].
    rewrite IH. rewrite <- app_assoc. reflexivity.
Qed.

Lemma scan_line l : no_line_feed l ->
  forall st cur s,
    scan nt st cur (l ++ 10%N :: s) =
      let '(st2, returned) :=
        on_line nt (with_remainder s st) (rev cur ++ l) in
      if returned : bool then st2 else scan nt st2 [] s.
Proof.
  intros Hl st cur s. rewrite scan_prefix by exact Hl. cbn [scan].
  rewrite N.eqb_refl. rewrite rev_app_distr, rev_involutive. reflexivity.
Qed.

Lemma scan_keeps_resolved s : forall st cur v,
  resolved st = Some v -> resolved (scan nt st cur s) = Some v.
Proof.
  induction s as [| c s IH]; intros st cur v Hv; cbn [scan].
  - exact Hv.
  - destruct (N.eqb c 10); [| apply IH; exact Hv].
    pose proof (on_line_resolved (with_remainder s st) (rev cur)) as (_ & _ & H3).
    specialize (H3 v Hv).
    destruct (on_line nt _ _) as [st2 returned]. cbn [fst] in H3.
    destruct returned; [exact H3 | apply IH; exact H3].
Qed.

(** A pending promise after the pass: the whole text was read and
    [remainder] holds what follows the last line feed. *)
Lemma scan_pending s : forall st cur,
  no_line_feed cur ->
  resolved (scan nt st cur s) = None ->
  no_line_feed (remainder (scan nt st cur s)).
Proof.
  induction s as [| c s IH]; intros st cur Hcur; cbn [scan].
  - intros _. cbn [with_remainder remainder].
    unfold no_line_feed in *. apply Forall_rev. exact Hcur.
  - destruct (N.eqb_spec c 10) as [E | E].
    + pose proof (on_line_resolved (with_remainder s st) (rev cur)) as (H1 & _ & _).
      destruct (on_line nt _ _) as [st2 returned]. cbn [fst snd] in H1.
      destruct returned.
      * intros H. rewrite (H1 eq_refl) in H. apply resolve_resolved in H. destruct H.
      * apply IH. constructor.
    + apply IH. constructor; assumption.
Qed.

(** *** Chunks *)

Lemma same_result_refl a : same_result a a.
Proof. split; [reflexivity | intros _; reflexivity]. Qed.

Lemma same_result_trans a b c :
  same_result a b -> same_result b c -> same_result a c.
Proof.
  intros [H1 H2] [H3 H4]. split; [congruence |].
  intros Ha. rewrite (H2 Ha). apply H4. rewrite <- H1. exact Ha.
Qed.

Lemma same_result_sym a b : same_result a b -> same_result b a.
Proof.
  intros [H1 H2]. split; [congruence |].
  intros Hb. symmetry. apply H2. rewrite H1. exact Hb.
Qed.

(** Reading [t] and then, from what is left, [R] is reading [t ++ R]. *)
Lemma scan_app t : forall R st cur,
  no_line_feed cur ->
  same_result
    (scan nt (scan nt st cur t) [] (remainder (scan nt st cur t) ++ R))
    (scan nt st cur (t ++ R)).
Proof.
  induction t as [| c t IH]; intros R st cur Hcur; cbn [app scan].
  - cbn [with_remainder remainder].
    rewrite scan_prefix by (apply Forall_rev; exact Hcur).
    rewrite rev_involutive, app_nil_r.
    change (mkState (rev cur) (content st) (sentImageUrls st) (resolved st))
      with (with_remainder (rev cur) st).
    rewrite scan_with_remainder. apply same_result_refl.
  - destruct (N.eqb_spec c 10) as [E | E].
    + rewrite (on_line_with_remainder t st (rev cur)).
      rewrite (on_line_with_remainder (t ++ R) st (rev cur)).
      pose proof (on_line_resolved st (rev cur)) as (H1 & _ & _).
      destruct (on_line nt st (rev cur)) as [st2 returned]. cbn [fst snd] in *.
      destruct returned.
      * specialize (H1 eq_refl). subst st2.
        destruct (resolved (resolve st)) as [v |] eqn:Hv;
          [| apply resolve_resolved in Hv; destruct Hv].
        split.
        -- rewrite (scan_keeps_resolved _ _ _ v) by exact Hv.
           symmetry. exact Hv.
        -- rewrite (scan_keeps_resolved _ _ _ v) by exact Hv. discriminate.
      * rewrite !scan_with_remainder.
        specialize (IH R st2 [] (List.Forall_nil _)).
        exact IH.
    + apply IH. constructor; assumption.
Qed.

Lemma handle_same a b e :
  same_result a b -> same_result (handle nt a e) (handle nt b e).
Proof.
  intros [H1 H2]. destruct (resolved a) as [v |] eqn:Ha.
  - assert (handle nt a e = a) as ->.
    { destruct e; cbn [handle]; unfold resolve; rewrite Ha; reflexivity. }
    assert (handle nt b e = b) as ->.
    { destruct e; cbn [handle]; unfold resolve; rewrite <- H1; reflexivity. }
    split; [congruence | intros E; congruence].
  - rewrite (H2 eq_refl). apply same_result_refl.
Qed.

Lemma handle_all_same events : forall a b,
  same_result a b ->
  same_result (fold_left (handle nt) events a) (fold_left (handle nt) events b).
Proof.
  induction events as [| e rest IH]; intros a b H; [exact H |].
  cbn [fold_left]. apply IH. apply handle_same. exact H.
Qed.

(** The chunks one after the other leave what one pass over their text
    leaves. *)
Lemma chunks_scan cs : forall st,
  (resolved st = None -> no_line_feed (remainder st)) ->
  same_result (fold_left (handle nt) (map Data cs) st)
              (scan nt st [] (remainder st ++ decoded cs)).
Proof.
  induction cs as [| c cs IH]; intros st Hinv.
  - cbn [map fold_left]. unfold decoded. cbn [map concat]. rewrite app_nil_r.
    destruct (resolved st) as [v |] eqn:Hv.
    + split.
      * rewrite (scan_keeps_resolved _ _ _ v) by exact Hv. exact Hv.
      * congruence.
    + rewrite scan_no_line_feed by (apply Hinv; reflexivity).
      cbn [rev app]. rewrite with_remainder_same. apply same_result_refl.
  - cbn [map fold_left].
    assert (decoded (c :: cs) = toString_utf8 c ++ decoded cs) as -> by reflexivity.
    destruct (resolved st) as [v |] eqn:Hv.
    + cbn [handle]. rewrite Hv.
      specialize (IH st ltac:(rewrite Hv; discriminate)). destruct IH as [IH1 _].
      rewrite (scan_keeps_resolved _ _ _ v) in IH1 by exact Hv.
      split.
      * rewrite (scan_keeps_resolved _ _ _ v) by exact Hv. exact IH1.
      * congruence.
    + cbn [handle]. rewrite Hv. unfold onData. rewrite onData_raw_scan.
      set (st1 := scan nt st [] (remainder st ++ toString_utf8 c)).
      assert (resolved st1 = None -> no_line_feed (remainder st1)) as Hinv1.
      { apply scan_pending. constructor. }
      eapply same_result_trans; [apply IH; exact Hinv1 |].
      rewrite app_assoc. apply scan_app. constructor.
Qed.

(** X15. The collected text does not depend on how the upstream stream is
    cut into chunks: two sequences of chunks that decode to the same text
    give the same value, whatever events follow. *)
Theorem X15_collection_does_not_depend_on_chunking
        (cs1 cs2 : list (list N)) (rest : list event) :
  decoded cs1 = decoded cs2 ->
  collect nt (map Data cs1 ++ rest) = collect nt (map Data cs2 ++ rest).
Proof.
  intros Heq. unfold collect. rewrite !fold_left_app.
  assert (resolved initial = None -> no_line_feed (remainder initial)) as Hinv
    by (intros _; constructor).
  pose proof (chunks_scan cs1 initial Hinv) as H1.
  pose proof (chunks_scan cs2 initial Hinv) as H2.
  rewrite Heq in H1.
  pose proof (same_result_trans _ _ _ H1 (same_result_sym _ _ H2)) as H.
  apply (handle_all_same rest) in H. destruct H as [H _]. exact H.
Qed.

(** *** Lines *)

Lemma scan_lines ls tail : Forall no_line_feed ls -> no_line_feed tail ->
  forall st, same_core (scan nt st [] (terminated ls ++ tail)) (on_lines nt st ls).
Proof.
  intros Hls Htail. induction Hls as [| l ls Hl _ IH]; intros st.
  - cbn [terminated map concat app on_lines].
    rewrite scan_no_line_feed by exact Htail. repeat split.
  - assert (terminated (l :: ls) ++ tail = l ++ 10%N :: (terminated ls ++ tail))
      as ->.
    { unfold terminated. cbn [map concat]. rewrite <- !app_assoc. reflexivity. }
    rewrite scan_line by exact Hl. cbn [rev app on_lines].
    rewrite on_line_with_remainder.
    destruct (on_line nt st l) as [st1 returned]. cbn [fst snd].
    destruct returned; [repeat split |].
    rewrite scan_with_remainder. apply IH.
Qed.

Lemma on_lines_value ls : forall st v,
  resolved st = None ->
  resolved (on_lines nt st ls) = Some v -> v = content (on_lines nt st ls).
Proof.
  induction ls as [| l ls IH]; intros st v Hst; cbn [on_lines]; [congruence |].
  pose proof (on_line_resolved st l) as (H1 & H2 & _).
  destruct (on_line nt st l) as [st1 returned]. cbn [fst snd] in *.
  destruct returned.
  - rewrite (H1 eq_refl). unfold resolve. rewrite Hst. cbn [resolved content].
    congruence.
  - apply IH. rewrite (H2 eq_refl). exact Hst.
Qed.

Lemma on_lines_marker pre marker post :
  trim marker = js "data: [DONE]" ->
  forall st, content (on_lines nt st (pre ++ marker :: post))
             = content (on_lines nt st pre).
Proof.
  intros Hm. induction pre as [| l pre IH]; intros st; cbn [app on_lines].
  - unfold on_line. rewrite Hm. cbn [fst snd].
    unfold resolve. destruct (resolved st); reflexivity.
  - destruct (on_line nt st l) as [st1 returned].
    destruct returned; [reflexivity | apply IH].
Qed.

(** X16. The collected text is that of the complete lines of the stream,
    one after the other, up to the first line that is the terminal marker:
    what follows the last line feed is never read, and lines after the
    marker add nothing. *)
Theorem X16_collection_reads_complete_lines_up_to_the_marker
        (cs : list (list N)) (ls : list jsstring) (tail : jsstring) :
  Forall no_line_feed ls -> no_line_feed tail ->
  decoded cs = terminated ls ++ tail ->
  collect nt (map Data cs ++ [End]) = Some (content (on_lines nt initial ls))
  /\ (forall pre marker post,
        ls = pre ++ marker :: post -> trim marker = js "data: [DONE]" ->
        collect nt (map Data cs ++ [End])
        = Some (content (on_lines nt initial pre))).
Proof.
  intros Hls Htail Hdec.
  assert (collect nt (map Data cs ++ [End])
          = Some (content (on_lines nt initial ls))) as Hmain.
  { unfold collect. rewrite fold_left_app. cbn [fold_left handle].
    assert (resolved initial = None -> no_line_feed (remainder initial)) as Hinv
      by (intros _; constructor).
    pose proof (chunks_scan cs initial Hinv) as [H1 H2].
    cbn [initial remainder app] in H1, H2. rewrite Hdec in H1, H2.
    pose proof (scan_lines ls tail Hls Htail initial) as (Hc & _ & Hr).
    set (S := fold_left (handle nt) (map Data cs) initial) in *.
    unfold resolve. destruct (resolved S) as [v |] eqn:Hv.
    - rewrite Hv. f_equal. apply on_lines_value; [reflexivity |].
      rewrite <- Hr. symmetry. exact H1.
    - cbn [resolved]. rewrite (H2 eq_refl), Hc. reflexivity. }
  split; [exact Hmain |].
  intros pre marker post -> Hm. rewrite Hmain. f_equal.
  apply on_lines_marker. exact Hm.
Qed.

End WithNumbers.

Lemma X15_witness :
  collect no_numbers
    (map Data [js "data: hel"; js "lo" ++ LF ++ js "data: wor"; js "ld" ++ LF] ++ [End])
  = collect no_numbers
      (map Data [js "data: hello" ++ LF ++ js "data: world" ++ LF] ++ [End]).
Proof.
  apply (X15_collection_does_not_depend_on_chunking no_numbers).
  vm_compute. reflexivity.
Defined.

Lemma X16_witness :
  collect no_numbers
    (map Data [js "data: hel";
               js "lo" ++ LF ++ js "data: [DONE]" ++ LF ++ js "data: more" ++ LF
               ++ js "rest"] ++ [End])
  = Some (content (on_lines no_numbers (initial)
                     [js "data: hello"; js "data: [DONE]"; js "data: more"])).
Proof.
  apply (X16_collection_reads_complete_lines_up_to_the_marker no_numbers
           [js "data: hel";
            js "lo" ++ LF ++ js "data: [DONE]" ++ LF ++ js "data: more" ++ LF
            ++ js "rest"]
           [js "data: hello"; js "data: [DONE]"; js "data: more"]
           (js "rest")).
  - repeat constructor; discriminate.
  - repeat constructor; discriminate.
  - vm_compute. reflexivity.
Defined.

End CollectorFacts.

(* ===================================================================== *)
(** ** The collector and the stream transformer on the same record *)
(* ===================================================================== *)

Module AgreementFacts.

Import Samples TransformerSpec CollectorSpec TransformerFacts.

Lemma or_else_string s : or_else (JStr s) (JStr []) = JStr s.
Proof. destruct s; reflexivity. Qed.

(** The transformer on the first choice of a record. *)
Lemma transformer_choices choice others delta s l :
  delta_of choice = Some delta -> truthy delta = true ->
  get delta Pcontent = Some (JStr s) ->
  Transformer.isFinished l = false ->
  Transformer.choices_branch (JArr (choice :: others)) l =
    (Transformer.Ret tt,
     Transformer.mkLocals (JStr (shown delta s (Transformer.sent l)))
       (finish_marked choice delta)
       (remembered delta s (Transformer.sent l)) (Transformer.pushed l)).
Proof.
  intros Hdelta Htruthy Hcontent Hfin.
  unfold Transformer.choices_branch, mbind, Transformer.M_bind, Transformer.bind,
    Transformer.lift.
  cbn [get Transformer.ret].
  unfold delta_of in Hdelta.
  destruct (get choice Pdelta) as [d |] eqn:Hd; [| discriminate].
  pose proof (get_total _ _ _ Hd) as Hchoice.
  pose proof (get_total _ _ _ Hcontent) as Hdel.
  cbn [Transformer.ret].
  assert (Hsel : (if truthy d then Transformer.ret d
                  else match get choice Pmessage with
                       | Some a => Transformer.ret a
                       | None => Transformer.throw
                       end) l = (Transformer.Ret delta, l)).
  { destruct (truthy d); [injection Hdelta as ->; reflexivity |].
    rewrite Hdelta. reflexivity. }
  rewrite Hsel. rewrite Htruthy. cbn [Transformer.when]. rewrite Hcontent.
  cbn [Transformer.ret Transformer.set_content].
  rewrite (Hdel Pphase), (Hdel Pstatus), (Hchoice Pfinish_reason).
  cbn [Transformer.ret]. rewrite or_else_string.
  unfold finish_marked, shown, remembered, is_image, image_phase.
  destruct (is_string (get_optional delta Pphase) "image_gen") eqn:Hph.
  - cbn [Transformer.read_content Transformer.content truthy orb].
    destruct (nonempty s) eqn:Hne.
    + cbn [Transformer.when].
      destruct (startsWith s Transformer.https) eqn:Hurl; cbn [Transformer.when andb].
      * unfold Transformer.dedup.
        cbn [Transformer.sent Transformer.isFinished Transformer.pushed
             Transformer.content].
        destruct (bool_decide (s ∈ Transformer.sent l));
          destruct (is_string (get_optional delta Pstatus) "finished");
          cbn [Transformer.when Transformer.set_isFinished Transformer.ret
               Transformer.read_isFinished Transformer.isFinished
               Transformer.content Transformer.sent Transformer.pushed orb negb andb];
          rewrite ?Hfin; reflexivity.
      * destruct (is_string (get_optional delta Pstatus) "finished");
          cbn [Transformer.when Transformer.set_isFinished Transformer.ret
               Transformer.read_isFinished Transformer.isFinished
               Transformer.content Transformer.sent Transformer.pushed orb negb andb];
          rewrite ?Hfin; reflexivity.
    + destruct s; [| discriminate]. cbn [Transformer.when startsWith andb].
      change (startsWith [] Transformer.https) with false. cbn [andb].
      destruct (is_string (get_optional delta Pstatus) "finished");
        cbn [Transformer.when Transformer.set_isFinished Transformer.ret
             Transformer.read_isFinished Transformer.isFinished
             Transformer.content Transformer.sent Transformer.pushed orb negb andb];
        rewrite ?Hfin; reflexivity.
  - rewrite (Hdel Pchat_type).
    cbn [Transformer.ret Transformer.read_content Transformer.content orb].
    destruct ((is_string (get_optional delta Pchat_type) "t2i"
               || is_string (get_optional delta Pchat_type) "image_edit")
              && startsWith s Transformer.https) eqn:Hcond;
      cbn [Transformer.when].
    + unfold Transformer.dedup.
      cbn [Transformer.sent Transformer.isFinished Transformer.pushed
           Transformer.content].
      destruct (bool_decide (s ∈ Transformer.sent l));
        destruct (is_string (get_optional delta Pstatus) "finished");
        cbn [Transformer.when Transformer.set_isFinished Transformer.ret
             Transformer.read_isFinished Transformer.isFinished
             Transformer.content Transformer.sent Transformer.pushed orb negb andb];
        rewrite ?Hfin; reflexivity.
    + destruct (is_string (get_optional delta Pstatus) "finished");
        cbn [Transformer.when Transformer.set_isFinished Transformer.ret
             Transformer.read_isFinished Transformer.isFinished
             Transformer.content Transformer.sent Transformer.pushed orb negb andb];
        rewrite ?Hfin; reflexivity.
Qed.

Lemma transformer_record urls d q choice delta s :
  JSON_parse d = Some q -> choices_record q choice delta s ->
  Transformer.process_record urls d =
    (remembered delta s urls,
     if nonempty (shown delta s urls) || finish_marked choice delta
     then [Transformer.Chunk (JStr (shown delta s urls)) (finish_marked choice delta)]
     else []).
Proof.
  intros Hq (success & others & Hs & Hnf & Hc & Hd & Ht & Hcon).
  unfold Transformer.process_record, Transformer.try_block, mbind,
    Transformer.M_bind, Transformer.bind, Transformer.lift.
  rewrite Hq. cbn [Transformer.ret]. rewrite Hs. cbn [Transformer.ret].
  rewrite Hnf, Hc. cbn [Transformer.ret truthy get].
  change (to_primitive_throws (number_of_N _)) with false. cbn iota.
  cbn [length]. rewrite positive_length. cbn [Transformer.ret].
  rewrite (transformer_choices choice others delta s
             (Transformer.mkLocals (JStr []) false urls []) Hd Ht Hcon eq_refl).
  cbn [Transformer.sent Transformer.pushed].
  unfold Transformer.finish_record.
  cbn [Transformer.content Transformer.isFinished Transformer.sent
       Transformer.pushed app truthy].
  reflexivity.
Qed.

Section WithNumbers.

Variable nt : jsnumber -> jsstring.

(** The collector on the same record. *)
Lemma collector_record urls q choice delta s :
  choices_record q choice delta s ->
  Collector.pickContentFromQwen nt q urls
  = (JStr (shown delta s urls), remembered delta s urls).
Proof.
  intros (success & others & Hs & Hnf & Hc & Hd & Ht & Hcon).
  unfold Collector.pickContentFromQwen, Collector.pick_body, mbind,
    Collector.P_bind, Collector.bind, Collector.lift.
  rewrite Hs. cbn [Collector.ret]. rewrite Hnf, Hc.
  cbn [Collector.ret truthy get].
  change (to_primitive_throws (number_of_N _)) with false. cbn iota.
  cbn [length]. rewrite positive_length. cbn [Collector.ret].
  unfold Collector.choices_branch, mbind, Collector.P_bind, Collector.bind,
    Collector.lift.
  cbn [get Collector.ret].
  unfold delta_of in Hd.
  destruct (get choice Pdelta) as [d |] eqn:Hdd; [| discriminate].
  pose proof (get_total _ _ _ Hcon) as Hdel.
  cbn [Collector.ret].
  assert (Hsel : (if truthy d then Collector.ret d
                  else match get choice Pmessage with
                       | Some a => Collector.ret a
                       | None => Collector.throw
                       end) urls = (Some delta, urls)).
  { destruct (truthy d); [injection Hd as ->; reflexivity |].
    rewrite Hd. reflexivity. }
  rewrite Hsel. rewrite Ht. rewrite Hcon. cbn [Collector.ret].
  rewrite (Hdel Pphase). cbn [Collector.ret]. rewrite or_else_string.
  cbn [Collector.is_https Collector.text_of].
  unfold shown, remembered, is_image, image_phase.
  destruct (is_string (get_optional delta Pphase) "image_gen") eqn:Hph;
    cbn [andb orb].
  - destruct (startsWith s Transformer.https) eqn:Hurl; cbn [andb].
    + unfold Collector.dedup.
      destruct (bool_decide (s ∈ urls)); cbn [Collector.ret negb];
        [reflexivity |].
      assert (nonempty (Transformer.image_markdown s) = true) as Hne by reflexivity.
      unfold or_else. cbn [truthy]. rewrite Hne. reflexivity.
    + rewrite (Hdel Pchat_type). cbn [Collector.ret].
      rewrite andb_false_r. cbn [Collector.ret].
      rewrite or_else_string. reflexivity.
  - rewrite (Hdel Pchat_type). cbn [Collector.ret].
    destruct ((is_string (get_optional delta Pchat_type) "t2i"
               || is_string (get_optional delta Pchat_type) "image_edit")
              && startsWith s Transformer.https) eqn:Hcond.
    + unfold Collector.dedup.
      destruct (bool_decide (s ∈ urls)); cbn [Collector.ret negb];
        [reflexivity |].
      assert (nonempty (Transformer.image_markdown s) = true) as Hne by reflexivity.
      unfold or_else. cbn [truthy]. rewrite Hne. reflexivity.
    + cbn [Collector.ret]. rewrite or_else_string. reflexivity.
Qed.

End WithNumbers.

End AgreementFacts.

(* ===================================================================== *)
(** ** main.js: sizes that are not two positive numbers, and the table *)
(* ===================================================================== *)

Module AspectRatioMoreFacts.

Import Main MainSpec AspectRatioFacts TransformerFacts.

Lemma falsy_zero : falsy (StringToNumber (decimal 0)) = true.
Proof. rewrite StringToNumber_decimal. reflexivity. Qed.

(** X18. [calculateAspectRatio] answers [1:1] for every size that has no
    letter x in it (also the empty string), and for every size whose width
    or height is written as zero. *)
Theorem X18_degenerate_sizes_are_square :
  (forall size : jsstring,
      Forall (fun c => c <> 120%N) size ->
      calculateAspectRatio size = Some (js "1:1"))
  /\ (forall n : N,
        calculateAspectRatio (decimal 0 ++ js "x" ++ decimal n) = Some (js "1:1")
        /\ calculateAspectRatio (decimal n ++ js "x" ++ decimal 0)
           = Some (js "1:1")).
Proof.
  split.
  - intros size Hx. unfold calculateAspectRatio, split.
    change (js "x") with [120%N].
    rewrite split_from_no_sep.
    2:{ eapply Forall_impl; [exact Hx |]. intros c Hc.
        apply N.eqb_neq. congruence. }
    cbn [rev app map lookup list_lookup default from_option].
    unfold Datatypes.id. cbn [falsy]. rewrite orb_true_r. reflexivity.
  - intros n. split; unfold calculateAspectRatio; rewrite split_size;
      cbn [map lookup list_lookup default from_option]; unfold Datatypes.id.
    + rewrite falsy_zero. reflexivity.
    + rewrite falsy_zero, orb_true_r. reflexivity.
Qed.

(** The digits of a number determine it. *)
Lemma decimal_is (n : N) (s : jsstring) :
  decimal n = s -> n = digits_value s 0.
Proof. intros <-. symmetry. apply digits_value_decimal. Qed.

Lemma size_is (w h : N) (key : jsstring) :
  decimal w ++ js "x" ++ decimal h = key ->
  match split key (js "x") with
  | [a; b] => w = digits_value a 0 /\ h = digits_value b 0
  | _ => False
  end.
Proof.
  intros <-. rewrite split_size. split; apply decimal_is; reflexivity.
Qed.

(** X19. The table of sizes overrides the computation for two sizes only.
    For a size written as two positive whole numbers up to [2^53], other
    than 1792x1024 and 1024x1792, the ratio sent upstream is the reduced
    fraction of width and height, whether or not the size is in [sizeMap].
    For those two sizes the table answers 16:9 and 9:16, where
    [calculateAspectRatio] would answer 7:4 and 4:7. *)
Theorem X19_size_table_overrides_two_sizes_only (w h : N) :
  (0 < w <= 2 ^ 53)%N -> (0 < h <= 2 ^ 53)%N ->
  ((w, h) <> (1792, 1024)%N -> (w, h) <> (1024, 1792)%N ->
   qwenSize (Some (decimal w ++ js "x" ++ decimal h))
   = Some (Ratio (decimal (w / N.gcd w h) ++ js ":" ++ decimal (h / N.gcd w h))))
  /\ qwenSize (Some (js "1792x1024")) = Some (Ratio (js "16:9"))
  /\ calculateAspectRatio (js "1792x1024") = Some (js "7:4")
  /\ qwenSize (Some (js "1024x1792")) = Some (Ratio (js "9:16"))
  /\ calculateAspectRatio (js "1024x1792") = Some (js "4:7").
Proof.
  intros Hw Hh.
  split; [| repeat split; vm_compute; reflexivity].
  intros Hwide Htall.
  destruct (table_lookup (decimal w ++ js "x" ++ decimal h) sizeMap) as [r |] eqn:Hlook.
  - assert (qwenSize (Some (decimal w ++ js "x" ++ decimal h)) = Some (Ratio r)) as ->.
    { unfold qwenSize.
      pose proof (decimal_nonempty w) as Hne.
      destruct (decimal w) as [| c rest] eqn:E; [congruence |].
      cbn [app nonempty]. cbn [app] in Hlook. rewrite Hlook. reflexivity. }
    unfold sizeMap in Hlook. cbn [table_lookup] in Hlook.
    repeat match type of Hlook with
           | (if eqb ?k ?key then _ else _) = _ =>
               let E := fresh "E" in
               destruct (eqb k key) eqn:E;
               [ apply eqb_eq in E; symmetry in E; apply size_is in E;
                 vm_compute in E; destruct E as [-> ->];
                 first [ congruence
                       | injection Hlook as <-; vm_compute; reflexivity ]
               | clear E ]
           end.
    discriminate.
  - unfold qwenSize.
    pose proof (decimal_nonempty w) as Hne.
    pose proof (decimal_all_digits w) as Hd.
    destruct (decimal w) as [| c r] eqn:E; [congruence |].
    apply Forall_cons in Hd as [Hc _].
    cbn [app nonempty]. cbn [app] in Hlook. rewrite Hlook.
    rewrite (digit_first_not_inherited c _ Hc).
    change (c :: r ++ js "x" ++ decimal h) with ((c :: r) ++ js "x" ++ decimal h).
    rewrite <- E. rewrite (calculateAspectRatio_integers w h Hw Hh). reflexivity.
Qed.

Lemma X19_witness :
  qwenSize (Some (decimal 1152 ++ js "x" ++ decimal 768))
  = Some (Ratio (decimal (1152 / N.gcd 1152 768) ++ js ":"
                 ++ decimal (768 / N.gcd 1152 768))).
Proof.
  apply (X19_size_table_overrides_two_sizes_only 1152 768);
    try (vm_compute; split; [reflexivity | discriminate]); discriminate.
Defined.

End AspectRatioMoreFacts.

(* ===================================================================== *)
(** ** [executeQwenRequest]: identities without methods, and retries *)
(* ===================================================================== *)

Module HandlerFacts.

Import IdentityPool Transformer Sse Main MainSpec Handler HandlerSpec.
Import PoolFacts StreamFacts.

Lemma ticks_write_keepalives (n : nat) (r : response) :
  writableEnded r = false ->
  written (Nat.iter n (tick createKeepAlive) r) = written r ++ repeat KeepAlive n
  /\ writableEnded (Nat.iter n (tick createKeepAlive) r) = false
  /\ headersSent (Nat.iter n (tick createKeepAlive) r) = headersSent r.
Proof.
  intros Hr. induction n as [| n (Hw & He & Hh)].
  - cbn. rewrite app_nil_r. repeat split; assumption.
  - rewrite Nat.iter_succ. rewrite tick_open by exact He.
    cbn [written writableEnded headersSent]. rewrite Hw.
    repeat split; try assumption.
    rewrite <- app_assoc. f_equal.
    change [KeepAlive] with (repeat KeepAlive 1). rewrite <- repeat_app.
    f_equal. lia.
Qed.

Lemma handle_ticks (n : nat) (s : streaming) :
  handle_all s (repeat Tick n)
  = mkStreaming (transformer s) (Nat.iter n (tick (alive s)) (res s)) (alive s)
                (destroyed s).
Proof.
  revert s. induction n as [| n IH]; intros s.
  - destruct s. reflexivity.
  - cbn [repeat]. unfold handle_all in *. cbn [fold_left handle].
    rewrite IH. cbn [transformer res alive destroyed].
    rewrite Nat.iter_succ_r. reflexivity.
Qed.

(** X20. With the identity that the route builds when the pool gave none,
    [executeQwenRequest] never returns a result: the missing method raises a
    [TypeError] in the [try] block or in its [catch] clause, whether the
    upstream call succeeded, answered with an error status or failed, in
    both modes. The pool is not changed. A streamed response then carries
    only the keep-alive comments: no frame is written to it and it is not
    ended, however long the timer runs. *)
Theorem X20_identity_without_methods_raises
        (jwt_exp : jsstring -> option Z) (now : Z) (p : Pool) :
  (forall u, executeQwenRequest_collecting jwt_exp Legacy u now p = (Raised, p))
  /\ (forall d,
        let '(e, p', s) := executeQwenRequest_streaming jwt_exp Legacy d now p in
        e = Raised /\ p' = p
        /\ forall n,
             written (res (handle_all s (repeat Tick n)))
             = repeat KeepAlive (waited_of d + n)
             /\ writableEnded (res (handle_all s (repeat Tick n))) = false).
Proof.
  split.
  - intros u. unfold executeQwenRequest_collecting.
    destruct (http_post_collecting u) as [status data | message];
      cbn [mark_failure mark_success];
      [destruct (400 <=? status)%Z |]; reflexivity.
  - assert (forall message waited,
              let '(e, p', s) := stream_catch Legacy message waited now p in
              e = Raised /\ p' = p
              /\ forall n,
                   written (res (handle_all s (repeat Tick n)))
                   = repeat KeepAlive (waited + n)
                   /\ writableEnded (res (handle_all s (repeat Tick n))) = false)
      as Hcatch.
    { intros message waited. unfold stream_catch. cbn [mark_failure].
      split; [reflexivity |]. split; [reflexivity |]. intros n.
      rewrite handle_ticks. cbn [res alive transformer destroyed].
      pose proof (ticks_write_keepalives waited
                    (setSseHeaders (mkResponse [] false false)) eq_refl)
        as (Hw & He & _).
      pose proof (ticks_write_keepalives n _ He) as (Hw' & He' & _).
      rewrite Hw', Hw. cbn [written setSseHeaders app].
      rewrite <- repeat_app. split; [reflexivity | exact He']. }
    intros d. unfold executeQwenRequest_streaming.
    destruct (http_post d) as [status events | message];
      cbn [mark_failure mark_success];
      [destruct (400 <=? status)%Z |]; apply Hcatch.
Qed.

Lemma failures_after_failure r error now p c :
  failures p r = Some c ->
  failures (markIdentityFailure (Some r) error now p) r = Some (c + 1)%Z.
Proof.
  unfold failures, markIdentityFailure, update. cbn [identities].
  rewrite list_lookup_alter.
  destruct (identities p !! r) as [i |];
    cbn [fmap option_fmap option_map]; [| discriminate].
  intros H. injection H as <-. rewrite decide_True by reflexivity.
  cbn [fmap option_fmap option_map]. rewrite markFailure_failCount. reflexivity.
Qed.

(** X21. With an identity of the pool, the streaming branch of
    [executeQwenRequest] never asks for a retry: it succeeds, or it fails
    after the response headers were sent, and the route's condition for
    trying another identity is false. The non-streaming branch asks for a
    retry at every failure. In both branches every failed upstream call (no
    answer, or an answer with a status outside 200 to 299, which [http.post]
    turns into a rejection) adds exactly one to the failure counter of the
    identity, and the test [upstream.status >= 400] is never true. *)
Theorem X21_only_non_streaming_requests_are_retried
        (jwt_exp : jsstring -> option Z) (r : nat) (now : Z) (p : Pool)
        (initialized : bool) :
  (forall d,
     let '(e, p', s) := executeQwenRequest_streaming jwt_exp (FromPool r) d now p in
     e = Returned (negb (stream_failed d)) false
     /\ retries e initialized (FromPool r) = false)
  /\ (forall u,
        let '(e, p') := executeQwenRequest_collecting jwt_exp (FromPool r) u now p in
        e = Returned (negb (answer_failed u)) (answer_failed u)
        /\ retries e initialized (FromPool r) = answer_failed u && initialized)
  /\ (forall c, failures p r = Some c ->
        (forall d, stream_failed d = true ->
            failures (snd (fst (executeQwenRequest_streaming jwt_exp (FromPool r)
                                  d now p))) r
            = Some (c + 1)%Z)
        /\ (forall u, answer_failed u = true ->
              failures (snd (executeQwenRequest_collecting jwt_exp (FromPool r)
                               u now p)) r
              = Some (c + 1)%Z))
  /\ (forall d status events,
        http_post d = Fulfilled status events -> (400 <=? status)%Z = false)
  /\ (forall u status data,
        http_post_collecting u = Fulfilled status data ->
        (400 <=? status)%Z = false).
Proof.
  split; [| split; [| split; [| split]]].
  - intros [waited status events | waited message];
      unfold executeQwenRequest_streaming;
      cbn [http_post waited_of stream_failed].
    + destruct (validateStatus status) eqn:E; cbn [negb].
      * rewrite (validated_below_400 status E). cbn [mark_success].
        repeat split.
      * rewrite stream_catch_pool. repeat split.
    + rewrite stream_catch_pool. repeat split.
  - intros [status | message];
      unfold executeQwenRequest_collecting;
      cbn [http_post_collecting answer_failed].
    + destruct (validateStatus status) eqn:E; cbn [negb].
      * rewrite (validated_below_400 status E). cbn [mark_success retries negb andb].
        repeat split.
      * cbn [mark_failure retries negb andb]. rewrite ?andb_true_r. repeat split.
    + cbn [mark_failure retries negb andb]. rewrite ?andb_true_r. repeat split.
  - intros c Hc. split.
    + intros [waited status events | waited message] Hd;
        unfold executeQwenRequest_streaming;
        cbn [http_post waited_of stream_failed] in *.
      * apply negb_true_iff in Hd. rewrite Hd. rewrite stream_catch_pool.
        cbn [fst snd]. apply failures_after_failure. exact Hc.
      * rewrite stream_catch_pool. cbn [fst snd].
        apply failures_after_failure. exact Hc.
    + intros [status | message] Hu;
        unfold executeQwenRequest_collecting;
        cbn [http_post_collecting answer_failed] in *.
      * apply negb_true_iff in Hu. rewrite Hu. cbn [mark_failure snd].
        apply failures_after_failure. exact Hc.
      * cbn [mark_failure snd]. apply failures_after_failure. exact Hc.
  - intros [waited status' events' | waited message] status events;
      cbn [http_post]; [| discriminate].
    destruct (validateStatus status') eqn:E; [| discriminate].
    intros H. injection H as <- _. apply validated_below_400. exact E.
  - intros [status' | message] status data; cbn [http_post_collecting];
      [| discriminate].
    destruct (validateStatus status') eqn:E; [| discriminate].
    intros H. injection H as <- _. apply validated_below_400. exact E.
Qed.

End HandlerFacts.

(* ===================================================================== *)
(** ** Strings: trimming, splitting and joining *)
(* ===================================================================== *)

Module TextFacts.

Import TextSpec AspectRatioFacts TransformerMoreFacts.

Lemma trimStart_suffix (s : jsstring) :
  exists spaces, s = spaces ++ trimStart s
                 /\ match trimStart s with
                    | a :: _ => isSpace a = false
                    | [] => True
                    end.
Proof.
  induction s as [| c s (spaces & Hs & Hhead)]; cbn [trimStart].
  - exists []. split; [reflexivity | exact I].
  - destruct (isSpace c) eqn:E.
    + exists (c :: spaces). split; [cbn [app]; f_equal; exact Hs | exact Hhead].
    + exists []. split; [reflexivity | exact E].
Qed.

Lemma trimStart_fixed (s : jsstring) :
  match s with a :: _ => isSpace a = false | [] => True end -> trimStart s = s.
Proof. destruct s as [| a m]; [reflexivity |]. cbn [trimStart]. intros ->. reflexivity. Qed.

Lemma trim_fixed (s : jsstring) : edges_not_space s -> trim s = s.
Proof.
  intros [Hhead Hlast]. unfold trim, trimEnd.
  rewrite (trimStart_fixed s Hhead). rewrite (trimStart_fixed (rev s) Hlast).
  apply rev_involutive.
Qed.

Lemma trim_edges (s : jsstring) : edges_not_space (trim s).
Proof.
  unfold trim, trimEnd, edges_not_space.
  destruct (trimStart_suffix s) as (sp1 & _ & Hhead1).
  set (t := trimStart s) in *.
  destruct (trimStart_suffix (rev t)) as (sp2 & Hrev & Hhead2).
  set (u := trimStart (rev t)) in *.
  rewrite rev_involutive. split; [| exact Hhead2].
  assert (t = rev u ++ rev sp2) as Ht.
  { rewrite <- (rev_involutive t), Hrev, rev_app_distr. reflexivity. }
  destruct (rev u) as [| a m] eqn:E; [exact I |].
  rewrite Ht in Hhead1. exact Hhead1.
Qed.

Lemma trim_idempotent (s : jsstring) : trim (trim s) = trim s.
Proof. apply trim_fixed, trim_edges. Qed.

Lemma trimmed_edges (s : jsstring) : trim s = s -> edges_not_space s.
Proof. intros <-. apply trim_edges. Qed.

Lemma trimStart_Forall (P : jschar -> Prop) (s : jsstring) :
  Forall P s -> Forall P (trimStart s).
Proof.
  induction 1 as [| c s Hc Hs IH]; cbn [trimStart]; [constructor |].
  destruct (isSpace c); [exact IH | constructor; assumption].
Qed.

Lemma trim_Forall (P : jschar -> Prop) (s : jsstring) :
  Forall P s -> Forall P (trim s).
Proof.
  intros H. unfold trim, trimEnd.
  apply Forall_rev, trimStart_Forall, Forall_rev, trimStart_Forall. exact H.
Qed.

(** *** Splitting at one code unit *)

Lemma split_from_piece (sep : jschar) (l : jsstring) :
  without sep l ->
  forall rest cur,
    split_from [sep] (l ++ sep :: rest) 0 cur
    = (rev cur ++ l) :: split_from [sep] rest 0 [].
Proof.
  induction 1 as [| c l Hc _ IH]; intros rest cur; cbn [app split_from startsWith].
  - rewrite N.eqb_refl. cbn [andb length Nat.pred]. rewrite app_nil_r. reflexivity.
  - destruct (N.eqb_spec sep c) as [E | _]; [congruence |].
    cbn [andb]. rewrite IH. cbn [rev]. rewrite <- app_assoc. reflexivity.
Qed.

Lemma split_from_last (sep : jschar) (l : jsstring) :
  without sep l ->
  forall cur, split_from [sep] l 0 cur = [rev cur ++ l].
Proof.
  intros H cur. apply split_from_no_sep.
  eapply Forall_impl; [exact H |]. intros c Hc. apply N.eqb_neq. congruence.
Qed.

Lemma split_join (sep : jschar) (pieces : list jsstring) :
  pieces <> [] -> Forall (without sep) pieces ->
  split (join [sep] pieces) [sep] = pieces.
Proof.
  intros Hne Hall. unfold split.
  induction Hall as [| p rest Hp Hrest IH]; [congruence |].
  destruct rest as [| q rest'].
  - cbn [join]. rewrite split_from_last by exact Hp. reflexivity.
  - change (join [sep] (p :: q :: rest')) with (p ++ sep :: join [sep] (q :: rest')).
    rewrite split_from_piece by exact Hp. cbn [rev app].
    rewrite IH by discriminate. reflexivity.
Qed.

(** *** Splitting at three vertical bars *)

Lemma split_from_bars (l : jsstring) :
  without 124%N l ->
  forall rest cur,
    split_from (js "|||") (l ++ js "|||" ++ rest) 0 cur
    = (rev cur ++ l) :: split_from (js "|||") rest 0 [].
Proof.
  induction 1 as [| c l Hc _ IH]; intros rest cur.
  - cbn. rewrite app_nil_r. reflexivity.
  - cbn [app split_from].
    match goal with
    | |- context [startsWith ?a ?b] => assert (startsWith a b = false) as ->
    end.
    { cbn [js startsWith]. change (N_of_ascii "|") with 124%N.
      destruct (N.eqb_spec 124 c); [congruence | reflexivity]. }
    rewrite IH. cbn [rev]. rewrite <- app_assoc. reflexivity.
Qed.

Lemma split_from_no_bars (l : jsstring) :
  without 124%N l ->
  forall cur, split_from (js "|||") l 0 cur = [rev cur ++ l].
Proof.
  induction 1 as [| c l Hc _ IH]; intros cur.
  - cbn. rewrite app_nil_r. reflexivity.
  - cbn [split_from].
    match goal with
    | |- context [startsWith ?a ?b] => assert (startsWith a b = false) as ->
    end.
    { cbn [js startsWith]. change (N_of_ascii "|") with 124%N.
      destruct (N.eqb_spec 124 c); [congruence | reflexivity]. }
    rewrite IH. cbn [rev]. rewrite <- app_assoc. reflexivity.
Qed.

Lemma split_join_bars (pieces : list jsstring) :
  pieces <> [] -> Forall (without 124%N) pieces ->
  split (join (js "|||") pieces) (js "|||") = pieces.
Proof.
  intros Hne Hall. unfold split.
  induction Hall as [| p rest Hp Hrest IH]; [congruence |].
  destruct rest as [| q rest'].
  - cbn [join]. rewrite split_from_no_bars by exact Hp. reflexivity.
  - change (join (js "|||") (p :: q :: rest'))
      with (p ++ js "|||" ++ join (js "|||") (q :: rest')).
    rewrite split_from_bars by exact Hp. cbn [rev app].
    rewrite IH by discriminate. reflexivity.
Qed.

Lemma includes_middle (a p b : jsstring) : includes (a ++ p ++ b) p = true.
Proof.
  induction a as [| c a IH].
  - cbn [app]. destruct (p ++ b) as [| x r] eqn:E.
    + destruct p; [reflexivity | discriminate].
    + cbn [includes]. rewrite <- E. rewrite startsWith_refl. reflexivity.
  - cbn [app includes]. rewrite IH. apply orb_true_r.
Qed.

End TextFacts.

(* ===================================================================== *)
(** ** Model names, cookies and credentials *)
(* ===================================================================== *)

Module ModelsFacts.

Import Models TextSpec TextFacts TransformerFacts TransformerMoreFacts.

(** Every alternative is a hyphen followed by a word without hyphen. *)
Lemma suffix_shape (alt : jsstring) :
  In alt suffixes -> exists word, alt = 45%N :: word /\ without 45%N word.
Proof.
  unfold suffixes. cbn [map In].
  intros [<- | [<- | [<- | [<- | [<- | []]]]]];
    (eexists; split; [reflexivity |]; repeat constructor; discriminate).
Qed.

Lemma strip_suffix_app (id sfx : jsstring) :
  In sfx suffixes -> strip_suffix (id ++ sfx) = id.
Proof.
  intros Hin. induction id as [| c id IH].
  - cbn [app]. destruct sfx as [| x r]; cbn [strip_suffix].
    + destruct (suffix_shape _ Hin) as (w & Hw & _). discriminate.
    + assert (existsb (eqb (x :: r)) suffixes = true) as ->; [| reflexivity].
      apply existsb_exists. exists (x :: r). split; [exact Hin |].
      apply eqb_eq. reflexivity.
  - cbn [app strip_suffix].
    destruct (existsb (eqb (c :: id ++ sfx)) suffixes) eqn:E.
    + exfalso. apply existsb_exists in E as (alt & Halt & Heq).
      apply eqb_eq in Heq.
      destruct (suffix_shape _ Halt) as (w & -> & Hw).
      destruct (suffix_shape _ Hin) as (v & -> & _).
      injection Heq as _ Heq. rewrite <- Heq in Hw.
      unfold without in Hw. apply Forall_app in Hw as [_ Hw].
      apply Forall_cons in Hw as [Hw _]. congruence.
    + rewrite IH. reflexivity.
Qed.

Lemma strip_suffix_plain (id : jsstring) :
  strip_suffix id = id
  <-> ~ exists stem sfx, In sfx suffixes /\ id = stem ++ sfx.
Proof.
  induction id as [| c id IH].
  - split.
    + intros _ (stem & sfx & Hin & Heq).
      destruct (suffix_shape _ Hin) as (w & -> & _).
      destruct stem; discriminate.
    + intros _. cbn [strip_suffix]. destruct (existsb _ _); reflexivity.
  - cbn [strip_suffix].
    destruct (existsb (eqb (c :: id)) suffixes) eqn:E.
    + split; [discriminate |]. intros H. exfalso. apply H.
      apply existsb_exists in E as (alt & Halt & Heq). apply eqb_eq in Heq.
      exists [], alt. split; [exact Halt | exact Heq].
    + split.
      * intros H. injection H as H. apply IH in H.
        intros (stem & sfx & Hin & Heq). destruct stem as [| a stem].
        -- cbn [app] in Heq. subst sfx.
           assert (existsb (eqb (c :: id)) suffixes = true) as E'.
           { apply existsb_exists. exists (c :: id). split; [exact Hin |].
             apply eqb_eq. reflexivity. }
           congruence.
        -- injection Heq as _ Heq. apply H. exists stem, sfx. split; assumption.
      * intros H. f_equal. apply IH. intros (stem & sfx & Hin & Heq).
        apply H. exists (c :: stem), sfx. split; [exact Hin |].
        rewrite Heq. reflexivity.
Qed.

(** X22. The names that [/v1/models] adds for an upstream model are the
    name itself and the name followed by [-thinking], [-search], [-image]
    or [-image_edit]. From a name with one of these four suffixes,
    [transformOpenAIRequestToQwen] derives the model back, whatever its name
    is: the suffix is removed, and the chat type is [t2i] for [-image],
    [image_edit] for [-image_edit] and [t2t] for the other two, the test for
    thinking being true for [-thinking]. The plain name is given back
    exactly when it does not itself end in [-search], [-thinking],
    [-image], [-image_edit] or [-video]: the model [qwen-image] is asked
    for as [qwen], with the chat type [t2i]. *)
Theorem X22_model_variants_are_translated_back (id : jsstring) :
  (forall thinking search t2i image_edit processed name,
      In name (variant_ids id thinking search t2i image_edit processed) ->
      In name processed \/ name = id
      \/ name = id ++ js "-thinking" \/ name = id ++ js "-search"
      \/ name = id ++ js "-image" \/ name = id ++ js "-image_edit")
  /\ (strip_suffix (id ++ js "-thinking") = id
      /\ chat_type_of (id ++ js "-thinking") = js "t2t"
      /\ thinking_enabled (id ++ js "-thinking") = true)
  /\ (strip_suffix (id ++ js "-search") = id
      /\ chat_type_of (id ++ js "-search") = js "t2t")
  /\ (strip_suffix (id ++ js "-image") = id
      /\ chat_type_of (id ++ js "-image") = js "t2i")
  /\ (strip_suffix (id ++ js "-image_edit") = id
      /\ chat_type_of (id ++ js "-image_edit") = js "image_edit")
  /\ (strip_suffix id = id
      <-> ~ exists stem sfx, In sfx suffixes /\ id = stem ++ sfx)
  /\ (strip_suffix (js "qwen-image") = js "qwen"
      /\ chat_type_of (js "qwen-image") = js "t2i").
Proof.
  assert (forall sfx, In sfx suffixes -> strip_suffix (id ++ sfx) = id) as Hstrip
    by (intros sfx; apply strip_suffix_app).
  assert (forall sfx, rev (id ++ sfx) = rev sfx ++ rev id) as Hrev
    by (intros sfx; apply rev_app_distr).
  split.
  { intros thinking search t2i image_edit processed name. unfold variant_ids.
    destruct thinking, search, t2i, image_edit;
      try destruct (existsb _ _);
      rewrite ?in_app_iff; cbn [In]; intuition (subst; auto 10). }
  split; [| split; [| split; [| split; [| split]]]].
  - repeat split;
      try (apply Hstrip; unfold suffixes; cbn [map In]; tauto);
      try (unfold chat_type_of, endsWith; rewrite !Hrev; reflexivity).
    unfold thinking_enabled. apply includes_app_r.
  - split; [apply Hstrip; unfold suffixes; cbn [map In]; tauto |].
    unfold chat_type_of, endsWith. rewrite !Hrev. reflexivity.
  - split; [apply Hstrip; unfold suffixes; cbn [map In]; tauto |].
    unfold chat_type_of, endsWith. rewrite !Hrev. reflexivity.
  - split; [apply Hstrip; unfold suffixes; cbn [map In]; tauto |].
    unfold chat_type_of, endsWith. rewrite !Hrev. reflexivity.
  - apply strip_suffix_plain.
  - split; vm_compute; reflexivity.
Qed.

End ModelsFacts.

Module CookieFacts.

Import ConfigLoader ChatDeletion TextSpec TextFacts TransformerFacts
       TransformerMoreFacts.

Lemma storable_edges (c : jsstring) :
  storable c -> c <> [] /\ edges_not_space c.
Proof.
  intros (Hne & Htrim & _). split; [exact Hne | apply trimmed_edges; exact Htrim].
Qed.

Lemma join_nonempty (sep : jsstring) (pieces : list jsstring) :
  pieces <> [] -> Forall (fun c => c <> []) pieces -> join sep pieces <> [].
Proof.
  intros Hne Hall. destruct pieces as [| p rest]; [congruence |].
  apply Forall_cons in Hall as [Hp _].
  destruct rest; cbn [join]; [exact Hp |].
  destruct p; [congruence | discriminate].
Qed.

Lemma join_edges (sep : jsstring) (pieces : list jsstring) :
  pieces <> [] ->
  Forall (fun c => c <> [] /\ edges_not_space c) pieces ->
  edges_not_space (join sep pieces).
Proof.
  intros _ Hall.
  induction Hall as [| p rest [Hp [Hhead Hlast]] Hrest IH]; [split; exact I |].
  destruct rest as [| q rest'].
  - cbn [join]. split; assumption.
  - change (join sep (p :: q :: rest')) with (p ++ sep ++ join sep (q :: rest')).
    destruct IH as [_ IHlast].
    assert (join sep (q :: rest') <> []) as Hj.
    { apply join_nonempty; [discriminate |].
      eapply Forall_impl; [exact Hrest |]. intros c [Hc _]. exact Hc. }
    split.
    + destruct p as [| a m]; [congruence |]. exact Hhead.
    + rewrite !rev_app_distr.
      destruct (rev (join sep (q :: rest'))) as [| a m] eqn:E.
      * exfalso. apply Hj. rewrite <- (rev_involutive (join sep (q :: rest'))), E.
        reflexivity.
      * exact IHlast.
Qed.

Lemma no_bars_no_separator (c : jsstring) :
  without 124%N c -> includes c (js "|||") = false.
Proof.
  induction 1 as [| x c Hx _ IH]; [reflexivity |].
  cbn [includes]. rewrite IH.
  cbn [js startsWith]. change (N_of_ascii "|") with 124%N.
  destruct (N.eqb_spec 124 x); [congruence | reflexivity].
Qed.

Lemma map_trim_fixed (cookies : list jsstring) :
  Forall storable cookies -> map trim cookies = cookies.
Proof.
  induction 1 as [| c rest (_ & Htrim & _) _ IH]; [reflexivity |].
  cbn [map]. rewrite Htrim, IH. reflexivity.
Qed.

Lemma filter_all {A} (f : A -> bool) (l : list A) :
  Forall (fun x => f x = true) l -> List.filter f l = l.
Proof.
  induction 1 as [| x l Hx _ IH]; [reflexivity |].
  cbn [List.filter]. rewrite Hx, IH. reflexivity.
Qed.

Lemma nonempty_true (s : jsstring) : s <> [] -> nonempty s = true.
Proof. destruct s; [congruence | reflexivity]. Qed.

(** X23. Cookies are read back as they were stored: written one per line
    in the cookie file, or joined by three vertical bars in the environment
    variable [COOKIE], a non-empty list of cookies (none empty, none with
    white space around it, with a line feed or a vertical bar in it, or
    starting like a comment) is the list that [loadCookies] returns, in the
    same order. *)
Theorem X23_cookies_are_read_back
        (cookies : list jsstring) (file : option jsstring) :
  cookies <> [] -> Forall storable cookies ->
  loadCookies [] (Some (join [10%N] cookies)) = cookies
  /\ loadCookies (join (js "|||") cookies) file = cookies.
Proof.
  intros Hne Hall.
  assert (Forall (fun c => c <> [] /\ edges_not_space c) cookies) as Hedges.
  { eapply Forall_impl; [exact Hall |]. intros c. apply storable_edges. }
  assert (Forall (fun c => c <> []) cookies) as Hnonempty.
  { eapply Forall_impl; [exact Hall |]. intros c (H & _). exact H. }
  assert (forall sep, trim (join sep cookies) = join sep cookies) as Htrim.
  { intros sep. apply trim_fixed, join_edges; assumption. }
  assert (forall sep, nonempty (join sep cookies) = true) as Hjoin.
  { intros sep. apply nonempty_true, join_nonempty; assumption. }
  split.
  - unfold loadCookies, safeReadFile. cbn [nonempty]. rewrite Htrim, Hjoin.
    rewrite split_join.
    + rewrite map_trim_fixed by exact Hall. apply filter_all.
      eapply Forall_impl; [exact Hall |].
      intros c (Hc & _ & _ & _ & Hcomment).
      rewrite (nonempty_true c Hc), Hcomment. reflexivity.
    + exact Hne.
    + eapply Forall_impl; [exact Hall |]. intros c (_ & _ & H & _). exact H.
  - unfold loadCookies. rewrite Hjoin, Htrim.
    destruct cookies as [| c rest]; [congruence |].
    destruct rest as [| c' rest'].
    + cbn [join]. apply Forall_cons in Hall as [(_ & _ & _ & Hbar & _) _].
      rewrite (no_bars_no_separator c Hbar). reflexivity.
    + change (join (js "|||") (c :: c' :: rest'))
        with (c ++ js "|||" ++ join (js "|||") (c' :: rest')) at 1.
      rewrite includes_middle. rewrite split_join_bars.
      * rewrite map_trim_fixed by exact Hall. apply filter_all.
        eapply Forall_impl; [exact Hnonempty |]. intros x. apply nonempty_true.
      * discriminate.
      * eapply Forall_impl; [exact Hall |]. intros x (_ & _ & _ & H & _). exact H.
Qed.

Lemma X23_witness :
  loadCookies [] (Some (join [10%N] [js "a=1; b=2"; js "c=3"]))
  = [js "a=1; b=2"; js "c=3"]
  /\ loadCookies (join (js "|||") [js "a=1; b=2"; js "c=3"]) None
     = [js "a=1; b=2"; js "c=3"].
Proof.
  apply (X23_cookies_are_read_back [js "a=1; b=2"; js "c=3"] None).
  - discriminate.
  - repeat constructor; try discriminate; vm_compute; reflexivity.
Defined.

Lemma filter_Forall {A} (f : A -> bool) (l : list A) :
  Forall (fun x => f x = true) (List.filter f l).
Proof.
  induction l as [| x l IH]; cbn [List.filter]; [constructor |].
  destruct (f x) eqn:E; [constructor; assumption | exact IH].
Qed.

Lemma cleanCookie_clean (cookie : jsstring) :
  without 13%N (cleanCookie cookie) /\ without 10%N (cleanCookie cookie).
Proof.
  unfold cleanCookie, without.
  pose proof (filter_Forall (fun c => negb (N.eqb c 13 || N.eqb c 10)) cookie) as H.
  split; apply trim_Forall; (eapply Forall_impl; [exact H |]);
    intros c Hc Heq; subst c; discriminate.
Qed.

Lemma cleanCookie_fixed (cookie : jsstring) :
  without 13%N cookie -> without 10%N cookie -> trim cookie = cookie ->
  cleanCookie cookie = cookie.
Proof.
  intros H13 H10 Htrim. unfold cleanCookie. rewrite filter_all; [exact Htrim |].
  unfold without in *. rewrite Forall_forall in *. intros c Hc.
  specialize (H13 c Hc). specialize (H10 c Hc).
  destruct (N.eqb_spec c 13); [congruence |].
  destruct (N.eqb_spec c 10); [congruence | reflexivity].
Qed.

(** X24. The cookie that the deletion task puts in its request header
    never holds a carriage return or a line feed and has no white space
    around it; a cookie that is already like that is sent unchanged, so
    cleaning twice is cleaning once. *)
Theorem X24_cookie_header_has_no_line_break (cookie : jsstring) :
  without 13%N (cleanCookie cookie)
  /\ without 10%N (cleanCookie cookie)
  /\ trim (cleanCookie cookie) = cleanCookie cookie
  /\ (without 13%N cookie -> without 10%N cookie -> trim cookie = cookie ->
      cleanCookie cookie = cookie)
  /\ cleanCookie (cleanCookie cookie) = cleanCookie cookie.
Proof.
  pose proof (cleanCookie_clean cookie) as [H13 H10].
  assert (trim (cleanCookie cookie) = cleanCookie cookie) as Htrim
    by apply trim_idempotent.
  repeat split; try assumption.
  - apply cleanCookie_fixed.
  - apply cleanCookie_fixed; assumption.
Qed.

End CookieFacts.

Module AuthFacts.

Import Auth TextSpec TextFacts TransformerFacts.

Lemma strip_bearer_scheme (rest : jsstring) :
  strip_bearer (js "Bearer " ++ rest) = trimStart rest.
Proof. reflexivity. Qed.

Lemma trimStart_idempotent (s : jsstring) : trimStart (trimStart s) = trimStart s.
Proof.
  destruct (trimStart_suffix s) as (_ & _ & Hhead). apply trimStart_fixed. exact Hhead.
Qed.

Lemma trimStart_app (s r : jsstring) :
  trimStart s <> [] -> trimStart (s ++ r) = trimStart s ++ r.
Proof.
  induction s as [| c s IH]; cbn [trimStart app]; [congruence |].
  destruct (isSpace c); [exact IH | reflexivity].
Qed.

Lemma trim_of_trimStart (s : jsstring) : trim (trimStart s) = trim s.
Proof. unfold trim. rewrite trimStart_idempotent. reflexivity. Qed.

Lemma trim_nonempty (s : jsstring) : trim s <> [] -> trimStart s <> [].
Proof.
  unfold trim, trimEnd. intros H E. apply H. rewrite E. reflexivity.
Qed.

Lemma split_three (a b c : jsstring) :
  part a -> part b -> part c ->
  split (a ++ js ";" ++ b ++ js ";" ++ c) (js ";") = [a; b; c].
Proof.
  intros Ha Hb Hc. unfold split. change (js ";") with [59%N]. cbn [app].
  rewrite (split_from_piece 59%N a Ha). rewrite (split_from_piece 59%N b Hb).
  rewrite (split_from_last 59%N c Hc). reflexivity.
Qed.

Lemma split_two (a b : jsstring) :
  part a -> part b -> split (a ++ js ";" ++ b) (js ";") = [a; b].
Proof.
  intros Ha Hb. unfold split. change (js ";") with [59%N]. cbn [app].
  rewrite (split_from_piece 59%N a Ha). rewrite (split_from_last 59%N b Hb).
  reflexivity.
Qed.

(** X25. In client mode the documented credential is accepted and read
    back. With a configured key [K] (not empty, without white space around
    it), the header [Bearer K;T;C] passes with the token [T] and the cookie
    [C], both trimmed; without a configured key the header [Bearer T;C]
    does. [K], [T] and [C] hold no semicolon and [T] is not blank. *)
Theorem X25_client_credentials_are_read_back (K T C : jsstring) :
  part K -> part T -> part C ->
  K <> [] -> trim K = K -> trim T <> [] ->
  client_auth K (Some (js "Bearer " ++ K ++ js ";" ++ T ++ js ";" ++ C))
  = Next (trim T) (trim C)
  /\ client_auth [] (Some (js "Bearer " ++ T ++ js ";" ++ C))
     = Next (trim T) (trim C).
Proof.
  intros HK HT HC HKne HKtrim HTne.
  assert (nonempty (trim T) = true) as HTok
    by (destruct (trim T); [congruence | reflexivity]).
  split.
  - unfold client_auth. cbn [default from_option]. unfold Datatypes.id.
    rewrite strip_bearer_scheme.
    assert (trimStart (K ++ js ";" ++ T ++ js ";" ++ C)
            = K ++ js ";" ++ T ++ js ";" ++ C) as ->.
    { apply trimStart_fixed. destruct (trimmed_edges K HKtrim) as [Hhead _].
      destruct K as [| a m]; [congruence |]. exact Hhead. }
    assert (nonempty (K ++ js ";" ++ T ++ js ";" ++ C) = true) as ->
      by (destruct K; [congruence | reflexivity]).
    cbn [negb]. rewrite split_three by assumption.
    assert (nonempty K = true) as -> by (destruct K; [congruence | reflexivity]).
    cbn [lookup list_lookup fmap option_fmap option_map default from_option].
    unfold Datatypes.id. rewrite HKtrim.
    assert (eqb K K = true) as -> by (apply eqb_eq; reflexivity).
    rewrite HTok. reflexivity.
  - unfold client_auth. cbn [default from_option]. unfold Datatypes.id.
    rewrite strip_bearer_scheme.
    rewrite trimStart_app by (apply trim_nonempty; exact HTne).
    assert (nonempty (trimStart T ++ js ";" ++ C) = true) as ->.
    { pose proof (trim_nonempty T HTne). destruct (trimStart T); [congruence | reflexivity]. }
    cbn [negb nonempty].
    rewrite split_two; [| apply trimStart_Forall; exact HT | exact HC].
    cbn [lookup list_lookup fmap option_fmap option_map default from_option].
    unfold Datatypes.id. rewrite trim_of_trimStart, HTok. reflexivity.
Qed.

Lemma X25_witness :
  client_auth (js "key") (Some (js "Bearer " ++ js "key" ++ js ";" ++ js " tok " ++ js ";" ++ js "a=1"))
  = Next (trim (js " tok ")) (trim (js "a=1")).
Proof.
  apply (X25_client_credentials_are_read_back (js "key") (js " tok ") (js "a=1"));
    try (repeat constructor; discriminate); try discriminate;
    vm_compute; reflexivity.
Defined.

End AuthFacts.

(* ===================================================================== *)
(** ** Streams of complete records *)
(* ===================================================================== *)

Module RecordStreamFacts.

Import Transformer Samples TransformerSpec TransformerMoreSpec CollectorSpec
       RecordStreamSpec TextSpec.
Import TransformerFacts TransformerMoreFacts TextFacts.

(** *** The transformer on chunks of complete records *)

Lemma split_blank (l : jsstring) :
  no_line_feed l ->
  forall rest cur,
    split_from blank (l ++ blank ++ rest) 0 cur
    = (rev cur ++ l) :: split_from blank rest 0 [].
Proof.
  induction 1 as [| c l Hc _ IH]; intros rest cur.
  - cbn. rewrite app_nil_r. reflexivity.
  - cbn [app split_from].
    match goal with
    | |- context [startsWith ?a ?b] => assert (startsWith a b = false) as ->
    end.
    { unfold blank. cbn [startsWith].
      destruct (N.eqb_spec 10 c); [congruence | reflexivity]. }
    rewrite IH. cbn [rev]. rewrite <- app_assoc. reflexivity.
Qed.

Lemma split_records (lines : list jsstring) :
  Forall no_line_feed lines -> split (records lines) blank = lines ++ [[]].
Proof.
  unfold split. induction 1 as [| l ls Hl _ IH]; [reflexivity |].
  unfold records in *. cbn [map concat]. rewrite <- app_assoc.
  rewrite (split_blank l Hl). cbn [rev app]. rewrite IH. reflexivity.
Qed.

Lemma records_include_blank (lines : list jsstring) :
  lines <> [] -> includes (records lines) blank = true.
Proof.
  destruct lines as [| l ls]; [congruence |]. intros _.
  unfold records. cbn [map concat]. rewrite <- app_assoc. apply includes_middle.
Qed.

Lemma take_lines_records (lines : list jsstring) :
  lines <> [] -> Forall no_line_feed lines ->
  take_lines (records lines) = (lines, []).
Proof.
  intros Hne Hlf. unfold take_lines.
  change (js (String "010" (String "010" ""))) with blank.
  rewrite records_include_blank by exact Hne.
  rewrite split_records by exact Hlf.
  unfold pop. rewrite removelast_last, last_snoc. reflexivity.
Qed.

Lemma transform_complete_records
      (urls : gset jsstring) (chunk : list N) (lines : list jsstring) :
  complete_records chunk lines ->
  transform (mkState [] urls) chunk
  = (mkState [] (fst (process_lines urls lines)),
     snd (process_lines urls lines)).
Proof.
  intros (Hdec & Hne & Hlf & Hdone & Hlen). unfold transform, transform_raw.
  rewrite Hdec. cbn [buffer app sentImageUrls].
  replace (N.ltb MAX_BUFFER_SIZE (jslength (records lines))) with false
    by (symmetry; apply N.ltb_ge; exact Hlen).
  rewrite Hdone, (take_lines_records lines Hne Hlf).
  destruct (process_lines urls lines) as [urls1 out1]. reflexivity.
Qed.

Lemma process_lines_app (a b : list jsstring) :
  forall urls,
    process_lines urls (a ++ b)
    = (fst (process_lines (fst (process_lines urls a)) b),
       snd (process_lines urls a)
       ++ snd (process_lines (fst (process_lines urls a)) b)).
Proof.
  induction a as [| line a IH]; intros urls.
  - cbn [app process_lines fst snd]. destruct (process_lines urls b). reflexivity.
  - cbn [app]. rewrite !process_lines_cons, IH. cbn [fst snd].
    rewrite app_assoc. reflexivity.
Qed.

Lemma run_complete_records (chunks : list (list N)) (batches : list (list jsstring)) :
  Forall2 complete_records chunks batches ->
  forall urls,
    run (mkState [] urls) chunks
    = (mkState [] (fst (process_lines urls (concat batches))),
       snd (process_lines urls (concat batches))).
Proof.
  induction 1 as [| chunk lines chunks batches Hrec _ IH]; intros urls.
  - reflexivity.
  - cbn [run concat]. rewrite (transform_complete_records urls chunk lines Hrec).
    rewrite IH, process_lines_app. reflexivity.
Qed.

(** *** An image address seen twice *)

Lemma process_line_image (urls : gset jsstring) (line url : jsstring) (fin : bool) :
  image_line line url fin ->
  process_line urls line
  = if bool_decide (url ∈ urls) then (urls, empty_finish fin)
    else ({[url]} ∪ urls, [Chunk (JStr (image_markdown url)) fin]).
Proof.
  intros (d & q & Hd & Hq & Hrec). unfold process_line. rewrite Hd.
  destruct (eqb d (js "[DONE]")) eqn:E.
  { apply eqb_eq in E. subst d. rewrite done_is_not_json in Hq. discriminate. }
  apply (process_record_image urls d q url fin Hq Hrec).
Qed.

Lemma image_line_sample_is_image_line :
  image_line image_line_sample image_url false.
Proof.
  destruct image_data_is_image_record as (q & Hq & Hrec).
  exists image_data, q. split; [vm_compute; reflexivity |]. split; assumption.
Qed.

(** C6, as stated, fails: the address of an image is wrapped only when it
    starts with [https://]. In a stream of two image-phase records with the
    same address [http://cdn.qwenlm.ai/a.png], neither occurrence is wrapped
    and the second one is pushed as a content frame like the first. *)
Lemma C6_counterexample :
  snd (run initial [plain_address_record; plain_address_record])
  = [Chunk (JStr plain_address) false; Chunk (JStr plain_address) false].
Proof. vm_compute. reflexivity. Qed.

(** C6, amended. Take a stream that arrives as complete records (every
    chunk one or more lines, each followed by a blank line, without the text
    of the terminal marker and within the cap of the buffer) and two of its
    records, image-phase records whose content is the same address starting
    with [https://]. The frames of the stream are, in order: those of the
    records before; for the earlier of the two, the embedded-image frame if
    the address was not seen before in this stream, and otherwise what the
    later one gives; those of the records between; for the later one no
    frame at all (only the empty finishing frame when it carries a finish
    marker); and those of the records after. *)
Theorem C6_image_url_is_wrapped_once_in_a_stream
        (chunks : list (list N)) (batches : list (list jsstring))
        (pre mid post : list jsstring) (earlier later url : jsstring)
        (fin1 fin2 : bool) :
  Forall2 complete_records chunks batches ->
  concat batches = pre ++ earlier :: mid ++ later :: post ->
  image_line earlier url fin1 -> image_line later url fin2 ->
  let seen := fst (process_lines ∅ pre) in
  let seen1 := fst (process_lines ({[url]} ∪ seen) mid) in
  snd (run initial chunks)
  = snd (process_lines ∅ pre)
    ++ (if bool_decide (url ∈ seen) then empty_finish fin1
        else [Chunk (JStr (image_markdown url)) fin1])
    ++ snd (process_lines ({[url]} ∪ seen) mid)
    ++ empty_finish fin2
    ++ snd (process_lines seen1 post).
Proof.
  intros Hchunks Hlines Hearlier Hlater. cbv zeta.
  unfold initial. rewrite (run_complete_records chunks batches Hchunks).
  cbn [snd]. rewrite Hlines.
  rewrite process_lines_app. cbn [snd]. f_equal.
  set (seen := fst (process_lines ∅ pre)).
  rewrite process_lines_cons. cbn [snd].
  assert (fst (process_line seen earlier) = {[url]} ∪ seen) as Hseen.
  { rewrite (process_line_image seen earlier url fin1 Hearlier).
    destruct (bool_decide (url ∈ seen)) eqn:E; cbn [fst]; [| reflexivity].
    apply bool_decide_eq_true_1 in E. symmetry.
    apply subseteq_union_1_L, singleton_subseteq_l. exact E. }
  rewrite Hseen. f_equal.
  { rewrite (process_line_image seen earlier url fin1 Hearlier).
    destruct (bool_decide (url ∈ seen)); reflexivity. }
  rewrite process_lines_app. cbn [snd]. f_equal.
  set (seen1 := fst (process_lines ({[url]} ∪ seen) mid)).
  assert (url ∈ seen1) as Hin.
  { pose proof (process_lines_grows mid ({[url]} ∪ seen)) as Hgrow.
    fold seen1 in Hgrow. apply (proj1 (elem_of_subseteq _ _) Hgrow).
    apply elem_of_union_l, elem_of_singleton. reflexivity. }
  rewrite process_lines_cons. cbn [snd].
  rewrite (process_line_image seen1 later url fin2 Hlater).
  rewrite bool_decide_eq_true_2 by exact Hin. reflexivity.
Qed.

(** C6 amended, at a stream of twice the same image-phase record: one
    embedded-image frame, and nothing for the second occurrence. *)
Lemma C6_witness :
  snd (run initial [image_record_chunk; image_record_chunk])
  = [Chunk (JStr (image_markdown image_url)) false].
Proof.
  apply (C6_image_url_is_wrapped_once_in_a_stream
           [image_record_chunk; image_record_chunk]
           [[image_line_sample]; [image_line_sample]]
           [] [] [] image_line_sample image_line_sample image_url false false).
  - assert (complete_records image_record_chunk [image_line_sample]) as H.
    { split; [vm_compute; reflexivity |]. split; [discriminate |].
      split; [repeat constructor; discriminate |].
      split; [vm_compute; reflexivity |]. vm_compute. discriminate. }
    constructor; [exact H |]. constructor; [exact H | constructor].
  - reflexivity.
  - exact image_line_sample_is_image_line.
  - exact image_line_sample_is_image_line.
Defined.

(** *** Text that is not JSON *)

Lemma trim_infix (s : jsstring) : exists a b, s = a ++ trim s ++ b.
Proof.
  unfold trim, trimEnd.
  destruct (trimStart_suffix s) as (a & Ha & _).
  destruct (trimStart_suffix (rev (trimStart s))) as (b & Hb & _).
  exists a, (rev b). rewrite Ha at 1. f_equal.
  rewrite <- rev_app_distr, <- Hb, rev_involutive. reflexivity.
Qed.

Lemma strip_data_prefix_suffix (line : jsstring) :
  exists a, line = a ++ strip_data_prefix line.
Proof.
  unfold strip_data_prefix. destruct (startsWith line (js "data:")).
  - destruct (drop 5 line) as [| c rest] eqn:E.
    + exists line. rewrite app_nil_r. reflexivity.
    + destruct (isSpace c).
      * exists (take 5 line ++ [c]). rewrite <- app_assoc. cbn [app].
        rewrite <- E. symmetry. apply take_drop.
      * exists (take 5 line). rewrite <- E. symmetry. apply take_drop.
  - exists []. reflexivity.
Qed.

(** The data of a line is a part of the line. *)
Lemma dataStr_of_infix (line d : jsstring) :
  dataStr_of line = Some d -> exists a b, line = a ++ d ++ b.
Proof.
  unfold dataStr_of. destruct (_ || _); [discriminate |].
  destruct (startsWith line (js "data:")).
  - destruct (nonempty _); [| discriminate]. intros H. injection H as <-.
    destruct (strip_data_prefix_suffix line) as (p & Hp).
    destruct (trim_infix (strip_data_prefix line)) as (a & b & Hab).
    exists (p ++ a), b. rewrite Hp at 1. rewrite Hab at 1.
    rewrite <- app_assoc. reflexivity.
  - destruct (nonempty _); [| discriminate]. intros H. injection H as <-.
    apply trim_infix.
Qed.

Lemma not_marker (line d : jsstring) :
  dataStr_of line = Some d -> includes line (js "[DONE]") = false ->
  eqb d (js "[DONE]") = false.
Proof.
  intros Hd Hinc. destruct (eqb d (js "[DONE]")) eqn:E; [| reflexivity].
  apply eqb_eq in E. subst d.
  destruct (dataStr_of_infix _ _ Hd) as (a & b & Hab).
  rewrite Hab, includes_middle in Hinc. discriminate.
Qed.

Lemma includes_record (line : jsstring) :
  includes (line ++ blank) (js "[DONE]") = includes line (js "[DONE]").
Proof.
  unfold blank. apply includes_app_blank; [repeat constructor | discriminate].
Qed.

(** X13. A record that arrives as one chunk (one line without a line feed,
    followed by a blank line, within the cap of the buffer) and whose data
    is not JSON: when the line holds the text [[DONE]] anywhere, the record
    is dropped and the terminal frame is pushed in its place; otherwise the
    data is forwarded as it is when it does not start with a brace, and
    dropped when it does. The set of image addresses is unchanged and the
    buffer is empty afterwards in every case. *)
Theorem X13_text_that_is_not_JSON
        (urls : gset jsstring) (chunk : list N) (line d : jsstring) :
  toString_utf8 chunk = line ++ blank ->
  no_line_feed line ->
  (jslength (line ++ blank) <= MAX_BUFFER_SIZE)%N ->
  dataStr_of line = Some d ->
  JSON_parse d = None ->
  transform (mkState [] urls) chunk
  = (mkState [] urls,
     if includes line (js "[DONE]") then [Done]
     else if startsWith d (js "{") then [] else [Chunk (JStr d) false]).
Proof.
  intros Hdec Hlf Hlen Hd Hparse.
  destruct (includes line (js "[DONE]")) eqn:Hdone.
  - unfold transform, transform_raw. rewrite Hdec. cbn [buffer app sentImageUrls].
    replace (N.ltb MAX_BUFFER_SIZE (jslength (line ++ blank))) with false
      by (symmetry; apply N.ltb_ge; exact Hlen).
    rewrite includes_record, Hdone. reflexivity.
  - rewrite (transform_record urls chunk line Hdec).
    2:{ split; [exact Hlf |]. split; [exact Hdone | exact Hlen]. }
    rewrite (process_line_not_json urls line d Hd (not_marker _ _ Hd Hdone) Hparse).
    reflexivity.
Qed.

(** X13, at a line of plain text that mentions the marker. *)
Lemma X13_witness :
  transform (mkState [] ∅) (js "data: step 2 [DONE], next" ++ blank)
  = (mkState [] ∅, [Done]).
Proof.
  apply (X13_text_that_is_not_JSON ∅ (js "data: step 2 [DONE], next" ++ blank)
           (js "data: step 2 [DONE], next") (js "step 2 [DONE], next")).
  - vm_compute. reflexivity.
  - repeat constructor; discriminate.
  - vm_compute. discriminate.
  - vm_compute. reflexivity.
  - vm_compute. reflexivity.
Defined.

(** *** The collector and the transformer on the same stream *)

Lemma single_record (chunk : list N) (line : jsstring) :
  toString_utf8 chunk = line ++ blank -> plain_record line ->
  complete_records chunk [line].
Proof.
  intros Hdec (Hlf & Hdone & Hlen). unfold complete_records, records.
  cbn [map concat]. rewrite app_nil_r.
  split; [exact Hdec |]. split; [discriminate |].
  split; [constructor; [exact Hlf | constructor] |].
  split; [rewrite includes_record; exact Hdone | exact Hlen].
Qed.

Lemma run_single_records (chunks : list (list N)) (lines : list jsstring) :
  Forall2 (fun chunk line => toString_utf8 chunk = line ++ blank) chunks lines ->
  Forall plain_record lines ->
  forall urls,
    snd (run (mkState [] urls) chunks) = snd (process_lines urls lines).
Proof.
  intros Hdec Hplain urls.
  rewrite (run_complete_records chunks (map (fun l => [l]) lines)).
  - cbn [snd]. f_equal. f_equal. clear Hdec Hplain.
    induction lines as [| l ls IH]; [reflexivity |].
    cbn [map concat app]. f_equal. exact IH.
  - clear urls. induction Hdec as [| chunk line chunks lines H _ IH]; [constructor |].
    apply Forall_cons in Hplain as [Hline Hrest]. cbn [map].
    constructor; [apply single_record; assumption | apply IH; exact Hrest].
Qed.

Lemma texts_app (a b : list frame) : texts (a ++ b) = texts a ++ texts b.
Proof. unfold texts. rewrite map_app, concat_app. reflexivity. Qed.

(** The lines the collector finds in complete records: each record and the
    empty line after it. *)
Lemma records_terminated (lines : list jsstring) :
  records lines = terminated (concat (map (fun l => [l; []]) lines)).
Proof.
  unfold records, terminated. induction lines as [| l ls IH]; [reflexivity |].
  cbn [map concat app]. rewrite IH. unfold blank.
  rewrite <- !app_assoc. reflexivity.
Qed.

Lemma decoded_records (chunks : list (list N)) (lines : list jsstring) :
  Forall2 (fun chunk line => toString_utf8 chunk = line ++ blank) chunks lines ->
  decoded chunks = records lines.
Proof.
  unfold decoded, records. induction 1 as [| chunk line chunks lines H _ IH];
    [reflexivity |].
  cbn [map concat]. rewrite H, IH. reflexivity.
Qed.

Lemma choice_line_data (line : jsstring) (delta : json) (s : jsstring) :
  choice_line line delta s ->
  exists d q choice,
    line = js "data: " ++ d /\ trim line = line /\ d <> js "[DONE]"
    /\ dataStr_of line = Some d
    /\ JSON_parse d = Some q /\ choices_record q choice delta s.
Proof.
  intros (d & q & choice & -> & Htrim & Hq & Hrec).
  assert (d <> []) as Hne.
  { intros ->. vm_compute in Hq. discriminate. }
  assert (d <> js "[DONE]") as Hdone.
  { intros ->. rewrite done_is_not_json in Hq. discriminate. }
  assert (trim (js "data: " ++ d) = js "data: " ++ d) as Hline.
  { apply trim_fixed. destruct (trimmed_edges d Htrim) as [_ Hlast].
    split; [reflexivity |]. rewrite rev_app_distr.
    destruct (rev d) as [| a m] eqn:E; [| exact Hlast].
    exfalso. apply Hne. rewrite <- (rev_involutive d), E. reflexivity. }
  exists d, q, choice. split; [reflexivity |]. split; [exact Hline |].
  split; [exact Hdone |]. split; [| split; assumption].
  unfold dataStr_of. rewrite Hline.
  change (nonempty (js "data: " ++ d)) with true.
  change (startsWith (js "data: " ++ d) (js "data:")) with true.
  change (strip_data_prefix (js "data: " ++ d)) with d.
  cbn [negb orb]. rewrite Htrim.
  destruct d; [congruence | reflexivity].
Qed.

Section WithNumbers.

Variable nt : jsnumber -> jsstring.

(** The value of the promise for a text of complete lines. *)
Lemma collect_lines (cs : list (list N)) (ls : list jsstring) :
  Forall no_line_feed ls ->
  decoded cs = terminated ls ->
  Collector.collect nt (map Collector.Data cs ++ [Collector.End])
  = Some (Collector.content (on_lines nt Collector.initial ls)).
Proof.
  intros Hls Hdec.
  unfold Collector.collect. rewrite fold_left_app. cbn [fold_left Collector.handle].
  assert (Collector.resolved Collector.initial = None ->
          no_line_feed (Collector.remainder Collector.initial)) as Hinv
    by (intros _; constructor).
  pose proof (CollectorFacts.chunks_scan nt cs Collector.initial Hinv) as [H1 H2].
  cbn [Collector.initial Collector.remainder app] in H1, H2.
  rewrite Hdec, <- (app_nil_r (terminated ls)) in H1, H2.
  pose proof (CollectorFacts.scan_lines nt ls [] Hls ltac:(constructor)
                Collector.initial) as (Hc & _ & Hr).
  set (S := fold_left (Collector.handle nt) (map Collector.Data cs)
                      Collector.initial) in *.
  unfold Collector.resolve. destruct (Collector.resolved S) as [v |] eqn:Hv.
  - rewrite Hv. f_equal. apply (CollectorFacts.on_lines_value nt);
      [reflexivity |]. rewrite <- Hr. symmetry. exact H1.
  - cbn [Collector.resolved]. rewrite (H2 eq_refl), Hc. reflexivity.
Qed.

(** The collector on the line of a record. *)
Lemma on_line_choice (st : Collector.state) (line : jsstring)
      (delta : json) (s : jsstring) :
  choice_line line delta s ->
  Collector.on_line nt st line
  = (Collector.mkState (Collector.remainder st)
       (Collector.content st ++ shown delta s (Collector.sentImageUrls st))
       (remembered delta s (Collector.sentImageUrls st))
       (Collector.resolved st),
     false).
Proof.
  intros Hline.
  destruct (choice_line_data line delta s Hline)
    as (d & q & choice & -> & Htrim & Hdone & _ & Hq & Hrec).
  unfold Collector.on_line. cbv zeta. rewrite Htrim.
  change (nonempty (js "data: " ++ d)) with true. cbn [negb].
  destruct (eqb (js "data: " ++ d) (js "data: [DONE]")) eqn:E.
  { apply eqb_eq in E. exfalso. apply Hdone.
    apply (app_inv_head (js "data: ")). exact E. }
  change (startsWith (js "data: " ++ d) (js "data: ")) with true.
  change (drop 6 (js "data: " ++ d)) with d.
  rewrite Hq.
  rewrite (AgreementFacts.collector_record nt (Collector.sentImageUrls st)
             q choice delta s Hrec).
  cbn [truthy JsText.ToString Collector.remainder Collector.content
       Collector.sentImageUrls Collector.resolved].
  destruct (shown delta s (Collector.sentImageUrls st)) as [| c text] eqn:Hs;
    cbn [nonempty]; [rewrite app_nil_r |]; reflexivity.
Qed.

(** The transformer on the line of a record. *)
Lemma process_line_choice (urls : gset jsstring) (line : jsstring)
      (delta : json) (s : jsstring) :
  choice_line line delta s ->
  fst (process_line urls line) = remembered delta s urls
  /\ texts (snd (process_line urls line)) = shown delta s urls.
Proof.
  intros Hline.
  destruct (choice_line_data line delta s Hline)
    as (d & q & choice & _ & _ & Hdone & Hd & Hq & Hrec).
  unfold process_line. rewrite Hd.
  destruct (eqb d (js "[DONE]")) eqn:E; [apply eqb_eq in E; contradiction |].
  rewrite (AgreementFacts.transformer_record urls d q choice delta s Hq Hrec).
  cbn [fst snd]. split; [reflexivity |].
  destruct (shown delta s urls) as [| c text] eqn:Hs; cbn [nonempty orb].
  - destruct (finish_marked choice delta); reflexivity.
  - unfold texts. cbn [map concat text_of_frame]. apply app_nil_r.
Qed.

Lemma agree_on_lines (lines : list jsstring) :
  Forall (fun line => exists delta s, choice_line line delta s) lines ->
  forall st,
    Collector.content
      (on_lines nt st (concat (map (fun l => [l; []]) lines)))
    = Collector.content st
      ++ texts (snd (process_lines (Collector.sentImageUrls st) lines)).
Proof.
  induction 1 as [| line lines (delta & s & Hline) _ IH]; intros st.
  - cbn [map concat on_lines process_lines snd]. unfold texts. cbn [map concat].
    rewrite app_nil_r. reflexivity.
  - cbn [map concat app on_lines].
    rewrite (on_line_choice st line delta s Hline).
    change (Collector.on_line nt ?x []) with (x, false).
    cbv iota beta. rewrite IH. cbn [Collector.content Collector.sentImageUrls].
    rewrite process_lines_cons. cbn [snd]. rewrite texts_app.
    destruct (process_line_choice (Collector.sentImageUrls st) line delta s Hline)
      as [Hurls Htexts].
    rewrite Hurls, Htexts, <- app_assoc. reflexivity.
Qed.

(** X17. The answer of the non-streaming branch is the text of the frames
    of the streaming branch. For an upstream stream that arrives one record
    per chunk (a line without a line feed, followed by a blank line, within
    the cap of the transformer's buffer), every record being [data: ]
    followed by the JSON text of a record that is not a failure record and
    whose first choice has a string as its content, without the text
    [[DONE]] in it, the text that [collectOpenAICompletionFromSSE] resolves
    with at the end of the stream is the contents of the frames that the
    stream transformer pushes for the same chunks, one after the other
    (an image address wrapped the first time it is seen and left out
    afterwards, in both). A record that holds the text [[DONE]] in its
    content breaks the agreement: the transformer drops the record and
    pushes the terminal frame, the collector keeps its text. *)
Theorem X17_collected_text_is_the_text_of_the_frames :
  (forall (chunks : list (list N)) (lines : list jsstring),
      Forall2 (fun chunk line => toString_utf8 chunk = line ++ blank) chunks lines ->
      Forall plain_record lines ->
      Forall (fun line => exists delta s, choice_line line delta s) lines ->
      Collector.collect nt (map Collector.Data chunks ++ [Collector.End])
      = Some (texts (snd (run initial chunks))))
  /\ (forall (chunk : list N) (line : jsstring) (delta : json) (s : jsstring),
        toString_utf8 chunk = line ++ blank ->
        no_line_feed line ->
        (jslength (line ++ blank) <= MAX_BUFFER_SIZE)%N ->
        choice_line line delta s ->
        includes line (js "[DONE]") = true ->
        snd (run initial [chunk]) = [Done]
        /\ Collector.collect nt [Collector.Data chunk; Collector.End]
           = Some (shown delta s ∅)).
Proof.
  assert (forall lines,
             Forall (fun line => exists delta s, choice_line line delta s) lines ->
             Forall no_line_feed lines ->
             Forall no_line_feed (concat (map (fun l => [l; []]) lines)))
    as Hspaced.
  { intros lines _ Hlf. induction Hlf as [| l ls Hl _ IH]; [constructor |].
    cbn [map concat app]. constructor; [exact Hl |].
    constructor; [constructor | exact IH]. }
  split.
  - intros chunks lines Hdec Hplain Hchoice.
    assert (Forall no_line_feed lines) as Hlf.
    { eapply Forall_impl; [exact Hplain |]. intros l (H & _). exact H. }
    rewrite (collect_lines chunks (concat (map (fun l => [l; []]) lines))).
    + f_equal. rewrite agree_on_lines by exact Hchoice.
      cbn [Collector.initial Collector.content Collector.sentImageUrls app].
      unfold initial. rewrite (run_single_records chunks lines Hdec Hplain).
      reflexivity.
    + apply Hspaced; assumption.
    + rewrite (decoded_records chunks lines Hdec). apply records_terminated.
  - intros chunk line delta s Hdec Hlf Hlen Hline Hdone. split.
    + cbn [run]. unfold transform, transform_raw, initial.
      rewrite Hdec. cbn [buffer app sentImageUrls].
      replace (N.ltb MAX_BUFFER_SIZE (jslength (line ++ blank))) with false
        by (symmetry; apply N.ltb_ge; exact Hlen).
      rewrite includes_record, Hdone. reflexivity.
    + change [Collector.Data chunk; Collector.End]
        with (map Collector.Data [chunk] ++ [Collector.End]).
      rewrite (collect_lines [chunk] [line; []]).
      * f_equal. cbn [on_lines].
        rewrite (on_line_choice Collector.initial line delta s Hline).
        reflexivity.
      * constructor; [exact Hlf |]. constructor; constructor.
      * unfold decoded, terminated. cbn [map concat]. rewrite Hdec, !app_nil_r.
        unfold blank. rewrite <- app_assoc. reflexivity.
Qed.

End WithNumbers.

(** X17, at a stream of two content records. *)
Lemma X17_witness :
  Collector.collect no_numbers
    (map Collector.Data
       [quoted "data: {'choices':[{'delta':{'content':'late'}}]}" ++ blank;
        quoted "data: {'choices':[{'delta':{'content':'r'}}]}" ++ blank]
     ++ [Collector.End])
  = Some (texts (snd (run initial
       [quoted "data: {'choices':[{'delta':{'content':'late'}}]}" ++ blank;
        quoted "data: {'choices':[{'delta':{'content':'r'}}]}" ++ blank]))).
Proof.
  apply (proj1 (X17_collected_text_is_the_text_of_the_frames no_numbers)
           [quoted "data: {'choices':[{'delta':{'content':'late'}}]}" ++ blank;
            quoted "data: {'choices':[{'delta':{'content':'r'}}]}" ++ blank]
           [quoted "data: {'choices':[{'delta':{'content':'late'}}]}";
            quoted "data: {'choices':[{'delta':{'content':'r'}}]}"]).
  - repeat constructor.
  - repeat constructor; vm_compute; try reflexivity; discriminate.
  - constructor; [| constructor; [| constructor]].
    + exists (JObj [(js "content", JStr (js "late"))]), (js "late").
      exists (quoted "{'choices':[{'delta':{'content':'late'}}]}").
      do 2 eexists. split; [reflexivity |]. split; [vm_compute; reflexivity |].
      split; [vm_compute; reflexivity |].
      unfold choices_record. do 2 eexists. repeat split; vm_compute; reflexivity.
    + exists (JObj [(js "content", JStr (js "r"))]), (js "r").
      exists (quoted "{'choices':[{'delta':{'content':'r'}}]}").
      do 2 eexists. split; [reflexivity |]. split; [vm_compute; reflexivity |].
      split; [vm_compute; reflexivity |].
      unfold choices_record. do 2 eexists. repeat split; vm_compute; reflexivity.
Defined.

End RecordStreamFacts.
